(** * The RDMA block pool of brpc (src/brpc/rdma/block_pool.cpp)

    A sequential shallow embedding of the block pool: the process-wide
    globals become one [State] record that every operation threads
    through; the external world (posix_memalign, the registration
    callback, the IdleNode object pool, fast_rand) is given to the
    operations as explicit arguments or state components.

    Conventions:
    - [size_t], [uintptr_t] and [uint64_t] values are [Z] with the
      wrap-around of 64-bit arithmetic written out ([wrap64]); an [int]
      that meets an unsigned operand is converted with [wrap64] too;
    - a linked list of IdleNode (through [next]) is a Rocq list, head
      first; the fields of IdleNode and Region carry the prefixes [n_]
      and [r_];
    - an operation returns [None] when the C program has no defined
      continuation: a CHECK that fails (taken to end the program), a
      division by zero, an index outside a vector or array, an access
      or call through a null pointer;
    - butil::get_object and butil::return_object are a counter of the
      IdleNode objects that can still be handed out; posix_memalign and
      free keep the list of live blocks, and a posix_memalign that fails
      leaves ENOMEM in errno;
    - mutexes are not modelled (the embedding is sequential), and the
      allocation of a mutex is taken to succeed. *)

From stdpp Require Import prelude.
From Stdlib Require Import ZArith Lia.

Open Scope Z_scope.

(** ** Constants *)

Definition BYTES_IN_MB : Z := 1048576.
Definition MAX_REGIONS : Z := 16.
Definition BLOCK_DEFAULT : nat := 0.
Definition BLOCK_2_DEFAULT : nat := 1.
Definition BLOCK_4_DEFAULT : nat := 2.
Definition BLOCK_8_DEFAULT : nat := 3.
Definition BLOCK_SIZE_COUNT : nat := 4.

Definition ENOMEM : Z := 12.
Definition EINVAL : Z := 22.
Definition ERANGE : Z := 34.

Definition NULL : Z := 0.

Definition wrap64 (z : Z) : Z := z mod 2 ^ 64.

(** ** Data *)

Record IdleNode := mkIdleNode {
  n_start : Z;
  n_len : Z
}.

Record Region := mkRegion {
  r_start : Z;
  r_size : Z;
  r_block_type : nat;
  r_id : Z
}.

(** The registration callback: from the base and the byte length of a
    region to its 32-bit key. *)
Definition Callback : Type := Z → Z → Z.

(** posix_memalign at the moment of a call: the requested size is mapped
    to [None] (failure) or to the address stored in [*memptr]. The
    alignment passed is 4096, so a failure is ENOMEM, and the allocator
    of the C library leaves that value in errno: the caller of a failed
    posix_memalign finds errno set to ENOMEM. *)
Definition Memalign : Type := Z → option Z.

Record Flags := mkFlags {
  FLAGS_rdma_memory_pool_initial_size_mb : Z;
  FLAGS_rdma_memory_pool_increase_size_mb : Z;
  FLAGS_rdma_memory_pool_max_regions : Z;
  FLAGS_rdma_memory_pool_buckets : Z
}.

Record GlobalInfo := mkGlobalInfo {
  idle_list : list (list (list IdleNode));
  ready_list : list (list IdleNode)
}.

Record State := mkState {
  flags : Flags;
  g_buckets : Z;
  g_max_regions : Z;
  g_regions : list Region;
  g_region_num : Z;
  g_cb : option Callback;
  g_block_size : list Z;
  g_info : option GlobalInfo;
  errno : Z;
  (** live blocks obtained from posix_memalign, as (base, size) *)
  heap : list (Z * Z);
  (** number of IdleNode objects the object pool can still hand out *)
  node_pool : nat
}.

Definition set_errno (e : Z) (st : State) : State :=
  mkState (flags st) (g_buckets st) (g_max_regions st) (g_regions st)
    (g_region_num st) (g_cb st) (g_block_size st) (g_info st) e
    (heap st) (node_pool st).

Definition set_heap (h : list (Z * Z)) (st : State) : State :=
  mkState (flags st) (g_buckets st) (g_max_regions st) (g_regions st)
    (g_region_num st) (g_cb st) (g_block_size st) (g_info st) (errno st)
    h (node_pool st).

Definition set_node_pool (p : nat) (st : State) : State :=
  mkState (flags st) (g_buckets st) (g_max_regions st) (g_regions st)
    (g_region_num st) (g_cb st) (g_block_size st) (g_info st) (errno st)
    (heap st) p.

Definition set_info (gi : GlobalInfo) (st : State) : State :=
  mkState (flags st) (g_buckets st) (g_max_regions st) (g_regions st)
    (g_region_num st) (g_cb st) (g_block_size st) (Some gi) (errno st)
    (heap st) (node_pool st).

Definition set_regions (rs : list Region) (n : Z) (st : State) : State :=
  mkState (flags st) (g_buckets st) (g_max_regions st) rs
    n (g_cb st) (g_block_size st) (g_info st) (errno st)
    (heap st) (node_pool st).

(** The state of the process before any call: the static initialisers of
    the globals, with the flags, errno and the object pool as found. *)
Definition boot (fl : Flags) (e : Z) (pool : nat) : State :=
  mkState fl 1 MAX_REGIONS
    (replicate (Z.to_nat MAX_REGIONS) (mkRegion 0 0 0%nat 0)) 0
    None (replicate BLOCK_SIZE_COUNT 0) None e [] pool.

(** ** The object pool and the heap *)

Definition get_object (pool : nat) : option nat :=
  match pool with
  | O => None
  | S p => Some p
  end.

Definition return_object (pool : nat) : nat := S pool.

(** free(p): the first live block based at [p] is released. *)
Fixpoint free (p : Z) (h : list (Z * Z)) : list (Z * Z) :=
  match h with
  | [] => []
  | b :: h' => if decide (b.1 = p) then h' else b :: free p h'
  end.

(** ** Reverse lookup *)

Fixpoint GetRegion_scan (n : nat) (rs : list Region) (addr : Z)
  : option Region :=
  match n, rs with
  | S n', r :: rs' =>
      if decide (r_start r = 0) then None
      else if decide (r_start r ≤ addr ∧ addr < wrap64 (r_start r + r_size r))
           then Some r
           else GetRegion_scan n' rs' addr
  | _, _ => None
  end.

Definition GetRegion (st : State) (buf : Z) : option Region * State :=
  if decide (buf = NULL) then (None, set_errno EINVAL st)
  else (GetRegion_scan (Z.to_nat (g_max_regions st)) (g_regions st) buf, st).

Definition GetRegionId (st : State) (buf : Z) : Z * State :=
  match GetRegion st buf with
  | (None, st') => (0, st')
  | (Some r, st') => (r_id r, st')
  end.

(** ** Extending the pool with a region *)

(** The loop acquiring [g_buckets] IdleNode objects: [todo] objects are
    still to be acquired, [got] have been; on a shortage the acquired
    ones go back to the pool. *)
Fixpoint acquire_nodes (todo got pool : nat) : bool * nat :=
  match todo with
  | O => (true, pool)
  | S todo' =>
      match get_object pool with
      | None => (false, Nat.iter got return_object pool)
      | Some pool' => acquire_nodes todo' (S got) pool'
      end
  end.

(** The loop pushing the bucket extents of a region on a ready list:
    iterations [i, i + n). *)
Fixpoint push_extents (n : nat) (i : Z) (start size buckets : Z)
    (ready : list IdleNode) : list IdleNode :=
  match n with
  | O => ready
  | S n' =>
      push_extents n' (i + 1) start size buckets
        (mkIdleNode (wrap64 (start + wrap64 (i * (size / buckets))))
                    (size / buckets) :: ready)
  end.

(** The regularised byte size of a region of [region_size] MB; [buckets]
    is g_buckets converted to an unsigned 64-bit operand. *)
Definition regular_size (region_size bs buckets : Z) : Z :=
  let region_size := wrap64 (region_size * BYTES_IN_MB) / bs / buckets in
  wrap64 (region_size * wrap64 (bs * buckets)).

(** [region_size] is the size_t argument, in megabytes, and [mem] is
    posix_memalign for this call. That g_info and its ready list can be
    read is checked before the region is written: with a null g_info the
    C code stops right after writing it, in the loop over the nodes. *)
Definition ExtendBlockPool (st : State) (region_size : Z) (block_type : nat)
    (mem : Memalign) : option (Z * State) :=
  if decide (region_size < 64) then Some (NULL, set_errno EINVAL st)
  else if decide (g_region_num st = g_max_regions st)
  then Some (NULL, set_errno ENOMEM st)
  else
    bs ← g_block_size st !! block_type;
    if decide (bs = 0 ∨ wrap64 (g_buckets st) = 0) then None
    else
      let region_size :=
        regular_size region_size bs (wrap64 (g_buckets st)) in
      match mem region_size with
      | None => Some (NULL, set_errno ENOMEM st)
      | Some region_base =>
          let st1 := set_heap ((region_base, region_size) :: heap st) st in
          cb ← g_cb st1;
          let id := cb region_base region_size in
          if decide (id = 0)
          then Some (NULL, set_heap (free region_base (heap st1)) st1)
          else
            match acquire_nodes (Z.to_nat (g_buckets st1)) 0 (node_pool st1) with
            | (false, pool) =>
                Some (NULL, set_node_pool pool
                              (set_heap (free region_base (heap st1)) st1))
            | (true, pool) =>
                let st2 := set_node_pool pool st1 in
                gi ← g_info st2;
                ready ← ready_list gi !! block_type;
                if decide (0 ≤ g_region_num st2 < MAX_REGIONS) then
                  let region := mkRegion region_base region_size block_type id in
                  let st3 :=
                    set_regions
                      (<[Z.to_nat (g_region_num st2) := region]> (g_regions st2))
                      (g_region_num st2 + 1) st2 in
                  let ready' :=
                    push_extents (Z.to_nat (g_buckets st3)) 0 region_base
                      region_size (wrap64 (g_buckets st3)) ready in
                  Some (region_base,
                        set_info (mkGlobalInfo (idle_list gi)
                                    (<[block_type := ready']> (ready_list gi)))
                                 st3)
                else None
            end
      end.

(** ** Initialisation *)

Definition clamp_flags (fl : Flags) : Flags :=
  mkFlags
    (if decide (FLAGS_rdma_memory_pool_initial_size_mb fl < 64) then 64
     else FLAGS_rdma_memory_pool_initial_size_mb fl)
    (if decide (FLAGS_rdma_memory_pool_increase_size_mb fl < 64) then 64
     else FLAGS_rdma_memory_pool_increase_size_mb fl)
    (if decide (FLAGS_rdma_memory_pool_max_regions fl < 1) then 1
     else FLAGS_rdma_memory_pool_max_regions fl)
    (FLAGS_rdma_memory_pool_buckets fl).

(** [DEFAULT_BLOCK_SIZE] stands for butil::IOBuf::DEFAULT_BLOCK_SIZE, a
    constant of the buffer library; [info_ok] tells whether the
    allocation of the GlobalInfo object succeeds. *)
Definition InitBlockPool (DEFAULT_BLOCK_SIZE : Z) (st : State)
    (cb : option Callback) (info_ok : bool) (mem : Memalign)
  : option (Z * State) :=
  match cb with
  | None => Some (NULL, set_errno EINVAL st)
  | Some f =>
      match g_cb st with
      | Some _ => Some (NULL, set_errno EINVAL st)
      | None =>
          let fl := clamp_flags (flags st) in
          let max_regions :=
            if decide (FLAGS_rdma_memory_pool_max_regions fl < g_max_regions st)
            then FLAGS_rdma_memory_pool_max_regions fl
            else g_max_regions st in
          let buckets :=
            if decide (FLAGS_rdma_memory_pool_buckets fl >= 1)
            then FLAGS_rdma_memory_pool_buckets fl
            else g_buckets st in
          if info_ok then
            let gi :=
              mkGlobalInfo
                (replicate BLOCK_SIZE_COUNT (replicate (Z.to_nat buckets) []))
                (replicate BLOCK_SIZE_COUNT []) in
            let bsize := DEFAULT_BLOCK_SIZE in
            let sizes :=
              [bsize; wrap64 (bsize * 2); wrap64 (bsize * 4);
               wrap64 (bsize * 8)] in
            ExtendBlockPool
              (mkState fl buckets max_regions (g_regions st)
                 (g_region_num st) (Some f) sizes (Some gi) (errno st)
                 (heap st) (node_pool st))
              (wrap64 (FLAGS_rdma_memory_pool_initial_size_mb fl))
              BLOCK_DEFAULT mem
          else
            Some (NULL,
                  mkState fl buckets max_regions (g_regions st)
                    (g_region_num st) (Some f) (g_block_size st) (g_info st)
                    (errno st) (heap st) (node_pool st))
      end
  end.

(** ** Draining the ready list *)

(** The bucket computed from an address and its region; [buckets] is
    g_buckets converted to an unsigned 64-bit operand. *)
Definition bucket_index (buckets : Z) (r : Region) (addr : Z) : Z :=
  wrap64 (wrap64 (addr - r_start r) * buckets) / r_size r.

(** The walk of PickReadyBlocks over a ready list: [None] when a CHECK
    fails or a region of size zero divides, [Some None] when the walk
    ends without a match, [Some (Some (node, rest))] when [node] is
    unlinked and [rest] stays. *)
Fixpoint pick_scan (st : State) (index : Z) (ready : list IdleNode)
  : option (option (IdleNode * list IdleNode)) :=
  match ready with
  | [] => Some None
  | node :: ready' =>
      match (GetRegion st (n_start node)).1 with
      | None => None
      | Some r =>
          if decide (r_size r = 0) then None
          else if decide (bucket_index (wrap64 (g_buckets st)) r (n_start node)
                          = index)
          then Some (Some (node, ready'))
          else
            found ← pick_scan st index ready';
            Some (match found with
                  | None => None
                  | Some (n, rest) => Some (n, node :: rest)
                  end)
      end
  end.

Definition PickReadyBlocks (st : State) (block_type : nat) (index : Z)
  : option State :=
  gi ← g_info st;
  ready ← ready_list gi !! block_type;
  found ← pick_scan st index ready;
  match found with
  | None => Some st
  | Some (node, rest) =>
      row ← idle_list gi !! block_type;
      if decide (0 ≤ index < Z.of_nat (length row)) then
        Some (set_info
                (mkGlobalInfo
                   (<[block_type := <[Z.to_nat index := [node]]> row]>
                      (idle_list gi))
                   (<[block_type := rest]> (ready_list gi)))
                st)
      else None
  end.

(** ** Allocation *)

Definition idle_at (st : State) (block_type : nat) (index : Z)
  : option (list IdleNode) :=
  gi ← g_info st;
  row ← idle_list gi !! block_type;
  if decide (0 ≤ index) then row !! Z.to_nat index else None.

Definition set_idle (st : State) (block_type : nat) (index : Z)
    (l : list IdleNode) : option State :=
  gi ← g_info st;
  row ← idle_list gi !! block_type;
  Some (set_info
          (mkGlobalInfo
             (<[block_type := <[Z.to_nat index := l]> row]> (idle_list gi))
             (ready_list gi))
          st).

(** The end of AllocBlockFrom: the head of the idle list gives the block. *)
Definition take_block (st : State) (block_type : nat) (index : Z)
  : option (Z * State) :=
  node ← idle_at st block_type index;
  match node with
  | [] => Some (NULL, st)
  | n :: next =>
      bs ← g_block_size st !! block_type;
      if decide (n_len n > bs) then
        st' ← set_idle st block_type index
                (mkIdleNode (wrap64 (n_start n + bs)) (n_len n - bs) :: next);
        Some (n_start n, st')
      else if decide (n_len n = bs) then
        st' ← set_idle st block_type index next;
        Some (n_start n, set_node_pool (return_object (node_pool st')) st')
      else None
  end.

(** [rnd] is the value of butil::fast_rand() for this call. *)
Definition AllocBlockFrom (st : State) (block_type : nat) (rnd : Z)
    (mem : Memalign) : option (Z * State) :=
  if decide (wrap64 (g_buckets st) = 0) then None
  else
    let index := wrap64 rnd mod wrap64 (g_buckets st) in
    node ← idle_at st block_type index;
    match node with
    | _ :: _ => take_block st block_type index
    | [] =>
        st1 ← PickReadyBlocks st block_type index;
        node ← idle_at st1 block_type index;
        match node with
        | _ :: _ => take_block st1 block_type index
        | [] =>
            ext ← ExtendBlockPool st1
                     (wrap64 (FLAGS_rdma_memory_pool_increase_size_mb (flags st1)))
                     block_type mem;
            if decide (ext.1 = NULL) then Some (NULL, ext.2)
            else
              st2 ← PickReadyBlocks ext.2 block_type index;
              take_block st2 block_type index
        end
    end.

(** The loop of AllocBlock over the size classes, from class [i]. *)
Fixpoint AllocBlock_loop (st : State) (size : Z) (rnd : Z) (mem : Memalign)
    (i : nat) (sizes : list Z) : option (Z * State) :=
  match sizes with
  | [] => Some (NULL, st)
  | bs :: sizes' =>
      if decide (size ≤ bs) then AllocBlockFrom st i rnd mem
      else AllocBlock_loop st size rnd mem (S i) sizes'
  end.

Definition AllocBlock (st : State) (size : Z) (rnd : Z) (mem : Memalign)
  : option (Z * State) :=
  last ← g_block_size st !! (BLOCK_SIZE_COUNT - 1)%nat;
  if decide (size = 0 ∨ size > last) then Some (NULL, set_errno EINVAL st)
  else AllocBlock_loop st size rnd mem 0 (take BLOCK_SIZE_COUNT (g_block_size st)).

(** ** Deallocation *)

Definition DeallocBlock (st : State) (buf : Z) : option (Z * State) :=
  if decide (buf = NULL) then Some (-1, set_errno EINVAL st)
  else
    match GetRegion st buf with
    | (None, st1) => Some (-1, set_errno ERANGE st1)
    | (Some r, st1) =>
        let block_type := r_block_type r in
        block_size ← g_block_size st1 !! block_type;
        match get_object (node_pool st1) with
        | None => Some (0, st1)
        | Some pool =>
            let st2 := set_node_pool pool st1 in
            if decide (r_size r = 0) then None
            else
              let index := bucket_index (wrap64 (g_buckets st2)) r buf in
              next ← idle_at st2 block_type index;
              st3 ← set_idle st2 block_type index
                      (mkIdleNode buf block_size :: next);
              Some (0, st3)
        end
    end.

(** ** Introspection *)

Definition GetBlockType (st : State) (buf : Z) : Z * State :=
  match GetRegion st buf with
  | (None, st') => (-1, st')
  | (Some r, st') => (Z.of_nat (r_block_type r), st')
  end.

Definition GetBlockSize (st : State) (type : nat) : option Z :=
  g_block_size st !! type.

Definition GetRegionNum (st : State) : Z := g_region_num st.

(** ** The functions kept for the unit tests *)

(** return_object for every node of a linked list. *)
Fixpoint return_nodes (l : list IdleNode) (pool : nat) : nat :=
  match l with
  | [] => pool
  | _ :: l' => return_nodes l' (return_object pool)
  end.

(** The loop of DestroyBlockPool over the buckets of one class:
    iterations [j, j + n). *)
Fixpoint destroy_row (n j : nat) (row : list (list IdleNode)) (pool : nat)
  : option nat :=
  match n with
  | O => Some pool
  | S n' => l ← row !! j; destroy_row n' (S j) row (return_nodes l pool)
  end.

(** The loop of DestroyBlockPool over the classes: iterations
    [i, i + n). *)
Fixpoint destroy_lists (n i : nat) (buckets : nat) (gi : GlobalInfo)
    (pool : nat) : option nat :=
  match n with
  | O => Some pool
  | S n' =>
      row ← idle_list gi !! i;
      pool1 ← destroy_row buckets 0 row pool;
      ready ← ready_list gi !! i;
      destroy_lists n' (S i) buckets gi (return_nodes ready pool1)
  end.

(** The loop of DestroyBlockPool over the regions: iterations
    [i, i + n); it stops at the first region without memory. *)
Fixpoint destroy_regions (n i : nat) (rs : list Region) (h : list (Z * Z))
  : option (list Region * list (Z * Z)) :=
  match n with
  | O => Some (rs, h)
  | S n' =>
      r ← rs !! i;
      if decide (r_start r = 0) then Some (rs, h)
      else
        destroy_regions n' (S i)
          (<[i := mkRegion 0 (r_size r) (r_block_type r) (r_id r)]> rs)
          (free (r_start r) h)
  end.

(** The lists are emptied before g_info is deleted, so the state keeps
    no trace of them; the flags, g_buckets, g_max_regions and the block
    sizes stay as they are. *)
Definition DestroyBlockPool (st : State) : option State :=
  gi ← g_info st;
  pool ← destroy_lists BLOCK_SIZE_COUNT 0 (Z.to_nat (g_buckets st)) gi
            (node_pool st);
  rh ← destroy_regions (Z.to_nat (g_region_num st)) 0 (g_regions st) (heap st);
  Some (mkState (flags st) (g_buckets st) (g_max_regions st) rh.1 0 None
          (g_block_size st) None (errno st) rh.2 pool).

(** The walk of GetGlobalLen along one idle list. *)
Fixpoint GetGlobalLen_walk (l : list IdleNode) (len : Z) : Z :=
  match l with
  | [] => len
  | n :: l' => GetGlobalLen_walk l' (wrap64 (len + n_len n))
  end.

(** The loop of GetGlobalLen over the buckets: iterations [i, i + n). *)
Fixpoint GetGlobalLen_loop (st : State) (block_type : nat) (n i : nat)
    (len : Z) : option Z :=
  match n with
  | O => Some len
  | S n' =>
      gi ← g_info st;
      row ← idle_list gi !! block_type;
      l ← row !! i;
      GetGlobalLen_loop st block_type n' (S i) (GetGlobalLen_walk l len)
  end.

Definition GetGlobalLen (st : State) (block_type : nat) : option Z :=
  GetGlobalLen_loop st block_type (Z.to_nat (g_buckets st)) 0 0.

(** ** Programs: sequences of calls *)

Inductive Op :=
| OpInit (cb : option Callback) (info_ok : bool) (mem : Memalign)
| OpAlloc (size rnd : Z) (mem : Memalign)
| OpDealloc (buf : Z)
| OpPickReady (block_type : nat) (index : Z)
| OpGetRegionId (buf : Z)
| OpGetBlockType (buf : Z).

Definition run_op (DEFAULT_BLOCK_SIZE : Z) (st : State) (op : Op)
  : option (Z * State) :=
  match op with
  | OpInit cb info_ok mem => InitBlockPool DEFAULT_BLOCK_SIZE st cb info_ok mem
  | OpAlloc size rnd mem => AllocBlock st size rnd mem
  | OpDealloc buf => DeallocBlock st buf
  | OpPickReady block_type index =>
      st' ← PickReadyBlocks st block_type index; Some (0, st')
  | OpGetRegionId buf => Some (GetRegionId st buf)
  | OpGetBlockType buf => Some (GetBlockType st buf)
  end.

(** ** What the environment guarantees *)

(** Two live blocks never share a byte, and a block of size zero still
    has an address of its own. *)
Definition footprint_disjoint (b1 s1 b2 s2 : Z) : Prop :=
  b1 + Z.max 1 s1 ≤ b2 ∨ b2 + Z.max 1 s2 ≤ b1.

(** posix_memalign gives a non-null block inside the address space that
    is apart from every live block. *)
Definition mem_contract (st : State) (mem : Memalign) : Prop :=
  ∀ sz base, mem sz = Some base →
    0 < base ∧ base + sz < 2 ^ 64 ∧
    ∀ b s, (b, s) ∈ heap st → footprint_disjoint base sz b s.

Definition env_ok (st : State) (op : Op) : Prop :=
  match op with
  | OpInit _ _ mem => mem_contract st mem
  | OpAlloc _ _ mem => mem_contract st mem
  | _ => True
  end.

(** The flags are 32-bit integers, and the byte size of a region times
    the number of buckets fits in 64 bits, so that the bucket of an
    address is computed without wrap-around. *)
Definition flags_ok (fl : Flags) : Prop :=
  - 2 ^ 31 ≤ FLAGS_rdma_memory_pool_initial_size_mb fl < 2 ^ 31 ∧
  - 2 ^ 31 ≤ FLAGS_rdma_memory_pool_increase_size_mb fl < 2 ^ 31 ∧
  - 2 ^ 31 ≤ FLAGS_rdma_memory_pool_max_regions fl < 2 ^ 31 ∧
  - 2 ^ 31 ≤ FLAGS_rdma_memory_pool_buckets fl < 2 ^ 31 ∧
  Z.max 64 (FLAGS_rdma_memory_pool_initial_size_mb fl) * BYTES_IN_MB
    * Z.max 1 (FLAGS_rdma_memory_pool_buckets fl) < 2 ^ 64 ∧
  Z.max 64 (FLAGS_rdma_memory_pool_increase_size_mb fl) * BYTES_IN_MB
    * Z.max 1 (FLAGS_rdma_memory_pool_buckets fl) < 2 ^ 64.

Inductive reachable (DEFAULT_BLOCK_SIZE : Z) : State → Prop :=
| reach_boot fl e pool :
    flags_ok fl → reachable DEFAULT_BLOCK_SIZE (boot fl e pool)
| reach_step st op res st' :
    reachable DEFAULT_BLOCK_SIZE st →
    env_ok st op →
    run_op DEFAULT_BLOCK_SIZE st op = Some (res, st') →
    reachable DEFAULT_BLOCK_SIZE st'.

(** ** Invariants *)

(** The size classes B, 2B, 4B, 8B. *)
Definition class_size (B : Z) (c : nat) : Z :=
  match c with
  | 0%nat => B
  | 1%nat => B * 2
  | 2%nat => B * 4
  | _ => B * 8
  end.

Definition class_sizes (B : Z) : list Z := [B; B * 2; B * 4; B * 8].

(** Region [r] is installed at index [i]. *)
Definition installed (st : State) (i : nat) (r : Region) : Prop :=
  Z.of_nat i < g_region_num st ∧ g_regions st !! i = Some r.

Definition in_region (r : Region) (addr : Z) : Prop :=
  r_start r ≤ addr < r_start r + r_size r.

(** The bucket of an address of region [r], as the specification writes
    it: no wrap-around. *)
Definition bucket_of (st : State) (r : Region) (addr : Z) : Z :=
  (addr - r_start r) * g_buckets st / r_size r.

Definition region_ok (B : Z) (st : State) (r : Region) : Prop :=
  0 < r_start r ∧ 0 ≤ r_size r ∧ r_start r + r_size r < 2 ^ 64 ∧
  (r_block_type r < BLOCK_SIZE_COUNT)%nat ∧ r_id r ≠ 0 ∧
  (∃ per_bucket, 0 ≤ per_bucket ∧
     r_size r = per_bucket * class_size B (r_block_type r) * g_buckets st) ∧
  r_size r * g_buckets st < 2 ^ 64 ∧
  (r_start r, r_size r) ∈ heap st.

(** A node of idle_list[c][b]. *)
Definition idle_node_ok (B : Z) (st : State) (c b : nat) (n : IdleNode)
  : Prop :=
  ∃ i r, installed st i r ∧ r_block_type r = c ∧ in_region r (n_start n) ∧
    bucket_of st r (n_start n) = Z.of_nat b ∧
    (∃ k, 0 < k ∧ n_len n = k * class_size B c) ∧
    (class_size B c < n_len n →
       r_start r + Z.of_nat b * (r_size r / g_buckets st) ≤ n_start n ∧
       n_start n + n_len n
         ≤ r_start r + (Z.of_nat b + 1) * (r_size r / g_buckets st)).

(** A node of ready_list[c]: the extent of one bucket of one region. *)
Definition ready_node_ok (st : State) (c : nat) (n : IdleNode) : Prop :=
  ∃ i r j, installed st i r ∧ r_block_type r = c ∧ 0 ≤ j < g_buckets st ∧
    n_start n = r_start r + j * (r_size r / g_buckets st) ∧
    n_len n = r_size r / g_buckets st.

Definition info_ok (B : Z) (st : State) (gi : GlobalInfo) : Prop :=
  g_cb st ≠ None ∧
  g_block_size st = class_sizes B ∧
  length (idle_list gi) = BLOCK_SIZE_COUNT ∧
  (∀ c row, idle_list gi !! c = Some row →
     length row = Z.to_nat (g_buckets st)) ∧
  length (ready_list gi) = BLOCK_SIZE_COUNT ∧
  (∀ c b row l n, idle_list gi !! c = Some row → row !! b = Some l →
     n ∈ l → idle_node_ok B st c b n) ∧
  (∀ c l n, ready_list gi !! c = Some l → n ∈ l → ready_node_ok st c n).

Record Inv (B : Z) (st : State) : Prop := mkInv {
  inv_buckets :
    1 ≤ g_buckets st ≤ Z.max 1 (FLAGS_rdma_memory_pool_buckets (flags st));
  inv_flags : flags_ok (flags st);
  inv_max : 1 ≤ g_max_regions st ≤ MAX_REGIONS;
  inv_num : 0 ≤ g_region_num st ≤ g_max_regions st;
  inv_len : length (g_regions st) = Z.to_nat MAX_REGIONS;
  inv_cb :
    g_cb st ≠ None →
    64 ≤ FLAGS_rdma_memory_pool_initial_size_mb (flags st) ∧
    64 ≤ FLAGS_rdma_memory_pool_increase_size_mb (flags st);
  inv_info :
    match g_info st with
    | None =>
        g_block_size st = replicate BLOCK_SIZE_COUNT 0 ∧ g_region_num st = 0
    | Some gi => info_ok B st gi
    end;
  inv_unused :
    ∀ i r, g_regions st !! i = Some r → g_region_num st ≤ Z.of_nat i →
           r_start r = 0;
  inv_regions : ∀ i r, installed st i r → region_ok B st r;
  inv_disjoint :
    ∀ i j r r', installed st i r → installed st j r' → i ≠ j →
      footprint_disjoint (r_start r) (r_size r) (r_start r') (r_size r')
}.

(** No node of [l] belongs to bucket [index]. *)
Definition none_matches (st : State) (index : Z) (l : list IdleNode) : Prop :=
  ∀ n, n ∈ l →
    ∃ r, (GetRegion st (n_start n)).1 = Some r ∧
         bucket_index (wrap64 (g_buckets st)) r (n_start n) ≠ index.

(** The region table only grows, and the cap on the number of regions
    is fixed once the callback is installed. *)
Definition grows (st st' : State) : Prop :=
  g_region_num st ≤ g_region_num st' ∧
  (g_cb st ≠ None →
   g_max_regions st' = g_max_regions st ∧ g_cb st' ≠ None).

(** The flags leave room for blocks: a bucket of a region holds at
    least one block, of class 0 in the first region and of any class in
    the regions that AllocBlock adds. *)
Definition spacious (B : Z) (fl : Flags) : Prop :=
  class_size B 0 * Z.max 1 (FLAGS_rdma_memory_pool_buckets fl)
    ≤ Z.max 64 (FLAGS_rdma_memory_pool_initial_size_mb fl) * BYTES_IN_MB ∧
  class_size B 3 * Z.max 1 (FLAGS_rdma_memory_pool_buckets fl)
    ≤ Z.max 64 (FLAGS_rdma_memory_pool_increase_size_mb fl) * BYTES_IN_MB.

(** Every installed region has room for blocks, and so has every region
    to come. *)
Definition roomy (B : Z) (st : State) : Prop :=
  (∀ i r, installed st i r → 0 < r_size r) ∧ spacious B (flags st).

(** ** Notions of the specification *)

(** [c] is the smallest size class that holds [size] bytes. *)
Definition smallest_class (st : State) (size : Z) (c : nat) : Prop :=
  (∃ bs, g_block_size st !! c = Some bs ∧ size ≤ bs) ∧
  ∀ c' bs', (c' < c)%nat → g_block_size st !! c' = Some bs' → bs' < size.

(** The extent of node [n] belongs to bucket [index]: the bucket of the
    start of the node, in the region that holds it. *)
Definition in_bucket (st : State) (index : Z) (n : IdleNode) : Prop :=
  ∃ r, (GetRegion st (n_start n)).1 = Some r ∧
       bucket_of st r (n_start n) = index.

Definition not_in_bucket (st : State) (index : Z) (n : IdleNode) : Prop :=
  ∃ r, (GetRegion st (n_start n)).1 = Some r ∧
       bucket_of st r (n_start n) ≠ index.

(** An allocation in class [c] and bucket [index] has to extend the
    pool: the idle list is empty and no ready extent is of the bucket. *)
Definition needs_extension (st : State) (c : nat) (index : Z) : Prop :=
  idle_at st c index = Some [] ∧
  ∃ gi ready, g_info st = Some gi ∧ ready_list gi !! c = Some ready ∧
              ∀ n, n ∈ ready → not_in_bucket st index n.

(** ** The scenarios of the unit tests *)

(** The registration callback of the unit tests. *)
Definition DummyCallback : Callback := λ _ _, 1.

(** A posix_memalign for the [i]-th call of a test: blocks of at most
    128 MiB, placed 128 MiB apart from 4 GiB on. *)
Definition test_memalign (i : Z) : Memalign :=
  λ sz, if decide (0 ≤ sz ≤ 2 ^ 27) then Some (2 ^ 32 + i * 2 ^ 27) else None.

(** Four buckets, regions of 64 MB, at most 16 regions, B = 8192. *)
Definition test_flags : Flags := mkFlags 64 64 16 4.

Definition test_boot : State := Eval vm_compute in boot test_flags 0 8.

Definition state_of (o : option (Z * State)) : State :=
  match o with
  | Some (_, st) => st
  | None => test_boot
  end.

(** After InitBlockPool(DummyCallback). *)
Definition test_op1 : Op := OpInit (Some DummyCallback) true (test_memalign 0).
Definition test_state1 : State :=
  Eval vm_compute in state_of (run_op 8192 test_boot test_op1).

(** After one AllocBlock(8192) that draws bucket 1. *)
Definition test_op2 : Op := OpAlloc 8192 1 (test_memalign 1).
Definition test_state2 : State :=
  Eval vm_compute in state_of (run_op 8192 test_state1 test_op2).

(** After the block is given back. *)
Definition test_op3 : Op := OpDealloc (2 ^ 32 + 2 ^ 24).
Definition test_state3 : State :=
  Eval vm_compute in state_of (run_op 8192 test_state2 test_op3).

(** A pool that is exhausted once InitBlockPool has taken its nodes. *)
Definition test_state_exhausted : State :=
  Eval vm_compute in state_of (run_op 8192 (boot test_flags 0 4) test_op1).

(** A second region, of class 1, for the pool in [test_state1]. *)
Definition test_state_extended : State :=
  Eval vm_compute in
    state_of (ExtendBlockPool test_state1 64 1 (test_memalign 1)).

(** The test "extend": one bucket, then [AllocBlock(size)] again and
    again, each call with its own random number and posix_memalign; the
    result is [None] as soon as a call returns NULL. *)
Definition extend_flags : Flags := mkFlags 64 64 16 1.

Fixpoint alloc_all (size : Z) (envs : list (Z * Memalign)) (st : State)
  : option State :=
  match envs with
  | [] => Some st
  | (rnd, mem) :: envs' =>
      match AllocBlock st size rnd mem with
      | Some (p, st') =>
          if decide (p = NULL) then None else alloc_all size envs' st'
      | None => None
      end
  end.

Definition test_envs (n : nat) : list (Z * Memalign) :=
  map (λ i, (Z.of_nat i, test_memalign (Z.of_nat i))) (seq 1 n).

Definition extend_scenario (size : Z) : option Z :=
  match InitBlockPool 8192 (boot extend_flags 0 8) (Some DummyCallback) true
          (test_memalign 0) with
  | Some (p, st) =>
      if decide (p = NULL) then None
      else GetRegionNum <$> alloc_all size (test_envs (Z.to_nat 4096)) st
  | None => None
  end.

(** The end of the test "extend" with requests of 65534 bytes. *)
Definition extend_init : State :=
  Eval vm_compute in
    state_of (InitBlockPool 8192 (boot extend_flags 0 8) (Some DummyCallback)
                true (test_memalign 0)).

Definition extend_final : State :=
  Eval vm_compute in
  match alloc_all 65534 (test_envs (Z.to_nat 4096)) extend_init with
  | Some st => st
  | None => extend_init
  end.

(** The pool of the test "extend" after [n] successful requests of class
    3: [q] regions of class 3 are used up and the current one has given
    [r] of its 1024 blocks. *)
Definition extend_progress (n : Z) (st : State) : Prop :=
  g_buckets st = 1 ∧ g_max_regions st = 16 ∧
  g_block_size st = class_sizes 8192 ∧
  FLAGS_rdma_memory_pool_increase_size_mb (flags st) = 64 ∧
  ∃ gi l q r,
    g_info st = Some gi ∧
    idle_list gi !! 3%nat = Some [l] ∧ ready_list gi !! 3%nat = Some [] ∧
    n = 1024 * q + r ∧ 0 ≤ q ∧ 0 ≤ r < 1024 ∧
    ((r = 0 ∧ l = [] ∧ g_region_num st = 1 + q) ∨
     (0 < r ∧ (∃ a len, l = [mkIdleNode a len] ∧ len = (1024 - r) * 65536) ∧
      g_region_num st = 2 + q)).

(** [run_ops B st ops st']: the calls [ops], made one after the other
    from [st] in an environment that keeps its contract, end in [st']. *)
Inductive run_ops (DEFAULT_BLOCK_SIZE : Z) : State → list Op → State → Prop :=
| run_ops_nil st : run_ops DEFAULT_BLOCK_SIZE st [] st
| run_ops_cons st op res st1 ops st2 :
    env_ok st op →
    run_op DEFAULT_BLOCK_SIZE st op = Some (res, st1) →
    run_ops DEFAULT_BLOCK_SIZE st1 ops st2 →
    run_ops DEFAULT_BLOCK_SIZE st (op :: ops) st2.

(** ** Measures of the lists *)

Definition sumZ {A} (f : A → Z) (l : list A) : Z :=
  foldr (λ x s, f x + s) 0 l.

(** The sum of [f] over the nodes of every idle list and every ready
    list. *)
Definition nodes_sum (f : IdleNode → Z) (gi : GlobalInfo) : Z :=
  sumZ (sumZ (sumZ f)) (idle_list gi) + sumZ (sumZ f) (ready_list gi).

(** The sum of [f] over the nodes of the idle lists of class [c]. *)
Definition idle_sum (f : IdleNode → Z) (gi : GlobalInfo) (c : nat) : Z :=
  sumZ (sumZ f) (default [] (idle_list gi !! c)).

(** ** The ways an allocation is served *)

(** What is left of an idle list whose head [n] gives a block of class
    [c], and what the object pool holds afterwards. *)
Definition carve (B : Z) (c : nat) (n : IdleNode) (next : list IdleNode)
  : list IdleNode :=
  if decide (class_size B c < n_len n)
  then mkIdleNode (n_start n + class_size B c) (n_len n - class_size B c) :: next
  else next.

Definition carve_pool (B : Z) (c : nat) (n : IdleNode) (pool : nat) : nat :=
  if decide (class_size B c < n_len n) then pool else S pool.

(** [from_idle B st c index p st']: the block [p] is the first block of
    the head of idle_list[c][index]. *)
Definition from_idle (B : Z) (st : State) (c : nat) (index : Z) (p : Z)
    (st' : State) : Prop :=
  ∃ gi row n next,
    g_info st = Some gi ∧ idle_list gi !! c = Some row ∧
    0 ≤ index < g_buckets st ∧
    row !! Z.to_nat index = Some (n :: next) ∧
    p = n_start n ∧ class_size B c ≤ n_len n ∧
    st' = set_node_pool (carve_pool B c n (node_pool st))
            (set_info
               (mkGlobalInfo
                  (<[c := <[Z.to_nat index := carve B c n next]> row]>
                     (idle_list gi))
                  (ready_list gi))
               st).

(** [from_ready B st c index p st']: idle_list[c][index] is empty, and
    the block [p] is the first block of the first extent of bucket
    [index] on ready_list[c], which moves to the idle list. *)
Definition from_ready (B : Z) (st : State) (c : nat) (index : Z) (p : Z)
    (st' : State) : Prop :=
  ∃ gi row ready pre node post i r,
    g_info st = Some gi ∧ idle_list gi !! c = Some row ∧
    0 ≤ index < g_buckets st ∧
    row !! Z.to_nat index = Some [] ∧
    ready_list gi !! c = Some ready ∧ ready = pre ++ node :: post ∧
    none_matches st index pre ∧
    installed st i r ∧ r_block_type r = c ∧ 0 < r_size r ∧
    n_start node = r_start r + index * (r_size r / g_buckets st) ∧
    n_len node = r_size r / g_buckets st ∧
    p = n_start node ∧ class_size B c ≤ n_len node ∧
    st' = set_node_pool (carve_pool B c node (node_pool st))
            (set_info
               (mkGlobalInfo
                  (<[c := <[Z.to_nat index := carve B c node []]> row]>
                     (idle_list gi))
                  (<[c := pre ++ post]> (ready_list gi)))
               st).

(** The memory of the installed regions, the latest first. *)
Definition region_blocks (st : State) : list (Z * Z) :=
  reverse ((λ r, (r_start r, r_size r))
           <$> take (Z.to_nat (g_region_num st)) (g_regions st)).

(** A change of the flags between two calls, as the unit tests make. *)
Definition set_flags (fl : Flags) (st : State) : State :=
  mkState fl (g_buckets st) (g_max_regions st) (g_regions st)
    (g_region_num st) (g_cb st) (g_block_size st) (g_info st) (errno st)
    (heap st) (node_pool st).

(** The number of IdleNode objects on the idle and ready lists. *)
Definition nodes_count (st : State) : Z :=
  match g_info st with
  | Some gi => nodes_sum (λ _, 1) gi
  | None => 0
  end.

(** ** A client that gives back what it was given *)

(** Whether the byte at [a] lies in the [len] bytes from [start]. *)
Definition covers (a start len : Z) : Z :=
  if decide (start ≤ a < start + len) then 1 else 0.

Definition node_covers (a : Z) (n : IdleNode) : Z :=
  covers a (n_start n) (n_len n).

(** In how many nodes of the idle and ready lists the byte at [a]
    lies. *)
Definition free_cover (a : Z) (st : State) : Z :=
  match g_info st with
  | Some gi => nodes_sum (node_covers a) gi
  | None => 0
  end.

(** In how many installed regions. *)
Definition region_cover (a : Z) (st : State) : Z :=
  sumZ (λ r, covers a (r_start r) (r_size r))
    (take (Z.to_nat (g_region_num st)) (g_regions st)).

(** In how many of the blocks [out], given as (address, length). *)
Definition out_cover (a : Z) (out : list (Z * Z)) : Z :=
  sumZ (λ b, covers a b.1 b.2) out.

(** The length of the block at [p]: the block size of the class of the
    region that holds [p]. *)
Definition block_len (st : State) (p : Z) : Z :=
  match (GetRegion st p).1 with
  | Some r => default 0 (g_block_size st !! r_block_type r)
  | None => 0
  end.

(** [client B pool st out]: a process that started with [pool] IdleNode
    objects has reached [st] by calls of the public functions, and [out]
    are the blocks that are out of the pool; it passes to DeallocBlock
    only NULL, pointers outside the pool and blocks that are out. A block
    that DeallocBlock cannot take back, for want of an IdleNode object,
    stays out. *)
Inductive client (B : Z) (pool : nat) : State → list (Z * Z) → Prop :=
| client_boot fl e :
    flags_ok fl → client B pool (boot fl e pool) []
| client_init st out cb info mem p st' :
    client B pool st out → mem_contract st mem →
    InitBlockPool B st cb info mem = Some (p, st') →
    client B pool st' out
| client_alloc st out size rnd mem p st' :
    client B pool st out → mem_contract st mem →
    AllocBlock st size rnd mem = Some (p, st') →
    client B pool st'
      (if decide (p = NULL) then out else (p, block_len st' p) :: out)
| client_dealloc st out1 buf len out2 res st' :
    client B pool st (out1 ++ (buf, len) :: out2) →
    DeallocBlock st buf = Some (res, st') →
    client B pool st'
      (if decide (node_pool st = 0%nat) then out1 ++ (buf, len) :: out2
       else out1 ++ out2)
| client_dealloc_rejected st out buf st' :
    client B pool st out →
    DeallocBlock st buf = Some (-1, st') →
    client B pool st' out
| client_GetRegionId st out buf :
    client B pool st out → client B pool (GetRegionId st buf).2 out
| client_GetBlockType st out buf :
    client B pool st out → client B pool (GetBlockType st buf).2 out.

(** The address lies in an installed region, a whole number of blocks
    from its start. *)
Definition aligned (B : Z) (st : State) (addr : Z) : Prop :=
  ∃ i r, installed st i r ∧ in_region r addr ∧
         (addr - r_start r) mod class_size B (r_block_type r) = 0.

(** What holds of the pool of such a client. *)
Record client_inv (B : Z) (pool : nat) (st : State) (out : list (Z * Z))
  : Prop := mkClientInv {
  cinv_nodes : Z.of_nat (node_pool st) + nodes_count st = Z.of_nat pool;
  cinv_own : ∀ a, free_cover a st + out_cover a out = region_cover a st;
  cinv_idle :
    ∀ gi c b row l n,
      g_info st = Some gi → idle_list gi !! c = Some row → row !! b = Some l →
      n ∈ l → aligned B st (n_start n);
  cinv_out :
    ∀ q len, (q, len) ∈ out →
      ∃ i r, installed st i r ∧ in_region r q ∧
             (q - r_start r) mod class_size B (r_block_type r) = 0 ∧
             len = class_size B (r_block_type r)
}.

(** ** More scenarios *)

(** A posix_memalign that fails. *)
Definition no_memalign : Memalign := λ _, None.

(** After an InitBlockPool(DummyCallback) whose posix_memalign fails. *)
Definition test_state_failed_init : State :=
  Eval vm_compute in
    state_of (InitBlockPool 8192 test_boot (Some DummyCallback) true
                no_memalign).

(** After one AllocBlock(65534) on the pool in [test_state1], which adds
    a region of class 3. *)
Definition test_state_class3 : State :=
  Eval vm_compute in
    state_of (AllocBlock test_state1 65534 1 (test_memalign 1)).

(** After a second AllocBlock(8192) from bucket 1 on the pool in
    [test_state2]. *)
Definition test_state_two_blocks : State :=
  Eval vm_compute in
    state_of (AllocBlock test_state2 8192 1 (test_memalign 2)).

(** After DestroyBlockPool on the pool in [test_state3]. *)
Definition test_state_destroyed : State :=
  Eval vm_compute in
    match DestroyBlockPool test_state3 with
    | Some st => st
    | None => test_boot
    end.

(** Flags set before a second InitBlockPool: a higher cap on the
    regions, and no bucket count. *)
Definition test_flags_again : Flags := mkFlags 64 64 32 0.

Definition test_state_again : State :=
  Eval vm_compute in
    state_of (InitBlockPool 8192 (set_flags test_flags_again test_state_destroyed)
                (Some DummyCallback) true (test_memalign 0)).




(** After the InitBlockPool whose posix_memalign failed: one
    AllocBlock(8192), which adds the first region, and the block given
    back. *)
Definition test_op4 : Op := OpDealloc (2 ^ 32 + 2 ^ 27 + 2 ^ 24).
Definition test_state_late1 : State :=
  Eval vm_compute in state_of (run_op 8192 test_state_failed_init test_op2).
Definition test_state_late2 : State :=
  Eval vm_compute in state_of (run_op 8192 test_state_late1 test_op4).

(** * Basic facts *)

Lemma wrap64_small z : 0 ≤ z < 2 ^ 64 → wrap64 z = z.
Proof. intros H. unfold wrap64. by apply Z.mod_small. Qed.

Lemma free_head p sz h : free p ((p, sz) :: h) = h.
Proof. simpl. by rewrite decide_True. Qed.

(** *** The object pool *)

Lemma acquire_nodes_enough todo got pool :
  (todo ≤ pool)%nat → acquire_nodes todo got pool = (true, (pool - todo)%nat).
Proof.
  revert got pool. induction todo as [|todo IH]; intros got pool Hle; simpl.
  - f_equal. lia.
  - destruct pool as [|pool]; [lia|]. simpl.
    rewrite IH by lia. done.
Qed.

Lemma iter_return_object got pool :
  Nat.iter got return_object pool = (got + pool)%nat.
Proof. induction got as [|got IH]; simpl; [done|]. by rewrite IH. Qed.

Lemma acquire_nodes_short todo got pool :
  (pool < todo)%nat → acquire_nodes todo got pool = (false, (pool + got)%nat).
Proof.
  revert got pool. induction todo as [|todo IH]; intros got pool Hlt; simpl.
  - lia.
  - destruct pool as [|pool]; simpl.
    + rewrite iter_return_object. f_equal. lia.
    + rewrite IH by lia. f_equal. lia.
Qed.

(** *** The regularised size *)

Lemma regular_size_eq m bs K :
  0 ≤ m * BYTES_IN_MB < 2 ^ 64 → 0 < bs → 0 < K →
  regular_size m bs K = m * BYTES_IN_MB / (bs * K) * bs * K.
Proof.
  intros Hm Hbs HK. unfold regular_size.
  rewrite (wrap64_small (m * BYTES_IN_MB)) by done.
  rewrite Z.div_div by lia.
  set (raw := m * BYTES_IN_MB) in *.
  set (pb := raw / (bs * K)).
  assert (Hpb : 0 ≤ pb) by (apply Z.div_pos; lia).
  assert (Hle : pb * (bs * K) ≤ raw).
  { rewrite Z.mul_comm. apply Z.mul_div_le. lia. }
  destruct (decide (pb = 0)) as [->|Hne].
  { by rewrite !Z.mul_0_l. }
  assert (bs * K ≤ raw) by nia.
  rewrite (wrap64_small (bs * K)) by lia.
  rewrite wrap64_small by lia. lia.
Qed.

Lemma regular_size_le m bs K :
  0 ≤ m * BYTES_IN_MB < 2 ^ 64 → 0 < bs → 0 < K →
  0 ≤ regular_size m bs K ≤ m * BYTES_IN_MB.
Proof.
  intros Hm Hbs HK. rewrite regular_size_eq by done.
  set (raw := m * BYTES_IN_MB) in *.
  assert (0 ≤ raw / (bs * K)) by (apply Z.div_pos; lia).
  assert (bs * K * (raw / (bs * K)) ≤ raw) by (apply Z.mul_div_le; lia).
  nia.
Qed.

(** *** The extents pushed on a ready list *)

Lemma elem_of_push_extents n i start size K ready x :
  x ∈ push_extents n i start size K ready →
  x ∈ ready ∨
  ∃ j, i ≤ j < i + Z.of_nat n ∧
       x = mkIdleNode (wrap64 (start + wrap64 (j * (size / K)))) (size / K).
Proof.
  revert i ready. induction n as [|n IH]; intros i ready; simpl.
  - by left.
  - intros [Hin | (j & Hj & ->)]%IH.
    + apply elem_of_cons in Hin as [-> | Hin]; [|by left].
      right. exists i. split; [lia|done].
    + right. exists j. split; [lia|done].
Qed.

(** *** The scan of the region table *)

Lemma GetRegion_scan_Some n rs addr r :
  GetRegion_scan n rs addr = Some r →
  ∃ i, (i < n)%nat ∧ rs !! i = Some r ∧ r_start r ≠ 0 ∧
       r_start r ≤ addr < wrap64 (r_start r + r_size r).
Proof.
  revert rs. induction n as [|n IH]; intros [|r0 rs]; simpl; try done.
  case_decide; [done|]. case_decide as Hin.
  - intros [= ->]. exists 0%nat. split; [lia|]. by split.
  - intros (i & Hi & Hl & Hr)%IH. exists (S i). split; [lia|]. by split.
Qed.

Lemma GetRegion_scan_first n rs addr i r :
  rs !! i = Some r → (i < n)%nat → r_start r ≠ 0 →
  r_start r ≤ addr < wrap64 (r_start r + r_size r) →
  (∀ j r', (j < i)%nat → rs !! j = Some r' →
     r_start r' ≠ 0 ∧
     ¬ (r_start r' ≤ addr < wrap64 (r_start r' + r_size r'))) →
  GetRegion_scan n rs addr = Some r.
Proof.
  revert rs i. induction n as [|n IH]; intros [|r0 rs] i; simpl; try done; try lia.
  intros Hl Hi Hne Hin Hbefore. destruct i as [|i]; simpl in Hl.
  - injection Hl as ->. rewrite decide_False by done. by rewrite decide_True.
  - destruct (Hbefore 0%nat r0) as [Hne0 Hout0]; [lia|done|].
    rewrite decide_False by done. rewrite decide_False by done.
    apply (IH rs i); try done; try lia.
    intros j r' Hj Hr'. apply (Hbefore (S j)); [lia|done].
Qed.

Section Invariants.

Variable B : Z.
Hypothesis B_pos : 0 < B.
Hypothesis B_fits : B * 8 < 2 ^ 64.

Lemma class_size_pos c : 0 < class_size B c.
Proof. destruct c as [|[|[|c]]]; simpl; lia. Qed.

Lemma class_sizes_lookup c bs :
  class_sizes B !! c = Some bs → bs = class_size B c ∧ (c < BLOCK_SIZE_COUNT)%nat.
Proof.
  unfold BLOCK_SIZE_COUNT.
  destruct c as [|[|[|[|c]]]]; simpl; intros [= <-]; split; (done || lia).
Qed.

Lemma class_sizes_lookup_lt c :
  (c < BLOCK_SIZE_COUNT)%nat → class_sizes B !! c = Some (class_size B c).
Proof.
  unfold BLOCK_SIZE_COUNT. destruct c as [|[|[|[|c]]]]; simpl; (done || lia).
Qed.

Lemma region_wrap st r :
  region_ok B st r → wrap64 (r_start r + r_size r) = r_start r + r_size r.
Proof. intros (? & ? & ? & _). apply wrap64_small. lia. Qed.

Lemma installed_lt st i r :
  Inv B st → installed st i r → (i < Z.to_nat (g_max_regions st))%nat.
Proof. intros HI [Hi _]. pose proof (inv_num _ _ HI). lia. Qed.

(** The scan finds exactly the installed region that holds the address. *)
Lemma GetRegion_scan_spec st addr r :
  Inv B st →
  GetRegion_scan (Z.to_nat (g_max_regions st)) (g_regions st) addr = Some r
  ↔ ∃ i, installed st i r ∧ in_region r addr.
Proof.
  intros HI. split.
  - intros (i & Hi & Hl & Hne & Hin)%GetRegion_scan_Some.
    assert (Hinst : installed st i r).
    { split; [|done].
      destruct (decide (Z.of_nat i < g_region_num st)) as [|Hge]; [done|].
      exfalso. apply Hne. eapply inv_unused; [done..|lia]. }
    exists i. split; [done|].
    rewrite (region_wrap st) in Hin by by eapply inv_regions.
    done.
  - intros (i & Hinst & Hin).
    pose proof (inv_regions _ _ HI _ _ Hinst) as Hok.
    eapply GetRegion_scan_first.
    + apply Hinst.
    + by eapply installed_lt.
    + destruct Hok as (? & _). lia.
    + by rewrite (region_wrap st).
    + intros j r' Hj Hr'.
      assert (Hinst' : installed st j r').
      { split; [|done]. destruct Hinst. lia. }
      pose proof (inv_regions _ _ HI _ _ Hinst') as Hok'.
      split; [destruct Hok' as (? & _); lia|].
      rewrite (region_wrap st) by done.
      pose proof (inv_disjoint _ _ HI i j r r' Hinst Hinst') as Hd.
      unfold footprint_disjoint, in_region in *.
      destruct Hok as (_ & ? & _), Hok' as (_ & ? & _). lia.
Qed.

Lemma GetRegion_scan_None st addr :
  Inv B st →
  GetRegion_scan (Z.to_nat (g_max_regions st)) (g_regions st) addr = None
  ↔ ∀ i r, installed st i r → ¬ in_region r addr.
Proof.
  intros HI. split.
  - intros Hnone i r Hinst Hin.
    assert (Hs : GetRegion_scan (Z.to_nat (g_max_regions st)) (g_regions st) addr
                 = Some r).
    { apply GetRegion_scan_spec; eauto. }
    congruence.
  - intros Hno.
    destruct (GetRegion_scan _ _ addr) as [r|] eqn:Hs; [|done].
    apply GetRegion_scan_spec in Hs as (i & Hinst & Hin); [|done].
    by destruct (Hno i r).
Qed.

(** An address lies in at most one installed region. *)
Lemma installed_unique st addr i j r r' :
  Inv B st → installed st i r → installed st j r' →
  in_region r addr → in_region r' addr → i = j ∧ r = r'.
Proof.
  intros HI Hi Hj Hin Hin'.
  destruct (decide (i = j)) as [->|Hne].
  - split; [done|]. destruct Hi as [_ Hi], Hj as [_ Hj]. congruence.
  - exfalso. pose proof (inv_disjoint _ _ HI i j r r' Hi Hj Hne) as Hd.
    unfold footprint_disjoint, in_region in *. lia.
Qed.

(** *** States that differ in errno or in the object pool *)

Lemma Inv_set_errno e st : Inv B st → Inv B (set_errno e st).
Proof. intros [? ? ? ? ? ? ? ? ? ?]. by split. Qed.

Lemma Inv_set_node_pool p st : Inv B st → Inv B (set_node_pool p st).
Proof. intros [? ? ? ? ? ? ? ? ? ?]. by split. Qed.

Lemma buckets_wrap st : Inv B st → wrap64 (g_buckets st) = g_buckets st.
Proof.
  intros HI. apply wrap64_small.
  pose proof (inv_buckets _ _ HI). pose proof (inv_flags _ _ HI) as Hf.
  unfold flags_ok in Hf. lia.
Qed.

Lemma increase_fits st :
  Inv B st → g_cb st ≠ None →
  64 ≤ FLAGS_rdma_memory_pool_increase_size_mb (flags st) ∧
  FLAGS_rdma_memory_pool_increase_size_mb (flags st) * BYTES_IN_MB
    * g_buckets st < 2 ^ 64.
Proof.
  intros HI Hcb. destruct (inv_cb _ _ HI Hcb) as [_ Hinc].
  pose proof (inv_buckets _ _ HI). pose proof (inv_flags _ _ HI) as Hf.
  unfold flags_ok, BYTES_IN_MB in *. split; [done|]. nia.
Qed.

Lemma Inv_frame st e p :
  Inv B st →
  Inv B (mkState (flags st) (g_buckets st) (g_max_regions st) (g_regions st)
           (g_region_num st) (g_cb st) (g_block_size st) (g_info st) e
           (heap st) p).
Proof. intros [? ? ? ? ? ? ? ? ? ?]. by split. Qed.

(** *** Installed regions stay installed *)

Lemma idle_node_ok_mono st st' c b n :
  g_buckets st' = g_buckets st →
  (∀ i r, installed st i r → installed st' i r) →
  idle_node_ok B st c b n → idle_node_ok B st' c b n.
Proof.
  intros HK Hmono (i & r & Hinst & Hrest).
  exists i, r. unfold bucket_of in *. rewrite HK. split; [by apply Hmono|done].
Qed.

Lemma ready_node_ok_mono st st' c n :
  g_buckets st' = g_buckets st →
  (∀ i r, installed st i r → installed st' i r) →
  ready_node_ok st c n → ready_node_ok st' c n.
Proof.
  intros HK Hmono (i & r & j & Hinst & Hrest).
  exists i, r, j. rewrite HK. split; [by apply Hmono|done].
Qed.

Lemma region_ok_mono st st' r :
  g_buckets st' = g_buckets st →
  (∀ x, x ∈ heap st → x ∈ heap st') →
  region_ok B st r → region_ok B st' r.
Proof.
  intros HK Hheap (? & ? & ? & ? & ? & ? & ? & ?).
  unfold region_ok. rewrite HK. repeat split; try done. by apply Hheap.
Qed.

(** The extents of a fresh region are computed without wrap-around. *)
Lemma extent_start_exact base size K j :
  0 < base → 0 ≤ size → base + size < 2 ^ 64 → 0 < K → 0 ≤ j < K →
  wrap64 (base + wrap64 (j * (size / K))) = base + j * (size / K).
Proof.
  intros Hb Hs Hfit HK Hj.
  assert (0 ≤ size / K) by (apply Z.div_pos; lia).
  assert (K * (size / K) ≤ size) by (apply Z.mul_div_le; lia).
  assert (0 ≤ j * (size / K) ≤ size) by nia.
  rewrite (wrap64_small (j * _)) by lia.
  apply wrap64_small. lia.
Qed.

Lemma ExtendBlockPool_Inv st m c mem p st' :
  Inv B st → is_Some (g_info st) → (c < BLOCK_SIZE_COUNT)%nat →
  mem_contract st mem →
  0 ≤ m → m * BYTES_IN_MB * g_buckets st < 2 ^ 64 →
  ExtendBlockPool st m c mem = Some (p, st') →
  Inv B st'.
Proof.
  intros HI [gi Hgi] Hc Hmem Hm Hfit. unfold ExtendBlockPool.
  case_decide; [intros [= <- <-]; by apply Inv_set_errno|].
  case_decide as Hnum; [intros [= <- <-]; by apply Inv_set_errno|].
  pose proof (inv_info _ _ HI) as Hinfo. rewrite Hgi in Hinfo.
  destruct Hinfo as (Hcb & Hbs & Hil & Hrow & Hrl & Hidle & Hready).
  rewrite Hbs, (class_sizes_lookup_lt c) by done. simpl.
  rewrite (buckets_wrap st) by done.
  pose proof (class_size_pos c) as Hcs.
  pose proof (inv_buckets _ _ HI) as HK.
  rewrite decide_False by lia.
  assert (Hraw : 0 ≤ m * BYTES_IN_MB < 2 ^ 64) by (unfold BYTES_IN_MB in *; nia).
  pose proof (regular_size_eq m (class_size B c) (g_buckets st) Hraw) as Hsz.
  pose proof (regular_size_le m (class_size B c) (g_buckets st) Hraw) as Hle.
  set (size := regular_size m (class_size B c) (g_buckets st)) in *.
  destruct (mem size) as [base|] eqn:Hbase;
    [|intros [= <- <-]; by apply Inv_set_errno].
  destruct (g_cb st) as [cb|] eqn:Hcbe; simpl; [|done].
  rewrite (decide_True (P := base = base)) by done.
  case_decide as Hid; [intros [= <- <-]; exact (Inv_frame st _ _ HI)|].
  destruct (acquire_nodes _ _ _) as [[|] pool];
    [|intros [= <- <-]; exact (Inv_frame st _ _ HI)].
  rewrite Hgi. simpl.
  destruct (ready_list gi !! c) as [ready|] eqn:Hrd; simpl; [|done].
  case_decide as Hrange; [|done].
  intros [= <- <-].
  destruct (Hmem _ _ Hbase) as (Hbpos & Hbfit & Hfresh).
  specialize (Hsz ltac:(lia) ltac:(lia)). specialize (Hle ltac:(lia) ltac:(lia)).
  pose proof (inv_num _ _ HI) as Hn. pose proof (inv_len _ _ HI) as Hlen.
  set (region := mkRegion base size c (cb base size)).
  match goal with |- Inv B ?s => set (st' := s) end.
  assert (Hmono : ∀ i r, installed st i r → installed st' i r).
  { intros i r [Hi Hl]. split; simpl; [lia|].
    rewrite list_lookup_insert_ne by lia. done. }
  assert (Hinv : ∀ i r, installed st' i r →
            installed st i r ∨ (i = Z.to_nat (g_region_num st) ∧ r = region)).
  { intros i r [Hi Hl]. simpl in Hi, Hl.
    destruct (decide (i = Z.to_nat (g_region_num st))) as [->|Hne].
    - right. split; [done|].
      rewrite list_lookup_insert_eq in Hl by (unfold MAX_REGIONS in *; lia).
      congruence.
    - left. rewrite list_lookup_insert_ne in Hl by done. split; [lia|done]. }
  assert (Hrok : region_ok B st' region).
  { unfold region_ok; simpl. repeat split; try done; try lia.
    - exists (m * BYTES_IN_MB / (class_size B c * g_buckets st)).
      split; [apply Z.div_pos; lia|done].
    - nia.
    - apply elem_of_cons. by left. }
  assert (Hold : ∀ i r, installed st i r → region_ok B st' r).
  { intros i r Hinst. eapply region_ok_mono; [| |by eapply inv_regions].
    - done.
    - intros x Hx. simpl. apply elem_of_cons. by right. }
  split; simpl.
  - done.
  - apply (inv_flags _ _ HI).
  - apply (inv_max _ _ HI).
  - lia.
  - by rewrite length_insert.
  - apply (inv_cb _ _ HI).
  - unfold info_ok; simpl. repeat split.
    + by rewrite Hcbe.
    + done.
    + done.
    + done.
    + by rewrite length_insert.
    + intros c' b row l n Hr Hl Hin.
      eapply idle_node_ok_mono; [| |by eapply Hidle]; done.
    + intros c' l n Hl Hin.
      destruct (decide (c' = c)) as [->|Hne].
      * rewrite list_lookup_insert_eq in Hl by (apply lookup_lt_is_Some; eauto).
        injection Hl as <-.
        apply elem_of_push_extents in Hin as [Hin | (j & Hj & ->)].
        -- eapply ready_node_ok_mono; [| |by eapply Hready]; done.
        -- exists (Z.to_nat (g_region_num st)), region, j. simpl.
           split; [|repeat split; try done; try lia].
           ++ split; simpl; [lia|].
              apply list_lookup_insert_eq. unfold MAX_REGIONS in *. lia.
           ++ apply extent_start_exact; lia.
      * rewrite list_lookup_insert_ne in Hl by done.
        eapply ready_node_ok_mono; [| |by eapply Hready]; done.
  - intros i r Hl Hi.
    rewrite list_lookup_insert_ne in Hl by lia.
    eapply (inv_unused _ _ HI); [done|lia].
  - intros i r [Hinst | [-> ->]]%Hinv; [by eapply Hold|done].
  - intros i j r r' [Hi | [-> ->]]%Hinv [Hj | [-> ->]]%Hinv Hne.
    + by eapply (inv_disjoint _ _ HI).
    + destruct (inv_regions _ _ HI _ _ Hi) as (_ & _ & _ & _ & _ & _ & _ & Hh).
      specialize (Hfresh _ _ Hh). unfold footprint_disjoint in *. simpl. lia.
    + destruct (inv_regions _ _ HI _ _ Hj) as (_ & _ & _ & _ & _ & _ & _ & Hh).
      specialize (Hfresh _ _ Hh). unfold footprint_disjoint in *. simpl. lia.
    + done.
Qed.

(** *** Buckets *)

Lemma region_size_extent st r :
  Inv B st → region_ok B st r →
  r_size r = r_size r / g_buckets st * g_buckets st.
Proof.
  intros HI (_ & _ & _ & _ & _ & (pb & Hpb & Hsz) & _).
  pose proof (inv_buckets _ _ HI). rewrite Hsz at 2.
  rewrite Z.div_mul by lia. done.
Qed.

Lemma extent_multiple st r :
  Inv B st → region_ok B st r →
  ∃ k, 0 ≤ k ∧ r_size r / g_buckets st = k * class_size B (r_block_type r).
Proof.
  intros HI (_ & _ & _ & _ & _ & (pb & Hpb & Hsz) & _).
  pose proof (inv_buckets _ _ HI). exists pb. split; [done|].
  rewrite Hsz. rewrite Z.div_mul by lia. done.
Qed.

(** The bucket the code computes is the bucket of the specification. *)
Lemma bucket_index_exact st r addr :
  Inv B st → region_ok B st r → in_region r addr →
  bucket_index (wrap64 (g_buckets st)) r addr = bucket_of st r addr ∧
  0 ≤ bucket_of st r addr < g_buckets st.
Proof.
  intros HI Hok Hin. pose proof (inv_buckets _ _ HI) as HK.
  rewrite (buckets_wrap st) by done.
  destruct Hok as (? & ? & ? & _ & _ & _ & Hfit & _).
  unfold bucket_index, bucket_of, in_region in *.
  rewrite (wrap64_small (addr - _)) by lia.
  rewrite wrap64_small by nia.
  split; [done|]. split.
  - apply Z.div_pos; nia.
  - apply Z.div_lt_upper_bound; nia.
Qed.

Lemma bucket_in_extent st r addr b :
  Inv B st → region_ok B st r →
  r_start r + b * (r_size r / g_buckets st) ≤ addr
    < r_start r + (b + 1) * (r_size r / g_buckets st) →
  bucket_of st r addr = b.
Proof.
  intros HI Hok Hin. pose proof (inv_buckets _ _ HI) as HK.
  pose proof (region_size_extent st r HI Hok) as HE.
  destruct Hok as (? & ? & ? & _).
  unfold bucket_of. set (E := r_size r / g_buckets st) in *.
  assert (0 ≤ E) by (apply Z.div_pos; lia).
  symmetry. apply (Z.div_unique_pos _ _ _ ((addr - r_start r) * g_buckets st - b * r_size r)); nia.
Qed.

Lemma GetRegion_fst st buf r :
  (GetRegion st buf).1 = Some r →
  buf ≠ 0 ∧
  GetRegion_scan (Z.to_nat (g_max_regions st)) (g_regions st) buf = Some r.
Proof. unfold GetRegion, NULL. case_decide; simpl; [done|]. by split. Qed.

(** A ready node that the walk locates goes to the bucket of its extent. *)
Lemma ready_node_located st c n r :
  Inv B st → ready_node_ok st c n →
  GetRegion_scan (Z.to_nat (g_max_regions st)) (g_regions st) (n_start n)
    = Some r →
  let index := bucket_index (wrap64 (g_buckets st)) r (n_start n) in
  0 ≤ index < g_buckets st ∧ idle_node_ok B st c (Z.to_nat index) n.
Proof.
  intros HI (i & r0 & j & Hinst & Hc & Hj & Hstart & Hlen) Hscan index.
  apply GetRegion_scan_spec in Hscan as (i' & Hinst' & Hin'); [|done..].
  pose proof (inv_regions _ _ HI _ _ Hinst) as Hok.
  pose proof (inv_regions _ _ HI _ _ Hinst') as Hok'.
  pose proof (inv_buckets _ _ HI) as HK.
  pose proof (region_size_extent st r0 HI Hok) as HE.
  destruct (extent_multiple st r0 HI Hok) as (k & Hk & HEk).
  pose proof (class_size_pos (r_block_type r0)) as Hcs.
  set (E := r_size r0 / g_buckets st) in *.
  assert (HE0 : 0 ≤ E) by nia.
  destruct (decide (E = 0)) as [HEz|HEnz].
  { exfalso.
    assert (i ≠ i').
    { intros ->. destruct Hinst as [_ H1], Hinst' as [_ H2].
      assert (r0 = r) as -> by congruence.
      unfold in_region in Hin'. lia. }
    pose proof (inv_disjoint _ _ HI i i' r0 r Hinst Hinst' ltac:(done)) as Hd.
    unfold footprint_disjoint, in_region in *. lia. }
  assert (Hin0 : in_region r0 (n_start n)).
  { unfold in_region. nia. }
  destruct (installed_unique st (n_start n) i i' r0 r HI Hinst Hinst' Hin0 Hin')
    as [-> ->].
  destruct (bucket_index_exact st r (n_start n) HI Hok Hin0) as [Hbi Hrange].
  assert (Hb : bucket_of st r (n_start n) = j).
  { apply bucket_in_extent; [done..|]. fold E. nia. }
  subst index. rewrite Hbi, Hb. split; [done|].
  exists i', r. rewrite Z2Nat.id by lia.
  do 4 (split; [done|]). split.
  - exists k. subst c. split; [nia|lia].
  - intros _. fold E. lia.
Qed.

(** *** The walk over a ready list *)

Lemma pick_scan_found st index ready node rest :
  pick_scan st index ready = Some (Some (node, rest)) →
  ∃ pre post r,
    ready = pre ++ node :: post ∧ rest = pre ++ post ∧
    none_matches st index pre ∧
    (GetRegion st (n_start node)).1 = Some r ∧ r_size r ≠ 0 ∧
    bucket_index (wrap64 (g_buckets st)) r (n_start node) = index.
Proof.
  revert rest. induction ready as [|n0 ready IH]; intros rest; simpl; [done|].
  destruct (GetRegion st (n_start n0)).1 as [r0|] eqn:Hr0; [|done].
  case_decide as Hz; [done|]. case_decide as Hb.
  - intros [= -> <-]. exists [], ready, r0. simpl.
    split_and!; try done. intros n Hn. by apply elem_of_nil in Hn.
  - destruct (pick_scan st index ready) as [[[n1 rest1]|]|]; simpl; try done.
    intros [= -> <-].
    destruct (IH rest1 eq_refl) as (pre & post & r & -> & -> & Hpre & Hrest).
    exists (n0 :: pre), post, r. split_and!; try done.
    + intros n [->|Hn]%elem_of_cons; [eauto|by apply Hpre].
    + apply Hrest.
    + apply Hrest.
    + apply Hrest.
Qed.

Lemma pick_scan_none st index ready :
  pick_scan st index ready = Some None → none_matches st index ready.
Proof.
  induction ready as [|n0 ready IH]; simpl.
  - intros _ n Hn. by apply elem_of_nil in Hn.
  - destruct (GetRegion st (n_start n0)).1 as [r0|] eqn:Hr0; [|done].
    case_decide as Hz; [done|]. case_decide as Hb; [done|].
    destruct (pick_scan st index ready) as [[[n1 rest1]|]|]; simpl; try done.
    intros _ n [->|Hn]%elem_of_cons; [eauto|by apply IH].
Qed.

Lemma pick_scan_total st index ready :
  (∀ n, n ∈ ready →
     ∃ r, (GetRegion st (n_start n)).1 = Some r ∧ r_size r ≠ 0) →
  is_Some (pick_scan st index ready).
Proof.
  induction ready as [|n0 ready IH]; simpl; intros Hloc; [by eexists|].
  destruct (Hloc n0) as (r0 & -> & Hz); [by left|].
  rewrite decide_False by done.
  case_decide; [by eexists|].
  destruct IH as [res ->]; [|by eexists].
  intros n Hn. apply Hloc. by right.
Qed.

Lemma PickReadyBlocks_Inv st c index st' :
  Inv B st → PickReadyBlocks st c index = Some st' → Inv B st'.
Proof.
  intros HI. unfold PickReadyBlocks.
  destruct (g_info st) as [gi|] eqn:Hgi; simpl; [|done].
  destruct (ready_list gi !! c) as [ready|] eqn:Hrd; simpl; [|done].
  destruct (pick_scan st index ready) as [[[node rest]|]|] eqn:Hpick;
    simpl; [|by intros [= <-]|done].
  destruct (idle_list gi !! c) as [row|] eqn:Hrowc; simpl; [|done].
  case_decide as Hrange; [|done]. intros [= <-].
  pose proof (inv_info _ _ HI) as Hinfo. rewrite Hgi in Hinfo.
  destruct Hinfo as (Hcb & Hbs & Hil & Hrow & Hrl & Hidle & Hready).
  apply pick_scan_found in Hpick
    as (pre & post & r & -> & -> & _ & Hr & _ & Hb).
  apply GetRegion_fst in Hr as [_ Hscan].
  assert (Hnode : ready_node_ok st c node).
  { eapply Hready; [done|]. apply elem_of_app. right. by left. }
  destruct (ready_node_located st c node r HI Hnode Hscan) as [_ Hok].
  rewrite Hb in Hok.
  destruct HI as [? ? ? ? ? ? _ ? ? ?]. split; try done. simpl.
  unfold info_ok; simpl. split_and!; try done.
  - by rewrite length_insert.
  - intros c' row' Hl.
    destruct (decide (c' = c)) as [->|Hne].
    + rewrite list_lookup_insert_eq in Hl by (by eapply lookup_lt_Some).
      injection Hl as <-. rewrite length_insert. eauto.
    + rewrite list_lookup_insert_ne in Hl by done. eauto.
  - by rewrite length_insert.
  - intros c' b row' l n Hl Hlb Hin.
    destruct (decide (c' = c)) as [->|Hne].
    + rewrite list_lookup_insert_eq in Hl by (by eapply lookup_lt_Some).
      injection Hl as <-.
      destruct (decide (b = Z.to_nat index)) as [->|Hnb].
      * rewrite list_lookup_insert_eq in Hlb by lia.
        injection Hlb as <-. apply list_elem_of_singleton in Hin as ->.
        exact Hok.
      * rewrite list_lookup_insert_ne in Hlb by done.
        exact (Hidle c b row l n Hrowc Hlb Hin).
    + rewrite list_lookup_insert_ne in Hl by done.
      exact (Hidle c' b row' l n Hl Hlb Hin).
  - intros c' l n Hl Hin.
    destruct (decide (c' = c)) as [->|Hne].
    + rewrite list_lookup_insert_eq in Hl by (by eapply lookup_lt_Some).
      injection Hl as <-. eapply Hready; [done|].
      apply elem_of_app in Hin as [Hin|Hin]; apply elem_of_app;
        [by left|right; by right].
    + rewrite list_lookup_insert_ne in Hl by done. eauto.
Qed.

(** *** Reading and writing one idle list *)

Lemma idle_at_ok st c index l :
  Inv B st → idle_at st c index = Some l →
  (c < BLOCK_SIZE_COUNT)%nat ∧ 0 ≤ index < g_buckets st ∧ is_Some (g_info st) ∧
  ∀ n, n ∈ l → idle_node_ok B st c (Z.to_nat index) n.
Proof.
  intros HI. unfold idle_at.
  destruct (g_info st) as [gi|] eqn:Hgi; simpl; [|done].
  destruct (idle_list gi !! c) as [row|] eqn:Hrowc; simpl; [|done].
  case_decide as Hidx; [|done]. intros Hl.
  pose proof (inv_info _ _ HI) as Hinfo. rewrite Hgi in Hinfo.
  destruct Hinfo as (Hcb & Hbs & Hil & Hrow & Hrl & Hidle & Hready).
  split_and!.
  - rewrite <- Hil. by eapply lookup_lt_Some.
  - done.
  - apply lookup_lt_Some in Hl. rewrite (Hrow _ _ Hrowc) in Hl. lia.
  - by eexists.
  - intros n Hn. by eapply Hidle.
Qed.

Lemma set_idle_Inv st c index l0 l st' :
  Inv B st → idle_at st c index = Some l0 →
  (∀ n, n ∈ l → idle_node_ok B st c (Z.to_nat index) n) →
  set_idle st c index l = Some st' →
  Inv B st' ∧ idle_at st' c index = Some l ∧
  ∃ gi, st' = set_info gi st.
Proof.
  intros HI Hat Hl. unfold set_idle, idle_at in *.
  destruct (g_info st) as [gi|] eqn:Hgi; simpl in *; [|done].
  destruct (idle_list gi !! c) as [row|] eqn:Hrowc; simpl in *; [|done].
  case_decide as Hidx; [|done]. intros [= <-].
  pose proof (inv_info _ _ HI) as Hinfo. rewrite Hgi in Hinfo.
  destruct Hinfo as (Hcb & Hbs & Hil & Hrow & Hrl & Hidle & Hready).
  pose proof (lookup_lt_Some _ _ _ Hat) as Hlt.
  pose proof (lookup_lt_Some _ _ _ Hrowc) as Hltc.
  split_and!.
  - destruct HI as [? ? ? ? ? ? _ ? ? ?]. split; try done. simpl.
    unfold info_ok; simpl. split_and!; try done.
    + by rewrite length_insert.
    + intros c' row' Hl'.
      destruct (decide (c' = c)) as [->|Hne].
      * rewrite list_lookup_insert_eq in Hl' by done.
        injection Hl' as <-. rewrite length_insert. eauto.
      * rewrite list_lookup_insert_ne in Hl' by done. eauto.
    + intros c' b row' l' n Hl' Hlb Hin.
      destruct (decide (c' = c)) as [->|Hne].
      * rewrite list_lookup_insert_eq in Hl' by done.
        injection Hl' as <-.
        destruct (decide (b = Z.to_nat index)) as [->|Hnb].
        -- rewrite list_lookup_insert_eq in Hlb by done.
           injection Hlb as <-. by apply Hl.
        -- rewrite list_lookup_insert_ne in Hlb by done.
           exact (Hidle c b row l' n Hrowc Hlb Hin).
      * rewrite list_lookup_insert_ne in Hl' by done.
        exact (Hidle c' b row' l' n Hl' Hlb Hin).
  - simpl. rewrite list_lookup_insert_eq by done. simpl.
    by rewrite list_lookup_insert_eq.
  - by eexists.
Qed.

(** *** Taking a block *)

Lemma take_block_spec st c index p st' :
  Inv B st → take_block st c index = Some (p, st') →
  Inv B st' ∧
  (st' = st ∨ ∃ gi pool, st' = set_node_pool pool (set_info gi st)) ∧
  (p ≠ NULL → ∃ i r, installed st i r ∧ r_block_type r = c ∧ in_region r p).
Proof.
  intros HI. unfold take_block.
  destruct (idle_at st c index) as [[|n next]|] eqn:Hat; simpl; [| |done].
  { intros [= <- <-]. split_and!; [done|by left|done]. }
  destruct (idle_at_ok st c index _ HI Hat) as (Hc & Hidx & [gi Hgi] & Hnodes).
  pose proof (inv_info _ _ HI) as Hinfo. rewrite Hgi in Hinfo.
  destruct Hinfo as (_ & Hbs & _).
  rewrite Hbs, (class_sizes_lookup_lt c) by done. simpl.
  destruct (Hnodes n ltac:(by left))
    as (i & r & Hinst & Hrc & Hin & Hb & (k & Hk & Hlen) & Hext).
  pose proof (inv_regions _ _ HI _ _ Hinst) as Hok.
  pose proof (class_size_pos c) as Hcs.
  assert (Hp : ∃ i r, installed st i r ∧ r_block_type r = c ∧ in_region r (n_start n))
    by eauto.
  case_decide as Hgt.
  - destruct (set_idle st c index _) as [st1|] eqn:Hset; simpl; [|done].
    intros [= <- <-].
    eapply set_idle_Inv in Hset as (HI' & _ & gi' & ->); [| done | done |].
    + split_and!; [done| |done].
      right. exists gi', (node_pool st). done.
    + destruct (Hext ltac:(lia)) as [Hlo Hhi].
      pose proof (inv_buckets _ _ HI) as HK.
      pose proof (region_size_extent st r HI Hok) as HE.
      pose proof Hok as (? & ? & ? & _).
      set (E := r_size r / g_buckets st) in *.
      assert (Hend : r_start r + (Z.of_nat (Z.to_nat index) + 1) * E
                     ≤ r_start r + r_size r).
      { rewrite Z2Nat.id by lia. nia. }
      assert (Hw : wrap64 (n_start n + class_size B c)
                   = n_start n + class_size B c).
      { apply wrap64_small. unfold in_region in Hin. lia. }
      intros n' [->|Hn']%elem_of_cons; [|apply Hnodes; by right].
      exists i, r. simpl. rewrite Hw.
      split_and!; try done.
      * unfold in_region in *. lia.
      * apply bucket_in_extent; [done..|]. fold E. lia.
      * exists (k - 1). split; [nia|lia].
      * intros _. fold E. lia.
  - case_decide as Heq; [|done].
    destruct (set_idle st c index _) as [st1|] eqn:Hset; simpl; [|done].
    intros [= <- <-].
    eapply set_idle_Inv in Hset as (HI' & _ & gi' & ->); [| done | done |].
    + split_and!; [by apply Inv_set_node_pool| |done].
      right. by do 2 eexists.
    + intros n' Hn'. apply Hnodes. by right.
Qed.

(** *** Deallocation *)

Lemma installed_info st i r :
  Inv B st → installed st i r →
  ∃ gi, g_info st = Some gi ∧ info_ok B st gi.
Proof.
  intros HI [Hi _]. pose proof (inv_info _ _ HI) as Hinfo.
  destruct (g_info st) as [gi|]; [by eexists|].
  destruct Hinfo as [_ Hz]. lia.
Qed.

Lemma GetRegion_in_region st buf i r :
  Inv B st → installed st i r → in_region r buf →
  GetRegion st buf = (Some r, st).
Proof.
  intros HI Hinst Hin. unfold GetRegion, NULL.
  destruct (inv_regions _ _ HI _ _ Hinst) as (? & _).
  rewrite decide_False by (unfold in_region in Hin; lia).
  f_equal. apply GetRegion_scan_spec; eauto.
Qed.

Lemma GetRegion_outside st buf :
  Inv B st → buf ≠ NULL → (∀ i r, installed st i r → ¬ in_region r buf) →
  GetRegion st buf = (None, st).
Proof.
  intros HI Hnz Hout. unfold GetRegion. rewrite decide_False by done.
  f_equal. by apply GetRegion_scan_None.
Qed.

(** What DeallocBlock does with an address of an installed region. *)
Lemma DeallocBlock_in_region st buf i r :
  Inv B st → installed st i r → in_region r buf →
  match get_object (node_pool st) with
  | None => DeallocBlock st buf = Some (0, st)
  | Some pool =>
      ∃ gi row next,
        g_info st = Some gi ∧
        idle_list gi !! r_block_type r = Some row ∧
        0 ≤ bucket_of st r buf < g_buckets st ∧
        row !! Z.to_nat (bucket_of st r buf) = Some next ∧
        let node := mkIdleNode buf (class_size B (r_block_type r)) in
        let st' :=
          set_info
            (mkGlobalInfo
               (<[r_block_type r :=
                    <[Z.to_nat (bucket_of st r buf) := node :: next]> row]>
                  (idle_list gi))
               (ready_list gi))
            (set_node_pool pool st) in
        DeallocBlock st buf = Some (0, st') ∧ Inv B st'
  end.
Proof.
  intros HI Hinst Hin.
  pose proof (inv_regions _ _ HI _ _ Hinst) as Hok.
  destruct (installed_info st i r HI Hinst) as (gi & Hgi & Hinfo).
  destruct Hinfo as (Hcb & Hbs & Hil & Hrow & Hrl & Hidle & Hready).
  pose proof Hok as (Hs & Hsz & _ & Hbt & _).
  unfold DeallocBlock, NULL.
  rewrite decide_False by (unfold in_region in Hin; lia).
  rewrite (GetRegion_in_region st buf i r) by done.
  rewrite Hbs, (class_sizes_lookup_lt (r_block_type r)) by done. simpl.
  destruct (get_object (node_pool st)) as [pool|] eqn:Hpool; [|done].
  rewrite decide_False by (unfold in_region in Hin; lia).
  destruct (bucket_index_exact st r buf HI Hok Hin) as [Hbi Hrange].
  change (g_buckets (set_node_pool pool st)) with (g_buckets st).
  rewrite Hbi.
  destruct (lookup_lt_is_Some_2 (idle_list gi) (r_block_type r)) as [row Hrowc];
    [by rewrite Hil|].
  destruct (lookup_lt_is_Some_2 row (Z.to_nat (bucket_of st r buf)))
    as [next Hnext]; [rewrite (Hrow _ _ Hrowc); lia|].
  exists gi, row, next. do 4 (split; [done|]). cbv zeta.
  assert (Hat : idle_at (set_node_pool pool st) (r_block_type r)
                  (bucket_of st r buf) = Some next).
  { unfold idle_at. simpl. rewrite Hgi. simpl. rewrite Hrowc. simpl.
    by rewrite decide_True by lia. }
  rewrite Hat. simpl.
  destruct (set_idle (set_node_pool pool st) (r_block_type r)
              (bucket_of st r buf)
              (mkIdleNode buf (class_size B (r_block_type r)) :: next))
    as [st3|] eqn:Hset.
  2:{ unfold set_idle in Hset. simpl in Hset. rewrite Hgi in Hset.
      simpl in Hset. by rewrite Hrowc in Hset. }
  pose proof Hset as Hset'.
  eapply set_idle_Inv in Hset' as (HI' & _ & _);
    [|by apply Inv_set_node_pool|done|].
  - unfold set_idle in Hset. simpl in Hset. rewrite Hgi in Hset.
    simpl in Hset. rewrite Hrowc in Hset. simpl in Hset.
    injection Hset as <-. done.
  - intros n [->|Hn]%elem_of_cons.
    + exists i, r. simpl. rewrite Z2Nat.id by lia.
      split_and!; try done.
      * exists 1. lia.
      * lia.
    + destruct (idle_at_ok _ _ _ _ (Inv_set_node_pool pool st HI) Hat)
        as (_ & _ & _ & Hnodes).
      by apply Hnodes.
Qed.

Lemma DeallocBlock_Inv st buf res st' :
  Inv B st → DeallocBlock st buf = Some (res, st') → Inv B st'.
Proof.
  intros HI Hd.
  destruct (decide (buf = NULL)) as [Hz|Hnz].
  { unfold DeallocBlock in Hd. rewrite decide_True in Hd by done.
    injection Hd as <- <-. by apply Inv_set_errno. }
  destruct (GetRegion_scan (Z.to_nat (g_max_regions st)) (g_regions st) buf)
    as [r|] eqn:Hscan.
  - apply GetRegion_scan_spec in Hscan as (i & Hinst & Hin); [|done..].
    pose proof (DeallocBlock_in_region st buf i r HI Hinst Hin) as Hspec.
    destruct (get_object (node_pool st)).
    + destruct Hspec as (gi & row & next & _ & _ & _ & _ & Heq & HI').
      rewrite Heq in Hd. by injection Hd as <- <-.
    + rewrite Hspec in Hd. by injection Hd as <- <-.
  - unfold DeallocBlock, GetRegion in Hd.
    rewrite !decide_False in Hd by done. rewrite Hscan in Hd.
    injection Hd as <- <-. by apply Inv_set_errno.
Qed.

(** *** Allocation *)

Lemma PickReadyBlocks_frame st c index st' :
  PickReadyBlocks st c index = Some st' →
  st' = st ∨ ∃ gi, st' = set_info gi st.
Proof.
  unfold PickReadyBlocks.
  destruct (g_info st) as [gi|]; simpl; [|done].
  destruct (ready_list gi !! c) as [ready|]; simpl; [|done].
  destruct (pick_scan st index ready) as [[[node rest]|]|]; simpl;
    [|intros [= <-]; by left|done].
  destruct (idle_list gi !! c) as [row|]; simpl; [|done].
  case_decide; [|done]. intros [= <-]. right. by eexists.
Qed.

Lemma ExtendBlockPool_errno st m c mem p st' :
  64 ≤ m → ExtendBlockPool st m c mem = Some (p, st') →
  errno st' = errno st ∨ (p = NULL ∧ st' = set_errno ENOMEM st).
Proof.
  intros Hm. unfold ExtendBlockPool.
  rewrite decide_False by lia.
  case_decide; [intros [= <- <-]; by right|].
  destruct (g_block_size st !! c) as [bs|]; simpl; [|done].
  case_decide; [done|].
  destruct (mem _) as [base|]; [|intros [= <- <-]; by right].
  destruct (g_cb st) as [cb|]; simpl; [|done].
  case_decide; [intros [= <- <-]; by left|].
  destruct (acquire_nodes _ _ _) as [[|] pool]; [|intros [= <- <-]; by left].
  destruct (g_info st) as [gi|]; simpl; [|done].
  destruct (ready_list gi !! c) as [ready|]; simpl; [|done].
  case_decide; [|done]. intros [= <- <-]. by left.
Qed.

(** The region table only grows. *)

Lemma grows_refl st : grows st st.
Proof. by split. Qed.

Lemma grows_trans st1 st2 st3 : grows st1 st2 → grows st2 st3 → grows st1 st3.
Proof.
  intros [H1 H1'] [H2 H2']. split; [lia|].
  intros Hcb. destruct (H1' Hcb) as [Hm Hcb2].
  destruct (H2' Hcb2) as [Hm' Hcb3]. split; [congruence|done].
Qed.

Lemma ExtendBlockPool_grows st m c mem p st' :
  ExtendBlockPool st m c mem = Some (p, st') → grows st st'.
Proof.
  unfold ExtendBlockPool.
  case_decide; [intros [= <- <-]; by split|].
  case_decide; [intros [= <- <-]; by split|].
  destruct (g_block_size st !! c) as [bs|]; simpl; [|done].
  case_decide; [done|].
  destruct (mem _) as [base|]; [|intros [= <- <-]; by split].
  destruct (g_cb st) as [cb|] eqn:Hcb; simpl; [|done].
  case_decide; [intros [= <- <-]; split; simpl; [lia|by rewrite Hcb]|].
  destruct (acquire_nodes _ _ _) as [[|] pool];
    [|intros [= <- <-]; split; simpl; [lia|by rewrite Hcb]].
  destruct (g_info st) as [gi|]; simpl; [|done].
  destruct (ready_list gi !! c) as [ready|]; simpl; [|done].
  case_decide; [|done]. intros [= <- <-].
  split; simpl; [lia|by rewrite Hcb].
Qed.

Lemma PickReadyBlocks_grows st c index st' :
  PickReadyBlocks st c index = Some st' → grows st st'.
Proof.
  intros [->|[gi ->]]%PickReadyBlocks_frame; [apply grows_refl|].
  by split.
Qed.

Lemma take_block_grows st c index p st' :
  Inv B st → take_block st c index = Some (p, st') → grows st st'.
Proof.
  intros HI Ht.
  destruct (take_block_spec st c index p st' HI Ht)
    as (_ & [->|(gi & pool & ->)] & _); [apply grows_refl|by split].
Qed.

Lemma AllocBlockFrom_spec st c rnd mem p st' :
  Inv B st → mem_contract st mem →
  AllocBlockFrom st c rnd mem = Some (p, st') →
  Inv B st' ∧ grows st st' ∧
  (errno st' = errno st ∨ errno st' = ENOMEM) ∧
  (p ≠ NULL → ∃ i r, installed st' i r ∧ r_block_type r = c ∧ in_region r p).
Proof.
  intros HI Hmem. unfold AllocBlockFrom.
  rewrite (buckets_wrap st) by done.
  pose proof (inv_buckets _ _ HI) as HK.
  rewrite decide_False by lia.
  set (index := wrap64 rnd mod g_buckets st).
  assert (Htake : ∀ s, Inv B s → grows st s →
            errno s = errno st ∨ errno s = ENOMEM →
            take_block s c index = Some (p, st') →
            Inv B st' ∧ grows st st' ∧
            (errno st' = errno st ∨ errno st' = ENOMEM) ∧
            (p ≠ NULL →
             ∃ i r, installed st' i r ∧ r_block_type r = c ∧ in_region r p)).
  { intros s HIs Hg He Ht.
    pose proof (take_block_grows s c index p st' HIs Ht) as Hg'.
    destruct (take_block_spec s c index p st' HIs Ht)
      as (HI' & [->|(gi & pool & ->)] & Hp); split_and!; try done;
      by eapply grows_trans. }
  destruct (idle_at st c index) as [[|n next]|] eqn:Hat; simpl; [| |done].
  2:{ apply Htake; [done|apply grows_refl|by left]. }
  destruct (PickReadyBlocks st c index) as [st1|] eqn:Hpick; simpl; [|done].
  pose proof (PickReadyBlocks_Inv st c index st1 HI Hpick) as HI1.
  pose proof (PickReadyBlocks_grows _ _ _ _ Hpick) as Hg1.
  assert (Hfr1 : errno st1 = errno st ∧ heap st1 = heap st).
  { by destruct (PickReadyBlocks_frame _ _ _ _ Hpick) as [->|[gi ->]]. }
  destruct Hfr1 as [He1 Hh1].
  destruct (idle_at st1 c index) as [[|n next]|] eqn:Hat1; simpl; [| |done].
  2:{ apply Htake; [done|done|by left]. }
  destruct (idle_at_ok st1 c index _ HI1 Hat1) as (Hc & _ & [gi1 Hgi1] & _).
  pose proof (inv_info _ _ HI1) as Hinfo. rewrite Hgi1 in Hinfo.
  destruct Hinfo as (Hcb & _).
  destruct (increase_fits st1 HI1 Hcb) as [Hinc Hfits].
  pose proof (inv_flags _ _ HI1) as Hfl.
  rewrite (wrap64_small (FLAGS_rdma_memory_pool_increase_size_mb _))
    by (unfold flags_ok in Hfl; lia).
  destruct (ExtendBlockPool st1 _ c mem) as [[q st2]|] eqn:Hext; simpl; [|done].
  pose proof (ExtendBlockPool_grows _ _ _ _ _ _ Hext) as Hg2.
  assert (HI2 : Inv B st2).
  { refine (ExtendBlockPool_Inv st1 _ c mem q st2 HI1 _ Hc _ _ Hfits Hext);
      [by eexists| |lia].
    unfold mem_contract. rewrite Hh1. exact Hmem. }
  assert (He2 : errno st2 = errno st ∨ errno st2 = ENOMEM).
  { destruct (ExtendBlockPool_errno _ _ _ _ _ _ Hinc Hext) as [->|[_ ->]];
      [by left|by right]. }
  case_decide as Hq.
  { intros [= <- <-]. split_and!; try done. by eapply grows_trans. }
  destruct (PickReadyBlocks st2 c index) as [st3|] eqn:Hpick2; simpl; [|done].
  pose proof (PickReadyBlocks_Inv st2 c index st3 HI2 Hpick2) as HI3.
  pose proof (PickReadyBlocks_grows _ _ _ _ Hpick2) as Hg3.
  apply Htake; [done| |].
  - eapply grows_trans; [|done]. by eapply grows_trans.
  - by destruct (PickReadyBlocks_frame _ _ _ _ Hpick2) as [->|[gi ->]].
Qed.

Lemma AllocBlock_loop_Inv st size rnd mem i sizes p st' :
  Inv B st → mem_contract st mem →
  AllocBlock_loop st size rnd mem i sizes = Some (p, st') → Inv B st'.
Proof.
  intros HI Hmem. revert i. induction sizes as [|bs sizes IH]; intros i; simpl.
  - by intros [= <- <-].
  - case_decide; [|apply IH].
    intros Ha. by apply (AllocBlockFrom_spec st i rnd mem p st' HI Hmem Ha).
Qed.

Lemma AllocBlock_Inv st size rnd mem p st' :
  Inv B st → mem_contract st mem →
  AllocBlock st size rnd mem = Some (p, st') → Inv B st'.
Proof.
  intros HI Hmem. unfold AllocBlock.
  destruct (g_block_size st !! _) as [last|]; simpl; [|done].
  case_decide; [intros [= <- <-]; by apply Inv_set_errno|].
  by apply AllocBlock_loop_Inv.
Qed.

(** *** Initialisation *)

Lemma clamp_flags_ok fl : flags_ok fl → flags_ok (clamp_flags fl).
Proof.
  unfold flags_ok, clamp_flags; simpl. intros (? & ? & ? & ? & ? & ?).
  repeat case_decide; split_and!; lia.
Qed.

Lemma no_callback_no_info st : Inv B st → g_cb st = None → g_info st = None.
Proof.
  intros HI Hcb. pose proof (inv_info _ _ HI) as Hinfo.
  destruct (g_info st) as [gi|]; [|done]. by destruct Hinfo as [? _].
Qed.

(** The state in which InitBlockPool extends the pool for the first
    time. *)
Lemma init_state_Inv st f :
  Inv B st → g_cb st = None →
  let fl := clamp_flags (flags st) in
  let max_regions :=
    if decide (FLAGS_rdma_memory_pool_max_regions fl < g_max_regions st)
    then FLAGS_rdma_memory_pool_max_regions fl
    else g_max_regions st in
  let buckets :=
    if decide (FLAGS_rdma_memory_pool_buckets fl >= 1)
    then FLAGS_rdma_memory_pool_buckets fl
    else g_buckets st in
  1 ≤ buckets ≤ Z.max 1 (FLAGS_rdma_memory_pool_buckets fl) ∧
  Inv B (mkState fl buckets max_regions (g_regions st) (g_region_num st)
           (Some f) [B; wrap64 (B * 2); wrap64 (B * 4); wrap64 (B * 8)]
           (Some (mkGlobalInfo
                    (replicate BLOCK_SIZE_COUNT
                       (replicate (Z.to_nat buckets) []))
                    (replicate BLOCK_SIZE_COUNT [])))
           (errno st) (heap st) (node_pool st)).
Proof.
  intros HI Hcb fl max_regions buckets.
  pose proof (no_callback_no_info st HI Hcb) as Hgi.
  pose proof (inv_info _ _ HI) as Hinfo. rewrite Hgi in Hinfo.
  destruct Hinfo as [Hbs Hnum].
  pose proof (inv_flags _ _ HI) as Hfl.
  pose proof (clamp_flags_ok _ Hfl) as Hfl'.
  pose proof (inv_buckets _ _ HI) as HK.
  pose proof (inv_max _ _ HI) as Hmax.
  assert (HK' : 1 ≤ buckets ≤ Z.max 1 (FLAGS_rdma_memory_pool_buckets fl)).
  { subst buckets fl. simpl. case_decide; lia. }
  assert (Hmax' : 1 ≤ max_regions ≤ MAX_REGIONS).
  { subst max_regions fl. unfold MAX_REGIONS in *. simpl.
    repeat case_decide; lia. }
  assert (Hclamped : 64 ≤ FLAGS_rdma_memory_pool_initial_size_mb fl ∧
                     64 ≤ FLAGS_rdma_memory_pool_increase_size_mb fl).
  { subst fl. simpl. repeat case_decide; lia. }
  split; [done|].
  split; cbn -[replicate].
  - done.
  - done.
  - done.
  - lia.
  - apply (inv_len _ _ HI).
  - done.
  - unfold info_ok; cbn -[replicate]. repeat apply conj; try done.
    + unfold class_sizes. rewrite !wrap64_small by lia. done.
    + intros c row [-> _]%lookup_replicate. by rewrite length_replicate.
    + intros c b row l n [-> _]%lookup_replicate [-> _]%lookup_replicate Hn.
      by apply elem_of_nil in Hn.
    + intros c l n [-> _]%lookup_replicate Hn. by apply elem_of_nil in Hn.
  - apply (inv_unused _ _ HI).
  - intros i r [Hi _]. simpl in Hi. lia.
  - intros i j r r' [Hi _]. simpl in Hi. lia.
Qed.

Lemma InitBlockPool_Inv st cb info mem p st' :
  Inv B st → mem_contract st mem →
  InitBlockPool B st cb info mem = Some (p, st') → Inv B st'.
Proof.
  intros HI Hmem. unfold InitBlockPool.
  destruct cb as [f|]; [|intros [= <- <-]; by apply Inv_set_errno].
  destruct (g_cb st) as [g|] eqn:Hcb; [intros [= <- <-]; by apply Inv_set_errno|].
  destruct (init_state_Inv st f HI Hcb) as [HK' HI1].
  pose proof (inv_flags _ _ HI) as Hfl.
  pose proof (clamp_flags_ok _ Hfl) as Hfl'.
  set (fl := clamp_flags (flags st)) in *.
  set (max_regions := if decide (_ < g_max_regions st) then _ else _) in *.
  set (buckets := if decide (_ >= 1) then _ else _) in *.
  assert (Hclamped : 64 ≤ FLAGS_rdma_memory_pool_initial_size_mb fl).
  { subst fl. simpl. case_decide; lia. }
  destruct info.
  - match goal with |- ExtendBlockPool ?s _ _ _ = _ → _ => set (s1 := s) in * end.
    unfold flags_ok in Hfl'.
    rewrite wrap64_small by lia.
    intros Hext.
    refine (ExtendBlockPool_Inv s1 _ BLOCK_DEFAULT mem p st' HI1 _ _ _ _ _ Hext).
    + by eexists.
    + unfold BLOCK_DEFAULT, BLOCK_SIZE_COUNT. lia.
    + exact Hmem.
    + lia.
    + change (g_buckets s1) with buckets.
      destruct Hfl' as (_ & _ & _ & _ & Hfit & _).
      rewrite Z.max_r in Hfit by lia.
      eapply Z.le_lt_trans; [|exact Hfit].
      apply Z.mul_le_mono_nonneg_l; [unfold BYTES_IN_MB|]; lia.
  - intros [= <- <-].
    pose proof (no_callback_no_info st HI Hcb) as Hgi.
    pose proof (inv_info _ _ HI) as Hinfo. rewrite Hgi in Hinfo.
    destruct Hinfo as [Hbs Hnum].
    pose proof (inv_num _ _ HI1) as Hn1. pose proof (inv_max _ _ HI1) as Hm1.
    simpl in Hn1, Hm1.
    split; simpl.
    + done.
    + done.
    + done.
    + done.
    + apply (inv_len _ _ HI).
    + intros _. subst fl. simpl. repeat case_decide; lia.
    + by rewrite Hgi.
    + apply (inv_unused _ _ HI).
    + intros i r [Hi _]. simpl in Hi. lia.
    + intros i j r r' [Hi _]. simpl in Hi. lia.
Qed.

(** *** Every reachable state satisfies the invariants *)

Lemma boot_Inv fl e pool : flags_ok fl → Inv B (boot fl e pool).
Proof.
  intros Hfl. split; cbn -[replicate].
  - lia.
  - done.
  - unfold MAX_REGIONS. lia.
  - unfold MAX_REGIONS. lia.
  - done.
  - done.
  - done.
  - intros i r [-> _]%lookup_replicate. done.
  - intros i r [Hi _]. simpl in Hi. lia.
  - intros i j r r' [Hi _]. simpl in Hi. lia.
Qed.

Lemma run_op_Inv st op res st' :
  Inv B st → env_ok st op → run_op B st op = Some (res, st') → Inv B st'.
Proof.
  intros HI Henv. destruct op as [cb info mem|size rnd mem|buf|c index|buf|buf];
    simpl in *.
  - by apply InitBlockPool_Inv.
  - by apply AllocBlock_Inv.
  - by apply DeallocBlock_Inv.
  - destruct (PickReadyBlocks st c index) as [s|] eqn:Hp; simpl; [|done].
    intros [= <- <-]. by eapply PickReadyBlocks_Inv.
  - unfold GetRegionId, GetRegion. case_decide; simpl.
    + intros [= <- <-]. by apply Inv_set_errno.
    + destruct (GetRegion_scan _ _ _); by intros [= <- <-].
  - unfold GetBlockType, GetRegion. case_decide; simpl.
    + intros [= <- <-]. by apply Inv_set_errno.
    + destruct (GetRegion_scan _ _ _); by intros [= <- <-].
Qed.

Lemma reachable_Inv st : reachable B st → Inv B st.
Proof.
  induction 1 as [fl e pool Hfl|st op res st' _ IH Henv Hrun].
  - by apply boot_Inv.
  - by eapply run_op_Inv.
Qed.

(** *** The region table only grows *)

Lemma AllocBlock_loop_spec st size rnd mem i sizes p st' :
  Inv B st → mem_contract st mem →
  AllocBlock_loop st size rnd mem i sizes = Some (p, st') →
  grows st st' ∧ (errno st' = errno st ∨ errno st' = ENOMEM).
Proof.
  intros HI Hmem. revert i. induction sizes as [|bs sizes IH]; intros i; simpl.
  - intros [= <- <-]. split; [apply grows_refl|by left].
  - case_decide; [|apply IH].
    intros Ha.
    by destruct (AllocBlockFrom_spec st i rnd mem p st' HI Hmem Ha) as (_ & ? & ? & _).
Qed.

Lemma set_idle_grows st c index l st' :
  set_idle st c index l = Some st' → grows st st'.
Proof.
  unfold set_idle. destruct (g_info st) as [gi|]; simpl; [|done].
  destruct (idle_list gi !! c); simpl; [|done]. intros [= <-]. by split.
Qed.

Lemma DeallocBlock_grows st buf res st' :
  DeallocBlock st buf = Some (res, st') → grows st st'.
Proof.
  unfold DeallocBlock, GetRegion.
  case_decide; [intros [= <- <-]; by split|].
  destruct (GetRegion_scan _ _ _) as [r|]; [|intros [= <- <-]; by split].
  destruct (g_block_size st !! _) as [bs|]; simpl; [|done].
  destruct (get_object _) as [pool|]; [|intros [= <- <-]; apply grows_refl].
  case_decide; [done|].
  destruct (idle_at _ _ _) as [next|]; simpl; [|done].
  destruct (set_idle _ _ _ _) as [st3|] eqn:Hset; simpl; [|done].
  intros [= <- <-]. apply set_idle_grows in Hset. destruct Hset as [? ?].
  by split.
Qed.

Lemma run_op_grows st op res st' :
  Inv B st → env_ok st op → run_op B st op = Some (res, st') → grows st st'.
Proof.
  intros HI Henv. destruct op as [cb info mem|size rnd mem|buf|c index|buf|buf];
    simpl in *.
  - unfold InitBlockPool.
    destruct cb as [f|]; [|intros [= <- <-]; by split].
    destruct (g_cb st) as [g|] eqn:Hcb; [intros [= <- <-]; split; simpl; [lia|by rewrite Hcb]|].
    destruct info.
    + intros [Hn _]%ExtendBlockPool_grows. split; [done|by rewrite Hcb].
    + intros [= <- <-]. split; [simpl; lia|by rewrite Hcb].
  - unfold AllocBlock.
    destruct (g_block_size st !! _) as [last|]; simpl; [|done].
    case_decide; [intros [= <- <-]; by split|].
    intros Ha. by destruct (AllocBlock_loop_spec _ _ _ _ _ _ _ _ HI Henv Ha).
  - apply DeallocBlock_grows.
  - destruct (PickReadyBlocks st c index) as [s|] eqn:Hp; simpl; [|done].
    intros [= <- <-]. by eapply PickReadyBlocks_grows.
  - unfold GetRegionId, GetRegion. case_decide; simpl.
    + intros [= <- <-]. by split.
    + destruct (GetRegion_scan _ _ _); intros [= <- <-]; apply grows_refl.
  - unfold GetBlockType, GetRegion. case_decide; simpl.
    + intros [= <- <-]. by split.
    + destruct (GetRegion_scan _ _ _); intros [= <- <-]; apply grows_refl.
Qed.

(** *** The operations return *)

Lemma idle_at_total st gi c index :
  Inv B st → g_info st = Some gi → (c < BLOCK_SIZE_COUNT)%nat →
  0 ≤ index < g_buckets st → is_Some (idle_at st c index).
Proof.
  intros HI Hgi Hc Hidx.
  pose proof (inv_info _ _ HI) as Hinfo. rewrite Hgi in Hinfo.
  destruct Hinfo as (_ & _ & Hil & Hrow & _).
  destruct (lookup_lt_is_Some_2 (idle_list gi) c) as [row Hrowc];
    [by rewrite Hil|].
  unfold idle_at. rewrite Hgi. simpl. rewrite Hrowc. simpl.
  rewrite decide_True by lia. apply lookup_lt_is_Some_2.
  rewrite (Hrow _ _ Hrowc). lia.
Qed.

Lemma take_block_total st c index l :
  Inv B st → idle_at st c index = Some l → is_Some (take_block st c index).
Proof.
  intros HI Hat. unfold take_block. rewrite Hat. simpl.
  destruct l as [|n next]; [by eexists|].
  destruct (idle_at_ok st c index _ HI Hat) as (Hc & Hidx & [gi Hgi] & Hnodes).
  pose proof (inv_info _ _ HI) as Hinfo. rewrite Hgi in Hinfo.
  destruct Hinfo as (_ & Hbs & _).
  rewrite Hbs, (class_sizes_lookup_lt c) by done. simpl.
  assert (Hset : ∀ l', is_Some (set_idle st c index l')).
  { intros l'. unfold set_idle, idle_at in *. rewrite Hgi in *. simpl in *.
    destruct (idle_list gi !! c); simpl in *; [by eexists|done]. }
  destruct (Hnodes n ltac:(by left)) as (_ & _ & _ & _ & _ & _ & (k & Hk & Hlen) & _).
  pose proof (class_size_pos c).
  case_decide.
  - destruct (Hset (mkIdleNode (wrap64 (n_start n + class_size B c))
                      (n_len n - class_size B c) :: next)) as [s ->].
    by eexists.
  - rewrite decide_True by nia. destruct (Hset next) as [s ->]. by eexists.
Qed.

Lemma PickReadyBlocks_total st gi c index :
  Inv B st → g_info st = Some gi → (∀ i r, installed st i r → 0 < r_size r) →
  (c < BLOCK_SIZE_COUNT)%nat → 0 ≤ index < g_buckets st →
  is_Some (PickReadyBlocks st c index).
Proof.
  intros HI Hgi Hroom Hc Hidx.
  pose proof (inv_info _ _ HI) as Hinfo. rewrite Hgi in Hinfo.
  destruct Hinfo as (_ & _ & Hil & Hrow & Hrl & _ & Hready).
  destruct (lookup_lt_is_Some_2 (ready_list gi) c) as [ready Hrd];
    [by rewrite Hrl|].
  destruct (lookup_lt_is_Some_2 (idle_list gi) c) as [row Hrowc];
    [by rewrite Hil|].
  unfold PickReadyBlocks. rewrite Hgi. simpl. rewrite Hrd. simpl.
  destruct (pick_scan_total st index ready) as [found ->].
  { intros n Hn.
    destruct (Hready c ready n Hrd Hn)
      as (i & r & j & Hinst & _ & Hj & Hstart & Hlen).
    pose proof (inv_regions _ _ HI _ _ Hinst) as Hok.
    pose proof (Hroom _ _ Hinst) as Hpos.
    pose proof (region_size_extent st r HI Hok) as HE.
    pose proof (inv_buckets _ _ HI) as HK.
    assert (Hin : in_region r (n_start n)).
    { unfold in_region. set (E := r_size r / g_buckets st) in *. nia. }
    exists r. rewrite (GetRegion_in_region st _ i r) by done.
    split; [done|lia]. }
  simpl. destruct found as [[node rest]|]; [|by eexists].
  rewrite Hrowc. simpl. rewrite decide_True; [by eexists|].
  rewrite (Hrow _ _ Hrowc). lia.
Qed.

Lemma ExtendBlockPool_total st gi m c mem :
  Inv B st → g_info st = Some gi → (c < BLOCK_SIZE_COUNT)%nat →
  is_Some (ExtendBlockPool st m c mem).
Proof.
  intros HI Hgi Hc.
  pose proof (inv_info _ _ HI) as Hinfo. rewrite Hgi in Hinfo.
  destruct Hinfo as (Hcb & Hbs & _ & _ & Hrl & _).
  pose proof (inv_buckets _ _ HI) as HK.
  pose proof (inv_num _ _ HI) as Hn. pose proof (inv_max _ _ HI) as Hm.
  pose proof (class_size_pos c).
  unfold ExtendBlockPool.
  case_decide; [by eexists|]. case_decide; [by eexists|].
  rewrite Hbs, (class_sizes_lookup_lt c) by done. simpl.
  rewrite (buckets_wrap st) by done. rewrite decide_False by lia.
  destruct (mem _) as [base|]; [|by eexists].
  destruct (g_cb st) as [cb|]; [|done]. simpl.
  case_decide; [by eexists|].
  destruct (acquire_nodes _ _ _) as [[|] pool]; [|by eexists].
  rewrite Hgi. simpl.
  destruct (lookup_lt_is_Some_2 (ready_list gi) c) as [ready ->];
    [by rewrite Hrl|].
  simpl. rewrite decide_True by lia. by eexists.
Qed.

(** What a successful ExtendBlockPool leaves. *)
Lemma ExtendBlockPool_success st m c mem p st' :
  ExtendBlockPool st m c mem = Some (p, st') → p ≠ NULL →
  ∃ gi ready bs pool cb,
    g_info st = Some gi ∧ ready_list gi !! c = Some ready ∧
    g_block_size st !! c = Some bs ∧ g_cb st = Some cb ∧
    g_region_num st ≠ g_max_regions st ∧
    st' = set_info
            (mkGlobalInfo (idle_list gi)
               (<[c := push_extents (Z.to_nat (g_buckets st)) 0 p
                         (regular_size m bs (wrap64 (g_buckets st)))
                         (wrap64 (g_buckets st)) ready]> (ready_list gi)))
            (set_regions
               (<[Z.to_nat (g_region_num st) :=
                    mkRegion p (regular_size m bs (wrap64 (g_buckets st))) c
                      (cb p (regular_size m bs (wrap64 (g_buckets st))))]>
                  (g_regions st))
               (g_region_num st + 1)
               (set_node_pool pool
                  (set_heap
                     ((p, regular_size m bs (wrap64 (g_buckets st))) :: heap st)
                     st))).
Proof.
  unfold ExtendBlockPool.
  case_decide; [by intros [= <- <-]|].
  case_decide; [by intros [= <- <-]|].
  destruct (g_block_size st !! c) as [bs|]; simpl; [|done].
  case_decide; [done|].
  destruct (mem _) as [base|]; [|by intros [= <- <-]].
  destruct (g_cb st) as [cb|]; simpl; [|done].
  case_decide; [by intros [= <- <-]|].
  destruct (acquire_nodes _ _ _) as [[|] pool]; [|by intros [= <- <-]].
  destruct (g_info st) as [gi|]; simpl; [|done].
  destruct (ready_list gi !! c) as [ready|] eqn:Hrd; simpl; [|done].
  case_decide; [|done]. intros [= <- <-] _.
  exists gi, ready, bs, pool, cb. by split_and!.
Qed.

Lemma ExtendBlockPool_roomy st m c mem p st' :
  Inv B st → (c < BLOCK_SIZE_COUNT)%nat → mem_contract st mem →
  (∀ i r, installed st i r → 0 < r_size r) →
  0 ≤ m * BYTES_IN_MB < 2 ^ 64 →
  class_size B c * g_buckets st ≤ m * BYTES_IN_MB →
  ExtendBlockPool st m c mem = Some (p, st') →
  ∀ i r, installed st' i r → 0 < r_size r.
Proof.
  intros HI Hc Hmem Hroom Hraw Hfit Hext.
  destruct (decide (p = NULL)) as [->|Hp].
  - assert (Hsame : g_regions st' = g_regions st ∧
                    g_region_num st' = g_region_num st).
    { revert Hext. unfold ExtendBlockPool.
      case_decide; [by intros [= <-]|]. case_decide; [by intros [= <-]|].
      destruct (g_block_size st !! c) as [bs|]; simpl; [|done].
      case_decide; [done|].
      destruct (mem _) as [base|] eqn:Hm; [|by intros [= <-]].
      destruct (g_cb st) as [cb|]; simpl; [|done].
      case_decide; [by intros [= <-]|].
      destruct (acquire_nodes _ _ _) as [[|] pool]; [|by intros [= <-]].
      destruct (g_info st) as [gi|]; simpl; [|done].
      destruct (ready_list gi !! c) as [ready|]; simpl; [|done].
      case_decide; [|done]. intros [= Hb <-].
      destruct (Hmem _ _ Hm) as [? _]. unfold NULL in Hb. lia. }
    intros i r [Hi Hl]. destruct Hsame as [Hr Hn]. rewrite Hr in Hl.
    rewrite Hn in Hi. by apply (Hroom i r).
  - destruct (ExtendBlockPool_success _ _ _ _ _ _ Hext Hp)
      as (gi & ready & bs & pool & cb & Hgi & Hrd & Hbs & Hcb & Hnum & ->).
    pose proof (inv_info _ _ HI) as Hinfo. rewrite Hgi in Hinfo.
    destruct Hinfo as (_ & Hbs' & _). rewrite Hbs' in Hbs.
    apply class_sizes_lookup in Hbs as [-> _].
    pose proof (inv_buckets _ _ HI) as HK.
    pose proof (inv_num _ _ HI) as Hn. pose proof (inv_len _ _ HI) as Hlen.
    pose proof (inv_max _ _ HI) as Hmax.
    pose proof (class_size_pos c) as Hcs.
    rewrite (buckets_wrap st) by done.
    intros i r [Hi Hl]. simpl in Hi, Hl.
    destruct (decide (i = Z.to_nat (g_region_num st))) as [->|Hne].
    + rewrite list_lookup_insert_eq in Hl by (unfold MAX_REGIONS in *; lia).
      injection Hl as <-. simpl.
      rewrite regular_size_eq by (done || lia).
      assert (1 ≤ m * BYTES_IN_MB / (class_size B c * g_buckets st)).
      { apply Z.div_le_lower_bound; nia. }
      nia.
    + rewrite list_lookup_insert_ne in Hl by done.
      apply (Hroom i r). split; [lia|done].
Qed.

Lemma PickReadyBlocks_keeps st c index st' :
  PickReadyBlocks st c index = Some st' →
  g_regions st' = g_regions st ∧ g_region_num st' = g_region_num st ∧
  g_buckets st' = g_buckets st ∧ flags st' = flags st ∧
  heap st' = heap st ∧ is_Some (g_info st').
Proof.
  intros Hp. pose proof Hp as [->|[gi ->]]%PickReadyBlocks_frame.
  - do 5 (split; [done|]). unfold PickReadyBlocks in Hp.
    destruct (g_info st); [by eexists|done].
  - do 5 (split; [done|]). by eexists.
Qed.

Lemma roomy_fits st c :
  Inv B st → g_cb st ≠ None → roomy B st → (c < BLOCK_SIZE_COUNT)%nat →
  class_size B c * g_buckets st
    ≤ FLAGS_rdma_memory_pool_increase_size_mb (flags st) * BYTES_IN_MB.
Proof.
  intros HI Hcb [_ [_ Hsp]] Hc.
  destruct (inv_cb _ _ HI Hcb) as [_ Hinc].
  pose proof (inv_buckets _ _ HI) as HK.
  rewrite (Z.max_r 64) in Hsp by lia.
  assert (class_size B c ≤ class_size B 3).
  { unfold BLOCK_SIZE_COUNT in Hc. destruct c as [|[|[|[|c]]]]; simpl; lia. }
  pose proof (class_size_pos c). nia.
Qed.

Lemma PickReadyBlocks_roomy st c index st' :
  PickReadyBlocks st c index = Some st' → roomy B st → roomy B st'.
Proof. by intros [->|[gi ->]]%PickReadyBlocks_frame. Qed.

Lemma take_block_roomy st c index p st' :
  Inv B st → take_block st c index = Some (p, st') → roomy B st → roomy B st'.
Proof.
  intros HI Ht.
  by destruct (take_block_spec st c index p st' HI Ht)
    as (_ & [->|(gi & pool & ->)] & _).
Qed.

Lemma ExtendBlockPool_flags st m c mem p st' :
  ExtendBlockPool st m c mem = Some (p, st') → flags st' = flags st.
Proof.
  unfold ExtendBlockPool.
  case_decide; [by intros [= <- <-]|].
  case_decide; [by intros [= <- <-]|].
  destruct (g_block_size st !! c) as [bs|]; simpl; [|done].
  case_decide; [done|].
  destruct (mem _) as [base|]; [|by intros [= <- <-]].
  destruct (g_cb st) as [cb|]; simpl; [|done].
  case_decide; [by intros [= <- <-]|].
  destruct (acquire_nodes _ _ _) as [[|] pool]; [|by intros [= <- <-]].
  destruct (g_info st) as [gi|]; simpl; [|done].
  destruct (ready_list gi !! c) as [ready|]; simpl; [|done].
  case_decide; [|done]. by intros [= <- <-].
Qed.

(** The extension that AllocBlockFrom asks for keeps the pool roomy. *)
Lemma increase_roomy st c mem p st' :
  Inv B st → is_Some (g_info st) → (c < BLOCK_SIZE_COUNT)%nat →
  mem_contract st mem → roomy B st →
  ExtendBlockPool st (FLAGS_rdma_memory_pool_increase_size_mb (flags st)) c mem
  = Some (p, st') →
  Inv B st' ∧ roomy B st'.
Proof.
  intros HI [gi Hgi] Hc Hmem Hroomy Hext.
  pose proof (inv_info _ _ HI) as Hinfo. rewrite Hgi in Hinfo.
  destruct Hinfo as (Hcb & _).
  destruct (increase_fits st HI Hcb) as [Hinc Hfits].
  pose proof (inv_buckets _ _ HI) as HK.
  split.
  - refine (ExtendBlockPool_Inv st _ c mem p st' HI _ Hc Hmem _ Hfits Hext);
      [by eexists|lia].
  - split.
    + refine (ExtendBlockPool_roomy st _ c mem p st' HI Hc Hmem _ _ _ Hext).
      * apply Hroomy.
      * unfold BYTES_IN_MB in *. nia.
      * by apply roomy_fits.
    + rewrite (ExtendBlockPool_flags _ _ _ _ _ _ Hext). apply Hroomy.
Qed.

Lemma AllocBlockFrom_total st c rnd mem :
  Inv B st → mem_contract st mem → is_Some (g_info st) → roomy B st →
  (c < BLOCK_SIZE_COUNT)%nat →
  is_Some (AllocBlockFrom st c rnd mem).
Proof.
  intros HI Hmem [gi Hgi] Hroomy Hc. unfold AllocBlockFrom.
  rewrite (buckets_wrap st) by done.
  pose proof (inv_buckets _ _ HI) as HK.
  rewrite decide_False by lia.
  set (index := wrap64 rnd mod g_buckets st).
  assert (Hidx : 0 ≤ index < g_buckets st) by (apply Z.mod_pos_bound; lia).
  destruct (idle_at_total st gi c index HI Hgi Hc Hidx) as [l Hat].
  rewrite Hat. simpl. destruct l as [|n next]; [|by eapply take_block_total].
  destruct (PickReadyBlocks_total st gi c index HI Hgi (proj1 Hroomy) Hc Hidx)
    as [st1 Hpick].
  rewrite Hpick. simpl.
  pose proof (PickReadyBlocks_Inv st c index st1 HI Hpick) as HI1.
  pose proof (PickReadyBlocks_roomy _ _ _ _ Hpick Hroomy) as Hroomy1.
  destruct (PickReadyBlocks_keeps _ _ _ _ Hpick)
    as (_ & _ & HK1 & _ & Hh1 & [gi1 Hgi1]).
  assert (Hidx1 : 0 ≤ index < g_buckets st1) by by rewrite HK1.
  destruct (idle_at_total st1 gi1 c index HI1 Hgi1 Hc Hidx1) as [l1 Hat1].
  rewrite Hat1. simpl. destruct l1 as [|n next]; [|by eapply take_block_total].
  pose proof (inv_flags _ _ HI1) as Hfl.
  pose proof (inv_info _ _ HI1) as Hinfo. rewrite Hgi1 in Hinfo.
  destruct Hinfo as (Hcb & _).
  destruct (increase_fits st1 HI1 Hcb) as [Hinc _].
  rewrite (wrap64_small (FLAGS_rdma_memory_pool_increase_size_mb _))
    by (unfold flags_ok in Hfl; lia).
  destruct (ExtendBlockPool_total st1 gi1
              (FLAGS_rdma_memory_pool_increase_size_mb (flags st1)) c mem
              HI1 Hgi1 Hc) as [[q st2] Hext].
  rewrite Hext. simpl.
  case_decide as Hq; [by eexists|].
  assert (Hmem1 : mem_contract st1 mem).
  { unfold mem_contract. rewrite Hh1. exact Hmem. }
  destruct (increase_roomy st1 c mem q st2 HI1 ltac:(by eexists) Hc Hmem1
              Hroomy1 Hext) as [HI2 Hroomy2].
  destruct (ExtendBlockPool_success _ _ _ _ _ _ Hext Hq)
    as (gi' & ready & bs & pool & cb & _ & _ & _ & _ & _ & Hst2).
  assert (HK2 : g_buckets st2 = g_buckets st1) by by rewrite Hst2.
  assert (Hgi2 : is_Some (g_info st2)) by (rewrite Hst2; by eexists).
  destruct Hgi2 as [gi2 Hgi2].
  assert (Hidx2 : 0 ≤ index < g_buckets st2) by by rewrite HK2.
  destruct (PickReadyBlocks_total st2 gi2 c index HI2 Hgi2 (proj1 Hroomy2) Hc
              Hidx2) as [st3 Hpick2].
  rewrite Hpick2. simpl.
  pose proof (PickReadyBlocks_Inv st2 c index st3 HI2 Hpick2) as HI3.
  destruct (PickReadyBlocks_keeps _ _ _ _ Hpick2)
    as (_ & _ & HK3 & _ & _ & [gi3 Hgi3]).
  assert (Hidx3 : 0 ≤ index < g_buckets st3) by by rewrite HK3.
  destruct (idle_at_total st3 gi3 c index HI3 Hgi3 Hc Hidx3) as [l3 Hat3].
  by eapply take_block_total.
Qed.

Lemma AllocBlockFrom_roomy st c rnd mem p st' :
  Inv B st → mem_contract st mem → roomy B st →
  AllocBlockFrom st c rnd mem = Some (p, st') → roomy B st'.
Proof.
  intros HI Hmem Hroomy. unfold AllocBlockFrom.
  case_decide; [done|].
  set (index := wrap64 rnd mod wrap64 (g_buckets st)).
  destruct (idle_at st c index) as [[|n next]|]; simpl; [| |done].
  2:{ intros Ht. by eapply take_block_roomy. }
  destruct (PickReadyBlocks st c index) as [st1|] eqn:Hpick; simpl; [|done].
  pose proof (PickReadyBlocks_Inv st c index st1 HI Hpick) as HI1.
  pose proof (PickReadyBlocks_roomy _ _ _ _ Hpick Hroomy) as Hroomy1.
  destruct (PickReadyBlocks_keeps _ _ _ _ Hpick) as (_ & _ & _ & _ & Hh1 & _).
  destruct (idle_at st1 c index) as [[|n next]|] eqn:Hat1; simpl; [| |done].
  2:{ intros Ht. by eapply take_block_roomy. }
  destruct (idle_at_ok st1 c index _ HI1 Hat1) as (Hc & _ & Hgi1 & _).
  pose proof (inv_flags _ _ HI1) as Hfl.
  assert (Hcb : g_cb st1 ≠ None).
  { destruct Hgi1 as [gi1 Hgi1]. pose proof (inv_info _ _ HI1) as Hinfo.
    rewrite Hgi1 in Hinfo. by destruct Hinfo as (? & _). }
  destruct (increase_fits st1 HI1 Hcb) as [Hinc _].
  rewrite (wrap64_small (FLAGS_rdma_memory_pool_increase_size_mb _))
    by (unfold flags_ok in Hfl; lia).
  destruct (ExtendBlockPool st1 _ c mem) as [[q st2]|] eqn:Hext; simpl; [|done].
  assert (Hmem1 : mem_contract st1 mem).
  { unfold mem_contract. rewrite Hh1. exact Hmem. }
  destruct (increase_roomy st1 c mem q st2 HI1 Hgi1 Hc Hmem1 Hroomy1 Hext)
    as [HI2 Hroomy2].
  case_decide; [by intros [= <- <-]|].
  destruct (PickReadyBlocks st2 c index) as [st3|] eqn:Hpick2; simpl; [|done].
  pose proof (PickReadyBlocks_Inv st2 c index st3 HI2 Hpick2) as HI3.
  pose proof (PickReadyBlocks_roomy _ _ _ _ Hpick2 Hroomy2) as Hroomy3.
  intros Ht. by eapply take_block_roomy.
Qed.

Lemma AllocBlock_loop_roomy st size rnd mem i sizes p st' :
  Inv B st → mem_contract st mem → roomy B st →
  AllocBlock_loop st size rnd mem i sizes = Some (p, st') → roomy B st'.
Proof.
  intros HI Hmem Hroomy. revert i.
  induction sizes as [|bs sizes IH]; intros i; simpl.
  - by intros [= <- <-].
  - case_decide; [|apply IH]. by apply AllocBlockFrom_roomy.
Qed.

Lemma DeallocBlock_roomy st buf res st' :
  DeallocBlock st buf = Some (res, st') → roomy B st → roomy B st'.
Proof.
  unfold DeallocBlock, GetRegion.
  case_decide; [by intros [= <- <-]|].
  destruct (GetRegion_scan _ _ _) as [r|]; [|by intros [= <- <-]].
  destruct (g_block_size st !! _) as [bs|]; simpl; [|done].
  destruct (get_object _) as [pool|]; [|by intros [= <- <-]].
  case_decide; [done|].
  destruct (idle_at _ _ _) as [next|]; simpl; [|done].
  unfold set_idle. simpl.
  destruct (g_info st) as [gi|]; simpl; [|done].
  destruct (idle_list gi !! _); simpl; [|done].
  by intros [= <- <-].
Qed.

Lemma boot_roomy fl e pool : spacious B fl → roomy B (boot fl e pool).
Proof. intros Hsp. split; [|done]. intros i r [Hi _]. simpl in Hi. lia. Qed.

Lemma clamp_flags_spacious fl : spacious B fl → spacious B (clamp_flags fl).
Proof.
  unfold spacious, clamp_flags; simpl. intros [? ?].
  repeat case_decide; split; lia.
Qed.

(** Roomy pools stay roomy. *)
Lemma run_op_roomy st op res st' :
  Inv B st → env_ok st op → roomy B st →
  run_op B st op = Some (res, st') → roomy B st'.
Proof.
  intros HI Henv Hroomy.
  destruct op as [cb info mem|size rnd mem|buf|c index|buf|buf]; simpl in *.
  - unfold InitBlockPool.
    destruct cb as [f|]; [|by intros [= <- <-]].
    destruct (g_cb st) as [g|] eqn:Hcb; [by intros [= <- <-]|].
    pose proof (clamp_flags_spacious _ (proj2 Hroomy)) as Hsp.
    destruct info; [|intros [= <- <-]; split; [apply Hroomy|done]].
    destruct (init_state_Inv st f HI Hcb) as [HK1 HI1].
    match goal with |- ExtendBlockPool ?s _ _ _ = _ → _ => set (s1 := s) in * end.
    pose proof (inv_flags _ _ HI) as Hfl.
    assert (Hclamp : 64 ≤ FLAGS_rdma_memory_pool_initial_size_mb
                            (clamp_flags (flags st)) < 2 ^ 31).
    { unfold flags_ok in Hfl. simpl. destruct (decide (_ < 64)); lia. }
    rewrite wrap64_small by lia.
    intros Hext. split; [|by rewrite (ExtendBlockPool_flags _ _ _ _ _ _ Hext)].
    refine (ExtendBlockPool_roomy s1 _ BLOCK_DEFAULT mem res st' HI1 _ Henv _ _ _
              Hext).
    + unfold BLOCK_DEFAULT, BLOCK_SIZE_COUNT. lia.
    + apply Hroomy.
    + unfold BYTES_IN_MB. lia.
    + destruct Hsp as [Hsp _]. rewrite (Z.max_r 64) in Hsp by lia.
      eapply Z.le_trans; [|exact Hsp].
      apply Z.mul_le_mono_nonneg_l; [pose proof (class_size_pos 0); lia|].
      apply HK1.
  - unfold AllocBlock.
    destruct (g_block_size st !! _) as [last|]; simpl; [|done].
    case_decide; [by intros [= <- <-]|].
    by apply AllocBlock_loop_roomy.
  - intros Hd. by eapply DeallocBlock_roomy.
  - destruct (PickReadyBlocks st c index) as [s|] eqn:Hp; simpl; [|done].
    intros [= <- <-]. by eapply PickReadyBlocks_roomy.
  - unfold GetRegionId, GetRegion. case_decide; simpl.
    + by intros [= <- <-].
    + destruct (GetRegion_scan _ _ _); by intros [= <- <-].
  - unfold GetBlockType, GetRegion. case_decide; simpl.
    + by intros [= <- <-].
    + destruct (GetRegion_scan _ _ _); by intros [= <- <-].
Qed.

(** *** The size class of a request *)

Lemma AllocBlock_loop_class st size rnd mem sizes i c bs :
  sizes !! c = Some bs → size ≤ bs →
  (∀ c' bs', (c' < c)%nat → sizes !! c' = Some bs' → bs' < size) →
  AllocBlock_loop st size rnd mem i sizes = AllocBlockFrom st (i + c) rnd mem.
Proof.
  revert i c. induction sizes as [|b0 sizes IH]; intros i c Hc Hle Hmin; [done|].
  simpl. destruct c as [|c]; simpl in Hc.
  - injection Hc as ->. rewrite decide_True by done. by rewrite Nat.add_0_r.
  - pose proof (Hmin 0%nat b0 ltac:(lia) eq_refl).
    rewrite decide_False by lia.
    rewrite (IH (S i) c); [f_equal; lia|done|done|].
    intros c' bs' Hlt Hl. apply (Hmin (S c')); [lia|done].
Qed.


Lemma block_sizes_length st : Inv B st → length (g_block_size st) = BLOCK_SIZE_COUNT.
Proof.
  intros HI. pose proof (inv_info _ _ HI) as Hinfo.
  destruct (g_info st) as [gi|].
  - by destruct Hinfo as (_ & -> & _).
  - destruct Hinfo as [-> _]. by rewrite length_replicate.
Qed.

(** *** Ready nodes of other buckets *)

Lemma located_in_region st buf r :
  Inv B st → (GetRegion st buf).1 = Some r →
  ∃ i, installed st i r ∧ in_region r buf.
Proof.
  intros HI [_ Hscan]%GetRegion_fst. by apply GetRegion_scan_spec in Hscan.
Qed.

Lemma located_bucket st buf r :
  Inv B st → (GetRegion st buf).1 = Some r →
  r_size r ≠ 0 ∧
  bucket_index (wrap64 (g_buckets st)) r buf = bucket_of st r buf.
Proof.
  intros HI (i & Hinst & Hin)%located_in_region; [|done].
  pose proof (inv_regions _ _ HI _ _ Hinst) as Hok.
  destruct (bucket_index_exact st r buf HI Hok Hin) as [-> _].
  split; [|done]. unfold in_region in Hin. lia.
Qed.

Lemma none_matches_iff st index l :
  Inv B st →
  none_matches st index l ↔ ∀ n, n ∈ l → not_in_bucket st index n.
Proof.
  intros HI. split; intros H n Hn; destruct (H n Hn) as (r & Hr & Hb);
    exists r; (split; [done|]);
    destruct (located_bucket st _ r HI Hr) as [_ Heq]; congruence.
Qed.

Lemma pick_scan_none_matches st index l :
  Inv B st → none_matches st index l → pick_scan st index l = Some None.
Proof.
  intros HI. induction l as [|n l IH]; intros Hnone; simpl; [done|].
  destruct (Hnone n ltac:(by left)) as (r & Hr & Hb). rewrite Hr.
  destruct (located_bucket st _ r HI Hr) as [Hz _].
  rewrite !decide_False by done.
  rewrite IH; [done|]. intros n' Hn'. apply Hnone. by right.
Qed.

(** * The claims *)

(** C1. In every state reached by InitBlockPool, AllocBlock,
    DeallocBlock and PickReadyBlocks calls, every node of
    idle_list[c][b] starts in bucket b of the region that holds it,
    bucket_of(addr) = ((addr - region.start) * K) / region.size, and its
    length is a nonzero multiple of class_size[c]. *)
Theorem bucket_shard_invariant st gi c b row l n :
  reachable B st →
  g_info st = Some gi → idle_list gi !! c = Some row → row !! b = Some l →
  n ∈ l →
  ∃ r, (GetRegion st (n_start n)).1 = Some r ∧ in_region r (n_start n) ∧
       (n_start n - r_start r) * g_buckets st / r_size r = Z.of_nat b ∧
       g_block_size st !! c = Some (class_size B c) ∧
       ∃ k, 0 < k ∧ n_len n = k * class_size B c.
Proof.
  intros HI%reachable_Inv Hgi Hrowc Hl Hn.
  pose proof (inv_info _ _ HI) as Hinfo. rewrite Hgi in Hinfo.
  destruct Hinfo as (_ & Hbs & Hil & _ & _ & Hidle & _).
  destruct (Hidle c b row l n Hrowc Hl Hn)
    as (i & r & Hinst & _ & Hin & Hb & Hlen & _).
  exists r. split_and!; try done.
  - by rewrite (GetRegion_in_region st _ i r).
  - rewrite Hbs. apply class_sizes_lookup_lt. rewrite <- Hil.
    by eapply lookup_lt_Some.
Qed.

(** C2 rests on the paths of AllocBlockFrom and is proved with them,
    under "When a request fails, and when it extends the pool". *)

(** C3. GetRegionId(p) is the nonzero key stored for the one installed
    region whose range [start, start + size) holds p, and 0 when no
    installed region holds p; GetRegionId(NULL) is 0 and sets errno to
    EINVAL. *)
Theorem GetRegionId_spec st p :
  reachable B st →
  GetRegionId st NULL = (0, set_errno EINVAL st) ∧
  (∀ i r, installed st i r → in_region r p →
     GetRegionId st p = (r_id r, st) ∧ r_id r ≠ 0 ∧
     ∀ j r', installed st j r' → in_region r' p → j = i ∧ r' = r) ∧
  ((∀ i r, installed st i r → ¬ in_region r p) → (GetRegionId st p).1 = 0).
Proof.
  intros HI%reachable_Inv. split_and!.
  - done.
  - intros i r Hinst Hin. split_and!.
    + unfold GetRegionId. by rewrite (GetRegion_in_region st p i r).
    + by destruct (inv_regions _ _ HI _ _ Hinst) as (_ & _ & _ & _ & ? & _).
    + intros j r' Hinst' Hin'.
      by destruct (installed_unique st p j i r' r HI Hinst' Hinst Hin' Hin).
  - intros Hout. unfold GetRegionId.
    destruct (decide (p = NULL)) as [->|Hnz]; [done|].
    by rewrite (GetRegion_outside st p).
Qed.

(** C4. When ExtendBlockPool fails after posix_memalign has given the
    backing memory, because the callback returns zero or because fewer
    than g_buckets IdleNode objects can be acquired, it returns NULL and
    the state is the state before the call: the memory is freed, the
    acquired nodes are back in the object pool, and the region count, the
    region table and the ready and idle lists are untouched. *)
Theorem ExtendBlockPool_failure_atomic st region_size block_type mem bs cb base :
  64 ≤ region_size →
  g_region_num st ≠ g_max_regions st →
  g_block_size st !! block_type = Some bs →
  bs ≠ 0 → wrap64 (g_buckets st) ≠ 0 →
  mem (regular_size region_size bs (wrap64 (g_buckets st))) = Some base →
  g_cb st = Some cb →
  cb base (regular_size region_size bs (wrap64 (g_buckets st))) = 0 ∨
  (node_pool st < Z.to_nat (g_buckets st))%nat →
  ExtendBlockPool st region_size block_type mem = Some (NULL, st).
Proof.
  intros Hsz Hnum Hbs Hbnz HK Hmem Hcb Hfail. unfold ExtendBlockPool.
  rewrite (decide_False (P := region_size < 64)) by lia.
  rewrite (decide_False (P := g_region_num st = g_max_regions st)) by done.
  rewrite Hbs. simpl.
  rewrite decide_False by tauto. rewrite Hmem. simpl. rewrite Hcb. simpl.
  rewrite (decide_True (P := base = base)) by done.
  case_decide as Hid.
  - by destruct st.
  - destruct Hfail as [Hz|Hshort]; [done|].
    rewrite acquire_nodes_short by done. rewrite Nat.add_0_r.
    by destruct st.
Qed.

(** C5. A region that ExtendBlockPool installs for size_mb megabytes in
    class c has byte size floor(size_mb * 2^20 / (class_size[c] * K)) *
    class_size[c] * K: a multiple of class_size[c] * K, each of the K
    bucket extents of size / K bytes being a whole number of blocks. *)
Theorem region_size_regularised st size_mb c mem p st' :
  reachable B st →
  0 ≤ size_mb * BYTES_IN_MB < 2 ^ 64 →
  ExtendBlockPool st size_mb c mem = Some (p, st') → p ≠ NULL →
  let bs := class_size B c in
  let K := g_buckets st in
  g_block_size st !! c = Some bs ∧
  ∃ r, installed st' (Z.to_nat (g_region_num st)) r ∧
       g_region_num st' = g_region_num st + 1 ∧
       r_start r = p ∧ r_block_type r = c ∧
       r_size r = size_mb * 2 ^ 20 / (bs * K) * bs * K ∧
       (bs * K | r_size r) ∧
       r_size r / K = size_mb * 2 ^ 20 / (bs * K) * bs.
Proof.
  intros HI%reachable_Inv Hraw Hext Hp bs K.
  pose proof (inv_buckets _ _ HI) as HK. fold K in HK.
  pose proof (inv_num _ _ HI) as Hn. pose proof (inv_len _ _ HI) as Hlen.
  pose proof (class_size_pos c) as Hpos. fold bs in Hpos.
  pose proof (inv_info _ _ HI) as Hinfo.
  revert Hext. unfold ExtendBlockPool.
  case_decide; [by intros [= <- <-]|].
  case_decide; [by intros [= <- <-]|].
  destruct (g_info st) as [gi|] eqn:Hgi.
  2:{ destruct Hinfo as [-> _].
      destruct (replicate BLOCK_SIZE_COUNT 0 !! c) as [z|] eqn:Hz; simpl; [|done].
      apply lookup_replicate in Hz as [-> _]. by rewrite decide_True by (by left). }
  destruct Hinfo as (_ & Hbs & _). rewrite Hbs.
  destruct (class_sizes B !! c) as [z|] eqn:Hz; simpl; [|done].
  apply class_sizes_lookup in Hz as [-> Hc]. fold bs.
  rewrite (buckets_wrap st) by done. fold K.
  rewrite decide_False by lia.
  rewrite regular_size_eq by (done || lia).
  change BYTES_IN_MB with (2 ^ 20) in *.
  set (size := size_mb * 2 ^ 20 / (bs * K) * bs * K).
  destruct (mem size) as [base|]; [|by intros [= <- <-]].
  destruct (g_cb st) as [cb|]; simpl; [|done].
  case_decide; [by intros [= <- <-]|].
  destruct (acquire_nodes _ _ _) as [[|] pool]; [|by intros [= <- <-]].
  rewrite Hgi; simpl.
  destruct (ready_list gi !! c) as [ready|]; simpl; [|done].
  case_decide as Hrange; [|done]. intros [= <- <-]. simpl.
  split; [done|]. eexists. split_and!.
  - split; simpl; [lia|]. apply list_lookup_insert_eq.
    unfold MAX_REGIONS in *. lia.
  - done.
  - done.
  - done.
  - done.
  - simpl. exists (size_mb * 2 ^ 20 / (bs * K)). subst size. lia.
  - simpl. subst size. by rewrite Z.div_mul by lia.
Qed.

(** C6. The number of installed regions never exceeds g_max_regions,
    which is at most 16; once it has reached g_max_regions it stays
    there, every ExtendBlockPool call fails with NULL and errno ENOMEM
    and changes nothing else, and an AllocBlock that has to extend
    the pool returns NULL with errno ENOMEM. *)
Theorem region_count_bounded st :
  reachable B st →
  g_region_num st ≤ g_max_regions st ∧ g_max_regions st ≤ MAX_REGIONS ∧
  (g_region_num st = g_max_regions st →
   (∀ region_size c mem, 64 ≤ region_size →
      ExtendBlockPool st region_size c mem = Some (NULL, set_errno ENOMEM st)) ∧
   (∀ size rnd mem c last,
      g_block_size st !! (BLOCK_SIZE_COUNT - 1)%nat = Some last →
      size ≠ 0 → size ≤ last → smallest_class st size c →
      needs_extension st c (wrap64 rnd mod g_buckets st) →
      AllocBlock st size rnd mem = Some (NULL, set_errno ENOMEM st)) ∧
   (∀ op res st', env_ok st op → run_op B st op = Some (res, st') →
      g_region_num st' = g_max_regions st')).
Proof.
  intros HI%reachable_Inv.
  pose proof (inv_num _ _ HI) as Hn. pose proof (inv_max _ _ HI) as Hm.
  split_and!; [lia|lia|]. intros Hfull. split_and!.
  - intros m c mem Hsz. unfold ExtendBlockPool.
    rewrite decide_False by lia. by rewrite decide_True.
  - intros size rnd mem c last Hlast Hnz Hle [(bs & Hc & Hbs) Hmin]
      (Hat & gi & ready & Hgi & Hrd & Hnone).
    pose proof (block_sizes_length st HI) as Hlen.
    unfold AllocBlock. rewrite Hlast. simpl.
    rewrite decide_False by lia. rewrite firstn_all2 by lia.
    rewrite (AllocBlock_loop_class st size rnd mem _ 0 c bs) by done.
    simpl. unfold AllocBlockFrom.
    rewrite (buckets_wrap st) by done.
    pose proof (inv_buckets _ _ HI) as HK.
    rewrite decide_False by lia. rewrite Hat. simpl.
    assert (Hpick : PickReadyBlocks st c (wrap64 rnd mod g_buckets st) = Some st).
    { unfold PickReadyBlocks. rewrite Hgi. simpl. rewrite Hrd. simpl.
      rewrite pick_scan_none_matches; [done|done|].
      by apply none_matches_iff. }
    rewrite Hpick. simpl. rewrite Hat. simpl.
    pose proof (inv_info _ _ HI) as Hinfo. rewrite Hgi in Hinfo.
    destruct Hinfo as (Hcb & _).
    destruct (increase_fits st HI Hcb) as [Hinc _].
    pose proof (inv_flags _ _ HI) as Hfl.
    rewrite (wrap64_small (FLAGS_rdma_memory_pool_increase_size_mb _))
      by (unfold flags_ok in Hfl; lia).
    unfold ExtendBlockPool.
    rewrite decide_False by lia. rewrite decide_True by done. done.
  - intros op res st' Henv Hrun.
    pose proof (run_op_Inv st op res st' HI Henv Hrun) as HI'.
    pose proof (inv_num _ _ HI') as Hn'.
    destruct (run_op_grows st op res st' HI Henv Hrun) as [Hle Hcap].
    assert (Hcb : g_cb st ≠ None).
    { pose proof (inv_info _ _ HI) as Hinfo.
      destruct (g_info st) as [gi|]; [by destruct Hinfo as (? & _)|].
      destruct Hinfo as [_ Hz]. lia. }
    destruct (Hcap Hcb) as [Heq _]. lia.
Qed.

(** C7. PickReadyBlocks(class, bucket), called when idle_list[class][bucket]
    is empty, unlinks from ready_list[class] the first node, in list order,
    whose extent belongs to bucket and makes it the head of
    idle_list[class][bucket]; the other ready nodes stay in order, no second
    node moves, and when no node matches nothing changes. *)
Theorem PickReadyBlocks_spec st c index gi ready row :
  reachable B st →
  g_info st = Some gi → ready_list gi !! c = Some ready →
  idle_list gi !! c = Some row →
  0 ≤ index → row !! Z.to_nat index = Some [] →
  (∀ n, n ∈ ready → is_Some (GetRegion st (n_start n)).1) →
  (∃ pre node post,
     ready = pre ++ node :: post ∧
     (∀ n, n ∈ pre → not_in_bucket st index n) ∧
     in_bucket st index node ∧
     PickReadyBlocks st c index
     = Some (set_info
               (mkGlobalInfo
                  (<[c := <[Z.to_nat index := [node]]> row]> (idle_list gi))
                  (<[c := pre ++ post]> (ready_list gi)))
               st)) ∨
  ((∀ n, n ∈ ready → not_in_bucket st index n) ∧
   PickReadyBlocks st c index = Some st).
Proof.
  intros HI%reachable_Inv Hgi Hrd Hrowc Hidx Hempty Hloc.
  destruct (pick_scan_total st index ready) as [found Hpick].
  { intros n Hn. destruct (Hloc n Hn) as [r Hr]. exists r. split; [done|].
    by destruct (located_bucket st _ r HI Hr). }
  unfold PickReadyBlocks. rewrite Hgi. simpl. rewrite Hrd. simpl.
  rewrite Hpick. simpl.
  destruct found as [[node rest]|].
  - left. apply pick_scan_found in Hpick
      as (pre & post & r & -> & -> & Hpre & Hr & _ & Hb).
    exists pre, node, post. split_and!.
    + done.
    + by apply none_matches_iff.
    + exists r. split; [done|].
      destruct (located_bucket st _ r HI Hr) as [_ Heq]. congruence.
    + rewrite Hrowc. simpl.
      apply lookup_lt_Some in Hempty. by rewrite decide_True by lia.
  - right. split; [|done].
    apply none_matches_iff; [done|]. by apply pick_scan_none.
Qed.

(** C8. With an object pool that is not exhausted, DeallocBlock(buf)
    returns -1 exactly when buf is NULL (errno EINVAL) or lies in no
    installed region (errno ERANGE); for any other address, aligned or
    not, already free or not, it pushes the node (buf,
    class_size[region.class]) on idle_list[class][bucket_of(buf)] and
    returns 0. *)
Theorem DeallocBlock_spec st buf :
  reachable B st → node_pool st ≠ 0%nat →
  ∃ res st',
    DeallocBlock st buf = Some (res, st') ∧
    (res = -1 ↔ buf = NULL ∨ ∀ i r, installed st i r → ¬ in_region r buf) ∧
    (buf = NULL → st' = set_errno EINVAL st) ∧
    (buf ≠ NULL → (∀ i r, installed st i r → ¬ in_region r buf) →
     st' = set_errno ERANGE st) ∧
    (∀ i r, installed st i r → in_region r buf →
     res = 0 ∧
     ∃ gi row next,
       g_info st = Some gi ∧
       idle_list gi !! r_block_type r = Some row ∧
       row !! Z.to_nat (bucket_of st r buf) = Some next ∧
       st' = set_info
               (mkGlobalInfo
                  (<[r_block_type r :=
                       <[Z.to_nat (bucket_of st r buf) :=
                           mkIdleNode buf (class_size B (r_block_type r))
                           :: next]> row]>
                     (idle_list gi))
                  (ready_list gi))
               (set_node_pool (Nat.pred (node_pool st)) st)).
Proof.
  intros HI%reachable_Inv Hpool.
  destruct (decide (buf = NULL)) as [->|Hnz].
  { exists (-1), (set_errno EINVAL st). split_and!; try done.
    - split; [by left|done].
    - intros i r Hinst Hin.
      destruct (inv_regions _ _ HI _ _ Hinst) as (? & _).
      unfold in_region, NULL in Hin. lia. }
  destruct (GetRegion_scan (Z.to_nat (g_max_regions st)) (g_regions st) buf)
    as [r|] eqn:Hscan.
  - apply GetRegion_scan_spec in Hscan as (i & Hinst & Hin); [|done..].
    pose proof (DeallocBlock_in_region st buf i r HI Hinst Hin) as Hspec.
    destruct (node_pool st) as [|pool] eqn:Hp; [done|]. simpl in Hspec.
    destruct Hspec as (gi & row & next & Hgi & Hrowc & _ & Hnext & Heq & _).
    eexists 0, _. split; [exact Heq|]. split_and!.
    + split; [done|]. intros [?|Hout]; [done|]. by destruct (Hout i r).
    + done.
    + intros _ Hout. by destruct (Hout i r).
    + intros j r' Hinst' Hin'.
      destruct (installed_unique st buf j i r' r HI Hinst' Hinst Hin' Hin)
        as [-> ->].
      split; [done|]. exists gi, row, next. by split_and!.
  - assert (Hout : ∀ i r, installed st i r → ¬ in_region r buf)
      by by apply GetRegion_scan_None.
    exists (-1), (set_errno ERANGE st). split_and!.
    + unfold DeallocBlock. rewrite decide_False by done.
      by rewrite (GetRegion_outside st buf).
    + split; [by right|done].
    + done.
    + done.
    + intros i r Hinst Hin. by destruct (Hout i r).
Qed.

(** C9. When the IdleNode object pool is exhausted, DeallocBlock of an
    address inside an installed region returns 0 and changes nothing:
    the idle lists, the ready lists and the regions stay as they are. *)
Theorem DeallocBlock_pool_exhausted st buf i r :
  reachable B st → installed st i r → in_region r buf →
  node_pool st = 0%nat →
  DeallocBlock st buf = Some (0, st).
Proof.
  intros HI%reachable_Inv Hinst Hin Hpool.
  pose proof (DeallocBlock_in_region st buf i r HI Hinst Hin) as Hspec.
  by rewrite Hpool in Hspec.
Qed.

(** * Further properties *)

Lemma class_size_le_last c : class_size B c ≤ B * 8.
Proof. destruct c as [|[|[|c]]]; simpl; lia. Qed.

Lemma info_block_sizes st gi :
  Inv B st → g_info st = Some gi → g_block_size st = class_sizes B.
Proof.
  intros HI Hgi. pose proof (inv_info _ _ HI) as Hinfo. rewrite Hgi in Hinfo.
  by destruct Hinfo as (_ & ? & _).
Qed.

Lemma AllocBlock_class st gi size c rnd mem :
  Inv B st → g_info st = Some gi → smallest_class st size c → size ≠ 0 →
  AllocBlock st size rnd mem = AllocBlockFrom st c rnd mem.
Proof.
  intros HI Hgi [(bs & Hc & Hle) Hmin] Hnz.
  pose proof (info_block_sizes st gi HI Hgi) as Hbs.
  assert (Hlast : g_block_size st !! (BLOCK_SIZE_COUNT - 1)%nat = Some (B * 8))
    by by rewrite Hbs.
  assert (Hc' := Hc). rewrite Hbs in Hc'.
  apply class_sizes_lookup in Hc' as [-> Hlt].
  pose proof (class_size_le_last c).
  unfold AllocBlock. rewrite Hlast. simpl.
  rewrite decide_False by lia.
  rewrite firstn_all2 by (by rewrite Hbs).
  by rewrite (AllocBlock_loop_class st size rnd mem _ 0 c (class_size B c)).
Qed.

Lemma AllocBlockFrom_idle st c rnd mem n next :
  Inv B st →
  idle_at st c (wrap64 rnd mod g_buckets st) = Some (n :: next) →
  AllocBlockFrom st c rnd mem = take_block st c (wrap64 rnd mod g_buckets st).
Proof.
  intros HI Hidle. unfold AllocBlockFrom.
  rewrite (buckets_wrap st HI).
  pose proof (inv_buckets _ _ HI).
  rewrite decide_False by lia. cbn zeta. by rewrite Hidle.
Qed.

(** Giving a block back and taking a block from its bucket. *)
Lemma give_back_take st buf i r size rnd mem :
  Inv B st → installed st i r → in_region r buf →
  node_pool st ≠ 0%nat →
  smallest_class st size (r_block_type r) → size ≠ 0 →
  wrap64 rnd mod g_buckets st = bucket_of st r buf →
  ∃ st1, DeallocBlock st buf = Some (0, st1) ∧ Inv B st1 ∧
         AllocBlock st1 size rnd mem = Some (buf, st) ∧
         installed st1 i r ∧ S (node_pool st1) = node_pool st ∧
         g_buckets st1 = g_buckets st ∧ g_block_size st1 = g_block_size st.
Proof.
  intros HI Hinst Hin Hpool Hclass Hnz Hrnd.
  pose proof (DeallocBlock_in_region st buf i r HI Hinst Hin) as Hd.
  destruct (node_pool st) as [|pool] eqn:Hnp; [done|]. simpl in Hd.
  destruct Hd as (gi & row & next & Hgi & Hrow & Hb & Hnext & Hd & HI1).
  eexists. split; [exact Hd|]. split; [exact HI1|].
  split; [|by split_and!].
  set (c := r_block_type r) in *. set (b := bucket_of st r buf) in *.
  set (node := mkIdleNode buf (class_size B c)) in *.
  match type of Hd with _ = Some (_, ?s) => set (st1 := s) in * end.
  pose proof (info_block_sizes st gi HI Hgi) as Hbs.
  assert (Hc : (c < BLOCK_SIZE_COUNT)%nat).
  { by destruct (inv_regions _ _ HI _ _ Hinst) as (_ & _ & _ & ? & _). }
  rewrite (AllocBlock_class st1 _ size c rnd mem HI1 eq_refl); [|done|done].
  assert (Hidle : idle_at st1 c b = Some (node :: next)).
  { unfold idle_at. cbn. rewrite list_lookup_insert_eq
      by (by eapply lookup_lt_Some).
    cbn. rewrite decide_True by lia.
    apply list_lookup_insert_eq. by eapply lookup_lt_Some. }
  rewrite (AllocBlockFrom_idle st1 c rnd mem node next);
    [|done|change (g_buckets st1) with (g_buckets st); by rewrite Hrnd].
  change (g_buckets st1) with (g_buckets st). rewrite Hrnd. fold b.
  unfold take_block. rewrite Hidle.
  change (g_block_size st1) with (g_block_size st).
  rewrite Hbs, (class_sizes_lookup_lt c Hc). cbn.
  rewrite decide_False by lia. rewrite decide_True by done.
  unfold set_idle. cbn.
  rewrite list_lookup_insert_eq by (by eapply lookup_lt_Some). cbn.
  rewrite !list_insert_insert_eq.
  rewrite (list_insert_id row _ next Hnext).
  rewrite (list_insert_id (idle_list gi) c row Hrow).
  do 2 f_equal. unfold return_object.
  destruct st as [? ? ? ? ? ? ? inf ? ? np]. simpl in *. subst inf np.
  by destruct gi.
Qed.

(** X1. A pointer given back is the next block handed out from its
    bucket: DeallocBlock(buf) takes any pointer into an installed region,
    checking neither that the block is out nor that it starts a block,
    and puts it on the idle list of its bucket; an AllocBlock of the
    class of the region that draws that bucket then returns buf, and the
    pool is again in the state before the DeallocBlock. *)
Theorem DeallocBlock_AllocBlock_round_trip st buf i r size rnd mem :
  reachable B st → installed st i r → in_region r buf →
  node_pool st ≠ 0%nat →
  smallest_class st size (r_block_type r) → size ≠ 0 →
  wrap64 rnd mod g_buckets st = bucket_of st r buf →
  ∃ st1, DeallocBlock st buf = Some (0, st1) ∧
         AllocBlock st1 size rnd mem = Some (buf, st).
Proof.
  intros HI%reachable_Inv Hinst Hin Hpool Hclass Hnz Hrnd.
  destruct (give_back_take st buf i r size rnd mem HI Hinst Hin Hpool Hclass
              Hnz Hrnd) as (st1 & Hd & _ & Ha & _).
  by exists st1.
Qed.

(** X16. DeallocBlock does not detect a block that is given back twice:
    both calls succeed, the block is on its idle list twice, and the next
    two AllocBlock calls of its class that draw its bucket both return
    it. *)
Theorem double_free_double_allocation st buf i r size rnd1 rnd2 mem1 mem2 :
  reachable B st → installed st i r → in_region r buf →
  (2 ≤ node_pool st)%nat →
  smallest_class st size (r_block_type r) → size ≠ 0 →
  wrap64 rnd1 mod g_buckets st = bucket_of st r buf →
  wrap64 rnd2 mod g_buckets st = bucket_of st r buf →
  ∃ st1 st2,
    DeallocBlock st buf = Some (0, st1) ∧
    DeallocBlock st1 buf = Some (0, st2) ∧
    AllocBlock st2 size rnd1 mem1 = Some (buf, st1) ∧
    AllocBlock st1 size rnd2 mem2 = Some (buf, st).
Proof.
  intros HI%reachable_Inv Hinst Hin Hpool Hclass Hnz Hrnd1 Hrnd2.
  destruct (give_back_take st buf i r size rnd2 mem2 HI Hinst Hin ltac:(lia)
              Hclass Hnz Hrnd2)
    as (st1 & Hd1 & HI1 & Ha1 & Hinst1 & Hp1 & HK1 & Hbs1).
  destruct (give_back_take st1 buf i r size rnd1 mem1 HI1 Hinst1 Hin
              ltac:(lia)) as (st2 & Hd2 & _ & Ha2 & _).
  - unfold smallest_class. rewrite Hbs1. exact Hclass.
  - done.
  - unfold bucket_of in *. by rewrite HK1.
  - by exists st1, st2.
Qed.

(** X2. GetBlockType and GetRegionId agree on which pointers belong to
    the pool: GetBlockType(p) is -1 exactly when GetRegionId(p) is 0;
    otherwise p lies in one installed region, GetBlockType(p) is its
    class, between 0 and 3, and GetRegionId(p) is its key. Both leave the
    same state. *)
Theorem GetBlockType_GetRegionId st p :
  reachable B st →
  ((GetBlockType st p).1 = -1 ↔ (GetRegionId st p).1 = 0) ∧
  (GetBlockType st p).2 = (GetRegionId st p).2 ∧
  ((GetBlockType st p).1 ≠ -1 →
   ∃ i r, installed st i r ∧ in_region r p ∧
          GetBlockType st p = (Z.of_nat (r_block_type r), st) ∧
          GetRegionId st p = (r_id r, st) ∧
          0 ≤ (GetBlockType st p).1 < Z.of_nat BLOCK_SIZE_COUNT).
Proof.
  intros HI%reachable_Inv. unfold GetBlockType, GetRegionId.
  destruct (GetRegion st p) as [[r|] st0] eqn:Hg; simpl.
  - assert (Hl : (GetRegion st p).1 = Some r) by by rewrite Hg.
    destruct (located_in_region st p r HI Hl) as (i & Hinst & Hin).
    rewrite (GetRegion_in_region st p i r HI Hinst Hin) in Hg.
    injection Hg as <-.
    destruct (inv_regions _ _ HI _ _ Hinst) as (_ & _ & _ & Hc & Hid & _).
    split_and!; [split; lia|done|].
    intros _. exists i, r. split_and!; try done; lia.
  - split_and!; done.
Qed.

Lemma run_ops_Inv st ops st' :
  run_ops B st ops st' → Inv B st → Inv B st' ∧ grows st st'.
Proof.
  induction 1 as [st|st op res st1 ops st2 Henv Hrun _ IH]; intros HI.
  - split; [done|apply grows_refl].
  - destruct IH as [HI2 Hg2]; [by eapply run_op_Inv|].
    split; [done|]. eapply grows_trans; [|done]. by eapply run_op_grows.
Qed.

Lemma run_ops_reachable st ops st' :
  run_ops B st ops st' → reachable B st → reachable B st'.
Proof.
  induction 1 as [st|st op res st1 ops st2 Henv Hrun _ IH]; intros Hr; [done|].
  apply IH. by eapply reach_step.
Qed.

Lemma InitBlockPool_installs st f info mem p st' :
  InitBlockPool B st (Some f) info mem = Some (p, st') → g_cb st' ≠ None.
Proof.
  unfold InitBlockPool. destruct (g_cb st) as [g|] eqn:Hcb.
  { intros [= <- <-]. simpl. by rewrite Hcb. }
  destruct info; [|by intros [= <- <-]].
  intros Hext. apply ExtendBlockPool_grows in Hext as [_ Hg].
  by destruct Hg.
Qed.

(** X3. InitBlockPool takes effect once: after a call with a non-null
    callback, whether or not it returned a region, and after any
    sequence of InitBlockPool, AllocBlock, DeallocBlock,
    PickReadyBlocks, GetRegionId and GetBlockType calls (the calls of
    [run_ops]), a further InitBlockPool returns NULL, sets errno to
    EINVAL and changes nothing else. A first call that fails in
    posix_memalign, in the callback or for want of IdleNode objects
    cannot be made again by these calls. DestroyBlockPool is not among
    them: it clears g_cb, and InitBlockPool works again after it. *)
Theorem InitBlockPool_once st f info mem p st1 ops st2 cb' info' mem' :
  reachable B st → mem_contract st mem →
  InitBlockPool B st (Some f) info mem = Some (p, st1) →
  run_ops B st1 ops st2 →
  InitBlockPool B st2 cb' info' mem' = Some (NULL, set_errno EINVAL st2).
Proof.
  intros Hreach Hmem Hinit Hrun.
  pose proof (InitBlockPool_installs _ _ _ _ _ _ Hinit) as Hcb1.
  assert (HI1 : Inv B st1).
  { eapply InitBlockPool_Inv; [by apply reachable_Inv|done|done]. }
  destruct (run_ops_Inv _ _ _ Hrun HI1) as [_ [_ Hg]].
  destruct (Hg Hcb1) as [_ Hcb2].
  unfold InitBlockPool. destruct cb' as [f'|]; [|done].
  by destruct (g_cb st2).
Qed.

(** ** Sums over the lists *)

Lemma sumZ_app {A} (f : A → Z) l1 l2 :
  sumZ f (l1 ++ l2) = sumZ f l1 + sumZ f l2.
Proof. induction l1 as [|x l1 IH]; simpl; [done|]. rewrite IH. lia. Qed.

Lemma sumZ_insert {A} (f : A → Z) l i x y :
  l !! i = Some x → sumZ f (<[i := y]> l) = sumZ f l - f x + f y.
Proof.
  revert i. induction l as [|z l IH]; intros [|i]; simpl; try done.
  - intros [= ->]. lia.
  - intros Hl. rewrite (IH i Hl). lia.
Qed.

Lemma sumZ_replicate_0 {A} (f : A → Z) n x : f x = 0 → sumZ f (replicate n x) = 0.
Proof. intros Hx. induction n as [|n IH]; simpl; [done|]. lia. Qed.

Lemma sumZ_nonneg {A} (f : A → Z) l : (∀ x, x ∈ l → 0 ≤ f x) → 0 ≤ sumZ f l.
Proof.
  induction l as [|x l IH]; simpl; intros Hf; [done|].
  pose proof (Hf x ltac:(by left)).
  assert (0 ≤ sumZ f l) by (apply IH; intros y Hy; apply Hf; by right).
  lia.
Qed.

Lemma sumZ_elem_of_le {A} (f : A → Z) l x :
  (∀ y, y ∈ l → 0 ≤ f y) → x ∈ l → f x ≤ sumZ f l.
Proof.
  intros Hf Hx. apply list_elem_of_split in Hx as (l1 & l2 & ->).
  rewrite sumZ_app. simpl.
  assert (0 ≤ sumZ f l1).
  { apply sumZ_nonneg. intros y Hy. apply Hf. apply elem_of_app. by left. }
  assert (0 ≤ sumZ f l2).
  { apply sumZ_nonneg. intros y Hy. apply Hf. apply elem_of_app. right. by right. }
  lia.
Qed.

Lemma nodes_sum_idle f gi c row b l l' :
  idle_list gi !! c = Some row → row !! b = Some l →
  nodes_sum f (mkGlobalInfo (<[c := <[b := l']> row]> (idle_list gi))
                 (ready_list gi))
  = nodes_sum f gi - sumZ f l + sumZ f l'.
Proof.
  intros Hrow Hl. unfold nodes_sum. simpl.
  rewrite (sumZ_insert _ _ c row) by done.
  rewrite (sumZ_insert _ _ b l) by done. lia.
Qed.

Lemma nodes_sum_ready f gi c l l' :
  ready_list gi !! c = Some l →
  nodes_sum f (mkGlobalInfo (idle_list gi) (<[c := l']> (ready_list gi)))
  = nodes_sum f gi - sumZ f l + sumZ f l'.
Proof.
  intros Hl. unfold nodes_sum. simpl.
  rewrite (sumZ_insert _ _ c l) by done. lia.
Qed.

Lemma nodes_sum_pick f gi c row b l l' ready ready' :
  idle_list gi !! c = Some row → row !! b = Some l →
  ready_list gi !! c = Some ready →
  nodes_sum f (mkGlobalInfo (<[c := <[b := l']> row]> (idle_list gi))
                 (<[c := ready']> (ready_list gi)))
  = nodes_sum f gi - sumZ f l + sumZ f l' - sumZ f ready + sumZ f ready'.
Proof.
  intros Hrow Hl Hrd. unfold nodes_sum. simpl.
  rewrite (sumZ_insert _ _ c row) by done.
  rewrite (sumZ_insert _ _ b l) by done.
  rewrite (sumZ_insert _ _ c ready) by done. lia.
Qed.

Lemma idle_sum_idle f gi c row b l l' c' :
  idle_list gi !! c = Some row → row !! b = Some l →
  idle_sum f (mkGlobalInfo (<[c := <[b := l']> row]> (idle_list gi))
                (ready_list gi)) c'
  = if decide (c' = c) then idle_sum f gi c - sumZ f l + sumZ f l'
    else idle_sum f gi c'.
Proof.
  intros Hrow Hl. unfold idle_sum. simpl. case_decide as Hc.
  - subst c'. rewrite list_lookup_insert_eq by (by eapply lookup_lt_Some).
    rewrite Hrow. simpl. by rewrite (sumZ_insert _ _ b l).
  - by rewrite list_lookup_insert_ne.
Qed.

(** *** The object pool, again *)

Lemma acquire_nodes_result todo got pool ok pool' :
  acquire_nodes todo got pool = (ok, pool') →
  if ok then (pool' + todo = pool)%nat else (pool' = pool + got)%nat.
Proof.
  revert got pool. induction todo as [|todo IH]; intros got pool; simpl.
  - intros [= <- <-]. lia.
  - destruct pool as [|pool]; simpl.
    + intros [= <- <-]. rewrite iter_return_object. lia.
    + intros Ha. apply IH in Ha. destruct ok; lia.
Qed.

Lemma acquire_nodes_shortage todo pool pool' :
  acquire_nodes todo 0 pool = (false, pool') →
  (pool < todo)%nat ∧ pool' = pool.
Proof.
  intros Ha. destruct (decide (todo ≤ pool)%nat) as [Hle|Hlt].
  - by rewrite (acquire_nodes_enough _ _ _ Hle) in Ha.
  - rewrite acquire_nodes_short in Ha by lia. injection Ha as <-.
    split; lia.
Qed.

(** A call of ExtendBlockPool that returns NULL changes errno at most:
    to EINVAL for a size under 64 MB, to ENOMEM at the cap on the number
    of regions and when posix_memalign fails; a region that the callback
    does not register, or that finds too few IdleNode objects, is freed
    again and leaves the state as it was. *)
Lemma ExtendBlockPool_null st m c mem st' :
  mem_contract st mem → ExtendBlockPool st m c mem = Some (NULL, st') →
  (m < 64 ∧ st' = set_errno EINVAL st) ∨
  (64 ≤ m ∧ g_region_num st = g_max_regions st ∧ st' = set_errno ENOMEM st) ∨
  (64 ≤ m ∧ g_region_num st ≠ g_max_regions st ∧
   ∃ bs, g_block_size st !! c = Some bs ∧
     ((mem (regular_size m bs (wrap64 (g_buckets st))) = None ∧
       st' = set_errno ENOMEM st) ∨
      (∃ base cb,
         mem (regular_size m bs (wrap64 (g_buckets st))) = Some base ∧
         g_cb st = Some cb ∧
         (cb base (regular_size m bs (wrap64 (g_buckets st))) = 0 ∨
          (node_pool st < Z.to_nat (g_buckets st))%nat) ∧
         st' = st))).
Proof.
  intros Hmem. unfold ExtendBlockPool.
  case_decide; [intros [= <-]; by left|].
  case_decide; [intros [= <-]; right; left; split; [lia|done]|].
  intros Hext. right. right. split; [lia|]. split; [done|]. revert Hext.
  destruct (g_block_size st !! c) as [bs|]; simpl; [|done].
  case_decide; [done|]. intros Hext. exists bs. split; [done|]. revert Hext.
  destruct (mem _) as [base|] eqn:Hm; [|intros [= <-]; by left].
  destruct (g_cb st) as [cb|]; simpl; [|done].
  case_decide.
  { intros [= <-]. rewrite decide_True by done. right. exists base, cb.
    split_and!; [done|done|by left|by destruct st]. }
  destruct (acquire_nodes _ _ _) as [[|] pool] eqn:Hacq.
  - destruct (g_info st) as [gi|]; simpl; [|done].
    destruct (ready_list gi !! c) as [ready|]; simpl; [|done].
    case_decide; [|done]. intros [= Hb _].
    destruct (Hmem _ _ Hm) as [? _]. unfold NULL in Hb. lia.
  - intros [= <-]. apply acquire_nodes_shortage in Hacq as [Hshort Hpool].
    rewrite decide_True by done. simpl. right. exists base, cb.
    split_and!; [done|done|by right|].
    rewrite Hpool. by destruct st.
Qed.

(** A successful call takes g_buckets objects from the pool. *)
Lemma ExtendBlockPool_success_pool st m c mem p st' :
  ExtendBlockPool st m c mem = Some (p, st') → p ≠ NULL →
  (node_pool st' + Z.to_nat (g_buckets st) = node_pool st)%nat.
Proof.
  unfold ExtendBlockPool.
  case_decide; [by intros [= <- <-]|].
  case_decide; [by intros [= <- <-]|].
  destruct (g_block_size st !! c) as [bs|]; simpl; [|done].
  case_decide; [done|].
  destruct (mem _) as [base|]; [|by intros [= <- <-]].
  destruct (g_cb st) as [cb|]; simpl; [|done].
  case_decide; [by intros [= <- <-]|].
  destruct (acquire_nodes _ _ _) as [[|] pool] eqn:Hacq; [|by intros [= <- <-]].
  destruct (g_info st) as [gi|]; simpl; [|done].
  destruct (ready_list gi !! c) as [ready|] eqn:Hrd; simpl; [|done].
  case_decide; [|done]. intros [= <- <-] _. simpl.
  by apply acquire_nodes_result in Hacq.
Qed.

(** ** The paths through the operations *)

(** The start of the extent of bucket [j] of an installed region is
    located in that region and in that bucket. *)
Lemma extent_located st i r0 j addr r :
  Inv B st → installed st i r0 → 0 ≤ j < g_buckets st →
  addr = r_start r0 + j * (r_size r0 / g_buckets st) →
  (GetRegion st addr).1 = Some r →
  r = r0 ∧ 0 < r_size r ∧ bucket_of st r addr = j ∧
  bucket_index (wrap64 (g_buckets st)) r addr = j.
Proof.
  intros HI Hinst Hj Hstart Hr.
  destruct (located_in_region st _ r HI Hr) as (i' & Hinst' & Hin').
  pose proof (inv_regions _ _ HI _ _ Hinst) as Hok.
  pose proof (inv_buckets _ _ HI) as HK.
  pose proof (region_size_extent st r0 HI Hok) as HE.
  pose proof Hok as (? & ? & ? & _).
  set (E := r_size r0 / g_buckets st) in *.
  assert (HE0 : 0 ≤ E) by nia.
  destruct (decide (E = 0)) as [HEz|HEnz].
  { exfalso.
    assert (i ≠ i').
    { intros ->. destruct Hinst as [_ Hl1], Hinst' as [_ Hl2].
      assert (r0 = r) as -> by congruence.
      unfold in_region in Hin'. lia. }
    pose proof (inv_disjoint _ _ HI i i' r0 r Hinst Hinst' ltac:(done)) as Hd.
    unfold footprint_disjoint, in_region in *. lia. }
  assert (Hin0 : in_region r0 addr).
  { unfold in_region. nia. }
  destruct (installed_unique st addr i i' r0 r HI Hinst Hinst' Hin0 Hin')
    as [-> ->].
  destruct (bucket_index_exact st r addr HI Hok Hin0) as [Hbi Hrange].
  assert (Hb : bucket_of st r addr = j).
  { apply bucket_in_extent; [done..|]. fold E. nia. }
  rewrite Hbi. split_and!; try done. nia.
Qed.

(** A node of a ready list that the region table locates is the extent
    of its bucket in that region. *)
Lemma ready_node_exact st c n r :
  Inv B st → ready_node_ok st c n → (GetRegion st (n_start n)).1 = Some r →
  ∃ i, installed st i r ∧ r_block_type r = c ∧ 0 < r_size r ∧
       0 ≤ bucket_of st r (n_start n) < g_buckets st ∧
       bucket_index (wrap64 (g_buckets st)) r (n_start n)
       = bucket_of st r (n_start n) ∧
       n_start n
       = r_start r + bucket_of st r (n_start n) * (r_size r / g_buckets st) ∧
       n_len n = r_size r / g_buckets st.
Proof.
  intros HI (i & r0 & j & Hinst & Hc & Hj & Hstart & Hlen) Hr.
  destruct (extent_located st i r0 j _ r HI Hinst Hj Hstart Hr)
    as (-> & Hsz & Hb & Hbi).
  exists i. rewrite Hb. by do 6 (split; [done|]).
Qed.

(** PickReadyBlocks either finds no extent of the bucket and changes
    nothing, or moves the first one to the idle list of the bucket. *)
Lemma PickReadyBlocks_cases st c index st' :
  Inv B st → PickReadyBlocks st c index = Some st' →
  ∃ gi ready,
    g_info st = Some gi ∧ ready_list gi !! c = Some ready ∧
    ((st' = st ∧ none_matches st index ready) ∨
     ∃ row l pre node post i r,
       idle_list gi !! c = Some row ∧ 0 ≤ index < g_buckets st ∧
       row !! Z.to_nat index = Some l ∧
       ready = pre ++ node :: post ∧ none_matches st index pre ∧
       installed st i r ∧ r_block_type r = c ∧ 0 < r_size r ∧
       n_start node = r_start r + index * (r_size r / g_buckets st) ∧
       n_len node = r_size r / g_buckets st ∧
       st' = set_info
               (mkGlobalInfo
                  (<[c := <[Z.to_nat index := [node]]> row]> (idle_list gi))
                  (<[c := pre ++ post]> (ready_list gi)))
               st).
Proof.
  intros HI. unfold PickReadyBlocks.
  destruct (g_info st) as [gi|] eqn:Hgi; simpl; [|done].
  destruct (ready_list gi !! c) as [ready|] eqn:Hrd; simpl; [|done].
  destruct (pick_scan st index ready) as [[[node rest]|]|] eqn:Hpick;
    simpl; [| |done].
  2:{ intros [= <-]. exists gi, ready. split_and!; [done..|].
      left. split; [done|]. by apply pick_scan_none. }
  destruct (idle_list gi !! c) as [row|] eqn:Hrowc; simpl; [|done].
  case_decide as Hrange; [|done]. intros [= <-].
  exists gi, ready. split_and!; [done..|]. right.
  pose proof (inv_info _ _ HI) as Hinfo. rewrite Hgi in Hinfo.
  destruct Hinfo as (Hcb & Hbs & Hil & Hrow & Hrl & Hidle & Hready).
  apply pick_scan_found in Hpick
    as (pre & post & r & -> & -> & Hpre & Hr & _ & Hb).
  assert (Hnode : ready_node_ok st c node).
  { eapply Hready; [done|]. apply elem_of_app. right. by left. }
  destruct (ready_node_exact st c node r HI Hnode Hr)
    as (i & Hinst & Hc & Hsz & Hbk & Hbi & Hstart & Hlen).
  rewrite Hbi in Hb. rewrite Hb in *.
  destruct (lookup_lt_is_Some_2 row (Z.to_nat index)) as [l Hl]; [lia|].
  exists row, l, pre, node, post, i, r. by do 10 (split; [done|]).
Qed.

(** The block taken from a non-empty idle list. *)
Lemma take_block_cases st gi c row index n next p st' :
  Inv B st → g_info st = Some gi → idle_list gi !! c = Some row →
  idle_at st c index = Some (n :: next) →
  take_block st c index = Some (p, st') →
  p = n_start n ∧
  ((class_size B c < n_len n ∧
    st' = set_info
            (mkGlobalInfo
               (<[c := <[Z.to_nat index :=
                           mkIdleNode (n_start n + class_size B c)
                             (n_len n - class_size B c) :: next]> row]>
                  (idle_list gi))
               (ready_list gi))
            st) ∨
   (n_len n = class_size B c ∧
    st' = set_node_pool (S (node_pool st))
            (set_info
               (mkGlobalInfo
                  (<[c := <[Z.to_nat index := next]> row]> (idle_list gi))
                  (ready_list gi))
               st))).
Proof.
  intros HI Hgi Hrow Hat. unfold take_block. rewrite Hat. simpl.
  destruct (idle_at_ok st c index _ HI Hat) as (Hc & Hidx & _ & Hnodes).
  rewrite (info_block_sizes st gi HI Hgi), (class_sizes_lookup_lt c) by done.
  simpl. unfold set_idle. rewrite Hgi. simpl. rewrite Hrow. simpl.
  destruct (Hnodes n ltac:(by left))
    as (i & r & Hinst & Hrc & Hin & Hb & (k & Hk & Hlen) & Hext).
  case_decide as Hgt.
  - intros [= <- <-]. split; [done|]. left. split; [lia|].
    destruct (Hext ltac:(lia)) as [Hlo Hhi].
    pose proof (inv_regions _ _ HI _ _ Hinst) as Hok.
    pose proof (inv_buckets _ _ HI) as HK.
    pose proof (region_size_extent st r HI Hok) as HE.
    pose proof Hok as (? & ? & ? & _).
    pose proof (class_size_pos c) as Hcs.
    set (E := r_size r / g_buckets st) in *.
    rewrite wrap64_small; [done|].
    rewrite Z2Nat.id in Hhi by lia. unfold in_region in Hin. nia.
  - case_decide as Heq; [|done].
    intros [= <- <-]. split; [done|]. by right.
Qed.

(** The paths through AllocBlockFrom. *)
Lemma AllocBlockFrom_cases st c rnd mem p st' :
  Inv B st → mem_contract st mem →
  AllocBlockFrom st c rnd mem = Some (p, st') →
  let index := wrap64 rnd mod g_buckets st in
  (∃ n next, idle_at st c index = Some (n :: next) ∧
             take_block st c index = Some (p, st')) ∨
  (idle_at st c index = Some [] ∧
   ∃ st1, PickReadyBlocks st c index = Some st1 ∧ Inv B st1 ∧
     ((∃ n next, idle_at st1 c index = Some (n :: next) ∧
                 take_block st1 c index = Some (p, st')) ∨
      (st1 = st ∧ (c < BLOCK_SIZE_COUNT)%nat ∧ is_Some (g_info st) ∧
       ∃ q st2,
         ExtendBlockPool st
           (FLAGS_rdma_memory_pool_increase_size_mb (flags st)) c mem
         = Some (q, st2) ∧ Inv B st2 ∧
         ((q = NULL ∧ p = NULL ∧ st' = st2) ∨
          (q ≠ NULL ∧
           ∃ st3, PickReadyBlocks st2 c index = Some st3 ∧ Inv B st3 ∧
                  take_block st3 c index = Some (p, st')))))).
Proof.
  intros HI Hmem. unfold AllocBlockFrom.
  rewrite (buckets_wrap st) by done.
  pose proof (inv_buckets _ _ HI) as HK.
  rewrite decide_False by lia. cbn zeta.
  set (index := wrap64 rnd mod g_buckets st).
  destruct (idle_at st c index) as [[|n next]|] eqn:Hat; simpl; [| |done].
  2:{ intros Ht. left. by exists n, next. }
  destruct (PickReadyBlocks st c index) as [st1|] eqn:Hpick; simpl; [|done].
  pose proof (PickReadyBlocks_Inv st c index st1 HI Hpick) as HI1.
  intros Hrest. right. split; [done|]. exists st1. split_and!; [done..|].
  destruct (idle_at st1 c index) as [[|n next]|] eqn:Hat1; simpl in Hrest;
    [| |done].
  2:{ left. by exists n, next. }
  right.
  assert (Hst1 : st1 = st).
  { destruct (PickReadyBlocks_cases st c index st1 HI Hpick)
      as (gi & ready & Hgi & Hrd & [[-> _]|Hfound]); [done|].
    destruct Hfound as (row & l & pre & node & post & i & r & Hrow & Hidx
                        & Hl & _ & _ & _ & _ & _ & _ & _ & ->).
    exfalso. revert Hat1. unfold idle_at. cbn.
    rewrite list_lookup_insert_eq by (by eapply lookup_lt_Some). cbn.
    rewrite decide_True by lia.
    rewrite list_lookup_insert_eq by (by eapply lookup_lt_Some). done. }
  subst st1.
  destruct (idle_at_ok st c index _ HI Hat) as (Hc & _ & Hgi & _).
  split_and!; [done..|].
  assert (Hcb : g_cb st ≠ None).
  { destruct Hgi as [gi Hgi]. pose proof (inv_info _ _ HI) as Hinfo.
    rewrite Hgi in Hinfo. by destruct Hinfo as (? & _). }
  destruct (increase_fits st HI Hcb) as [Hinc Hfits].
  pose proof (inv_flags _ _ HI) as Hfl.
  rewrite (wrap64_small (FLAGS_rdma_memory_pool_increase_size_mb _)) in Hrest
    by (unfold flags_ok in Hfl; lia).
  destruct (ExtendBlockPool st _ c mem) as [[q st2]|] eqn:Hext;
    simpl in Hrest; [|done].
  assert (HI2 : Inv B st2).
  { refine (ExtendBlockPool_Inv st _ c mem q st2 HI Hgi Hc Hmem _ Hfits Hext).
    lia. }
  exists q, st2. split_and!; [done..|].
  case_decide as Hq.
  { injection Hrest as <- <-. by left. }
  right. split; [done|].
  destruct (PickReadyBlocks st2 c index) as [st3|] eqn:Hpick2;
    simpl in Hrest; [|done].
  exists st3. split_and!; [done| |done].
  by eapply PickReadyBlocks_Inv.
Qed.

(** ** GetGlobalLen *)

Lemma wrap64_range z : 0 ≤ wrap64 z < 2 ^ 64.
Proof. unfold wrap64. apply Z.mod_pos_bound. lia. Qed.

Lemma wrap64_add_l a b : wrap64 (wrap64 a + b) = wrap64 (a + b).
Proof. unfold wrap64. by rewrite Zplus_mod_idemp_l. Qed.

Lemma GetGlobalLen_walk_sum l len :
  0 ≤ len < 2 ^ 64 → GetGlobalLen_walk l len = wrap64 (len + sumZ n_len l).
Proof.
  revert len. induction l as [|n l IH]; intros len Hlen; simpl.
  - by rewrite Z.add_0_r, wrap64_small.
  - rewrite IH by apply wrap64_range. rewrite wrap64_add_l. f_equal. lia.
Qed.

Lemma GetGlobalLen_loop_sum st gi c row n i len :
  g_info st = Some gi → idle_list gi !! c = Some row →
  (i + n ≤ length row)%nat → 0 ≤ len < 2 ^ 64 →
  GetGlobalLen_loop st c n i len
  = Some (wrap64 (len + sumZ (sumZ n_len) (take n (drop i row)))).
Proof.
  intros Hgi Hrow. revert i len.
  induction n as [|n IH]; intros i len Hi Hlen; simpl.
  - by rewrite Z.add_0_r, wrap64_small.
  - rewrite Hgi. simpl. rewrite Hrow. simpl.
    destruct (lookup_lt_is_Some_2 row i) as [l Hl]; [lia|].
    rewrite Hl. simpl. rewrite GetGlobalLen_walk_sum by done.
    rewrite IH by (lia || apply wrap64_range). rewrite wrap64_add_l.
    rewrite (drop_S row l i Hl). simpl. do 2 f_equal. lia.
Qed.

Lemma GetGlobalLen_sum st gi c :
  Inv B st → g_info st = Some gi → (c < BLOCK_SIZE_COUNT)%nat →
  GetGlobalLen st c = Some (wrap64 (idle_sum n_len gi c)).
Proof.
  intros HI Hgi Hc. pose proof (inv_info _ _ HI) as Hinfo.
  rewrite Hgi in Hinfo. destruct Hinfo as (_ & _ & Hil & Hrow & _).
  destruct (lookup_lt_is_Some_2 (idle_list gi) c) as [row Hr]; [by rewrite Hil|].
  unfold GetGlobalLen, idle_sum.
  rewrite (GetGlobalLen_loop_sum st gi c row) by
    (done || rewrite ?(Hrow c row Hr); simpl; lia).
  rewrite Hr. simpl. rewrite drop_0, firstn_all2 by (rewrite (Hrow c row Hr); lia).
  done.
Qed.

Lemma GetGlobalLen_beyond st c :
  Inv B st → ¬ (c < BLOCK_SIZE_COUNT)%nat ∨ g_info st = None →
  GetGlobalLen st c = None.
Proof.
  intros HI Hc. unfold GetGlobalLen.
  pose proof (inv_buckets _ _ HI) as HK.
  destruct (Z.to_nat (g_buckets st)) as [|k] eqn:Hk; [lia|]. simpl.
  destruct (g_info st) as [gi|] eqn:Hgi; simpl; [|done].
  destruct Hc as [Hc|]; [|done].
  pose proof (inv_info _ _ HI) as Hinfo.
  rewrite Hgi in Hinfo. destruct Hinfo as (_ & _ & Hil & _).
  rewrite lookup_ge_None_2; [done|]. rewrite Hil. lia.
Qed.

(** X4. A DeallocBlock that puts a block on its idle list raises
    GetGlobalLen of the class of the block by the block size of that
    class, in 64-bit arithmetic, and leaves GetGlobalLen of every other
    class as it was. *)
Theorem DeallocBlock_GetGlobalLen st buf i r :
  reachable B st → installed st i r → in_region r buf →
  node_pool st ≠ 0%nat →
  ∃ st' len,
    DeallocBlock st buf = Some (0, st') ∧
    GetGlobalLen st (r_block_type r) = Some len ∧
    GetGlobalLen st' (r_block_type r)
    = Some (wrap64 (len + class_size B (r_block_type r))) ∧
    ∀ c, c ≠ r_block_type r → GetGlobalLen st' c = GetGlobalLen st c.
Proof.
  intros HI%reachable_Inv Hinst Hin Hpool.
  pose proof (DeallocBlock_in_region st buf i r HI Hinst Hin) as Hd.
  destruct (node_pool st) as [|pool] eqn:Hnp; [done|]. simpl in Hd.
  destruct Hd as (gi & row & next & Hgi & Hrow & Hb & Hnext & Hd & HI1).
  assert (Hc : (r_block_type r < BLOCK_SIZE_COUNT)%nat).
  { by destruct (inv_regions _ _ HI _ _ Hinst) as (_ & _ & _ & ? & _). }
  eexists _, _. split; [exact Hd|].
  split; [by apply GetGlobalLen_sum|].
  split.
  - rewrite (GetGlobalLen_sum _ _ _ HI1 eq_refl Hc).
    rewrite (idle_sum_idle _ gi _ row _ next) by done.
    rewrite decide_True by done. simpl.
    rewrite wrap64_add_l. do 2 f_equal. lia.
  - intros c Hne. destruct (decide (c < BLOCK_SIZE_COUNT)%nat) as [Hlt|Hge].
    + rewrite (GetGlobalLen_sum _ _ _ HI1 eq_refl Hlt).
      rewrite (GetGlobalLen_sum _ _ _ HI Hgi Hlt).
      rewrite (idle_sum_idle _ gi _ row _ next) by done.
      by rewrite decide_False.
    + rewrite !GetGlobalLen_beyond; try done; by left.
Qed.

(** ** The ways AllocBlockFrom serves a request *)

Lemma idle_at_row st gi c row index l :
  g_info st = Some gi → idle_list gi !! c = Some row →
  idle_at st c index = Some l →
  0 ≤ index ∧ row !! Z.to_nat index = Some l.
Proof.
  intros Hgi Hrow. unfold idle_at. rewrite Hgi. simpl. rewrite Hrow. simpl.
  by case_decide.
Qed.

Lemma idle_at_info st c index l :
  idle_at st c index = Some l →
  ∃ gi row, g_info st = Some gi ∧ idle_list gi !! c = Some row ∧
            0 ≤ index ∧ row !! Z.to_nat index = Some l.
Proof.
  unfold idle_at.
  destruct (g_info st) as [gi|]; simpl; [|done].
  destruct (idle_list gi !! c) as [row|] eqn:Hrow; simpl; [|done].
  case_decide; [|done]. intros Hl. exists gi, row. by do 3 (split; [done|]).
Qed.

Lemma take_block_from_idle st c index n next p st' :
  Inv B st → idle_at st c index = Some (n :: next) →
  take_block st c index = Some (p, st') → from_idle B st c index p st'.
Proof.
  intros HI Hat Ht.
  destruct (idle_at_info _ _ _ _ Hat) as (gi & row & Hgi & Hrow & Hidx & Hl).
  destruct (idle_at_ok st c index _ HI Hat) as (_ & Hrange & _).
  destruct (take_block_cases st gi c row index n next p st' HI Hgi Hrow Hat Ht)
    as [-> [[Hlt ->]|[Heq ->]]];
    exists gi, row, n, next; unfold carve, carve_pool.
  - rewrite !decide_True by done. do 5 (split; [done|]).
    split; [lia|]. by destruct st.
  - rewrite !decide_False by lia. do 5 (split; [done|]). split; [lia|done].
Qed.

Lemma pick_take_from_ready st c index st1 p st' :
  Inv B st → idle_at st c index = Some [] →
  PickReadyBlocks st c index = Some st1 →
  take_block st1 c index = Some (p, st') →
  (p = NULL ∧ st' = st ∧ st1 = st ∧
   ∃ gi ready, g_info st = Some gi ∧ ready_list gi !! c = Some ready ∧
               none_matches st index ready) ∨
  (p ≠ NULL ∧ from_ready B st c index p st').
Proof.
  intros HI Hat Hpick Ht.
  pose proof (PickReadyBlocks_Inv st c index st1 HI Hpick) as HI1.
  destruct (PickReadyBlocks_cases st c index st1 HI Hpick)
    as (gi & ready & Hgi & Hrd & [[-> Hnone]|Hfound]).
  - left. revert Ht. unfold take_block. rewrite Hat. simpl.
    intros [= <- <-]. split_and!; try done. by exists gi, ready.
  - right.
    destruct Hfound as (row & l & pre & node & post & i & r & Hrow & Hidx
                        & Hl & Hready & Hpre & Hinst & Hc & Hsz & Hstart
                        & Hlen & ->).
    destruct (idle_at_row st gi c row index [] Hgi Hrow Hat) as [_ Hl'].
    assert (l = []) as -> by congruence.
    match type of Ht with take_block ?s _ _ = _ => set (st1 := s) in * end.
    assert (Hat1 : idle_at st1 c index = Some [node]).
    { unfold idle_at. cbn.
      rewrite list_lookup_insert_eq by (by eapply lookup_lt_Some). cbn.
      rewrite decide_True by lia.
      apply list_lookup_insert_eq. by eapply lookup_lt_Some. }
    destruct (take_block_from_idle st1 c index node [] p st' HI1 Hat1 Ht)
      as (gi1 & row1 & n1 & next1 & Hgi1 & Hrow1 & _ & Hl1 & Hp & Hge & Hst').
    injection Hgi1 as <-. simpl in Hrow1.
    rewrite list_lookup_insert_eq in Hrow1 by (by eapply lookup_lt_Some).
    injection Hrow1 as <-.
    rewrite list_lookup_insert_eq in Hl1 by (by eapply lookup_lt_Some).
    injection Hl1 as <- <-.
    split.
    { destruct (inv_regions _ _ HI _ _ Hinst) as (? & ? & _).
      pose proof (inv_buckets _ _ HI).
      assert (0 ≤ r_size r / g_buckets st) by (apply Z.div_pos; lia).
      unfold NULL. rewrite Hp, Hstart. nia. }
    exists gi, row, ready, pre, node, post, i, r.
    do 13 (split; [done|]). split; [done|].
    rewrite Hst'. simpl. rewrite !list_insert_insert_eq. done.
Qed.

Lemma push_extents_eq n i start size K ready :
  push_extents n i start size K ready
  = reverse ((λ j, mkIdleNode (wrap64 (start + wrap64 (j * (size / K))))
                              (size / K)) <$> seqZ i (Z.of_nat n)) ++ ready.
Proof.
  revert i ready. induction n as [|n IH]; intros i ready; [done|].
  cbn [push_extents]. rewrite IH.
  rewrite (seqZ_cons i (Z.of_nat (S n))) by lia.
  replace (Z.pred (Z.of_nat (S n))) with (Z.of_nat n) by lia.
  rewrite fmap_cons, reverse_cons, <- app_assoc. done.
Qed.

Lemma from_idle_nonnull st c index p st' :
  Inv B st → from_idle B st c index p st' → p ≠ NULL.
Proof.
  intros HI (gi & row & n & next & Hgi & Hrow & _ & Hl & -> & _).
  pose proof (inv_info _ _ HI) as Hinfo. rewrite Hgi in Hinfo.
  destruct Hinfo as (_ & _ & _ & _ & _ & Hidle & _).
  destruct (Hidle c _ row _ n Hrow Hl ltac:(by left))
    as (i & r & Hinst & _ & Hin & _).
  destruct (inv_regions _ _ HI _ _ Hinst) as (? & _).
  unfold in_region, NULL in *. lia.
Qed.

(** After a successful extension the ready list holds an extent of
    every bucket. *)
Lemma extension_serves st m c mem q st2 index gi2 ready2 :
  Inv B st → Inv B st2 →
  ExtendBlockPool st m c mem = Some (q, st2) → q ≠ NULL →
  0 ≤ index < g_buckets st →
  g_info st2 = Some gi2 → ready_list gi2 !! c = Some ready2 →
  ¬ none_matches st2 index ready2.
Proof.
  intros HI HI2 Hext Hq Hidx Hgi2 Hrd2 Hnone.
  destruct (ExtendBlockPool_success _ _ _ _ _ _ Hext Hq)
    as (gi & ready & bs & pool & cb & Hgi & Hrd & Hbs & Hcb & Hnum & Hst2).
  pose proof (inv_num _ _ HI) as Hn. pose proof (inv_len _ _ HI) as Hlen.
  pose proof (inv_max _ _ HI) as Hmax. pose proof (inv_buckets _ _ HI) as HK.
  rewrite (buckets_wrap st HI) in Hst2.
  set (size := regular_size m bs (g_buckets st)) in *.
  set (rnew := mkRegion q size c (cb q size)) in *.
  assert (Hinst : installed st2 (Z.to_nat (g_region_num st)) rnew).
  { rewrite Hst2. split; simpl; [lia|].
    apply list_lookup_insert_eq. unfold MAX_REGIONS in *. lia. }
  assert (HK2 : g_buckets st2 = g_buckets st) by by rewrite Hst2.
  pose proof (inv_regions _ _ HI2 _ _ Hinst) as Hok.
  pose proof Hok as (Hq0 & Hsz0 & Hend & _).
  set (node := mkIdleNode (wrap64 (q + wrap64 (index * (size / g_buckets st))))
                          (size / g_buckets st)).
  assert (Hin : node ∈ ready2).
  { rewrite Hst2 in Hgi2. injection Hgi2 as <-. simpl in Hrd2.
    rewrite list_lookup_insert_eq in Hrd2 by (by eapply lookup_lt_Some).
    injection Hrd2 as <-. rewrite push_extents_eq.
    apply elem_of_app. left. apply elem_of_reverse, list_elem_of_fmap.
    exists index. split; [done|]. apply elem_of_seqZ. lia. }
  destruct (Hnone node Hin) as (r' & Hr' & Hne).
  simpl in Hr', Hne.
  rewrite (extent_start_exact q size (g_buckets st) index) in Hr', Hne
    by (simpl in *; lia).
  destruct (extent_located st2 _ rnew index _ r' HI2 Hinst
              ltac:(by rewrite HK2) ltac:(by rewrite HK2) Hr')
    as (_ & _ & _ & Hbi).
  rewrite HK2 in Hbi, Hne. done.
Qed.

(** A request is served from the idle list of its bucket, or from the
    first ready extent of the bucket, or, when the bucket has neither,
    from the ready extent of a region added for it; it fails only when
    that region cannot be added. *)
Lemma AllocBlockFrom_paths st c rnd mem p st' :
  Inv B st → mem_contract st mem →
  AllocBlockFrom st c rnd mem = Some (p, st') →
  let index := wrap64 rnd mod g_buckets st in
  (p ≠ NULL ∧ from_idle B st c index p st') ∨
  (p ≠ NULL ∧ from_ready B st c index p st') ∨
  (idle_at st c index = Some [] ∧
   (∃ gi ready, g_info st = Some gi ∧ ready_list gi !! c = Some ready ∧
                none_matches st index ready) ∧
   (c < BLOCK_SIZE_COUNT)%nat ∧
   ∃ q st2,
     ExtendBlockPool st
       (FLAGS_rdma_memory_pool_increase_size_mb (flags st)) c mem
     = Some (q, st2) ∧ Inv B st2 ∧
     ((q = NULL ∧ p = NULL ∧ st' = st2) ∨
      (q ≠ NULL ∧ p ≠ NULL ∧ from_ready B st2 c index p st'))).
Proof.
  intros HI Hmem Ha index.
  destruct (AllocBlockFrom_cases st c rnd mem p st' HI Hmem Ha)
    as [(n & next & Hat & Ht)|(Hat & st1 & Hpick & HI1 & Hrest)];
    fold index in Hat |- *.
  { pose proof (take_block_from_idle st c index n next p st' HI Hat Ht) as Hf.
    left. split; [|done]. by eapply from_idle_nonnull. }
  fold index in Hpick, Hrest.
  destruct Hrest as [(n & next & Hat1 & Ht)
                    |(-> & Hc & Hgi & q & st2 & Hext & HI2 & Hrest)].
  { destruct (pick_take_from_ready st c index st1 p st' HI Hat Hpick Ht)
      as [(-> & _ & -> & _)|[Hp Hf]]; [|right; by left].
    exfalso. revert Ht. unfold take_block. rewrite Hat1. simpl.
    destruct (idle_at_ok st c index _ HI Hat1) as (Hc & _ & [gi Hgi] & Hn).
    destruct (Hn n ltac:(by left)) as (i & r & Hinst & _ & Hin & _).
    destruct (inv_regions _ _ HI _ _ Hinst) as (? & _).
    rewrite (info_block_sizes st gi HI Hgi), (class_sizes_lookup_lt c) by done.
    simpl. unfold in_region, NULL in *.
    case_decide.
    - destruct (set_idle _ _ _ _); simpl; [|done]. intros [= Hz _]. lia.
    - case_decide; [|done].
      destruct (set_idle _ _ _ _); simpl; [|done]. intros [= Hz _]. lia. }
  right. right.
  assert (Hnone : ∃ gi ready, g_info st = Some gi ∧
                    ready_list gi !! c = Some ready ∧
                    none_matches st index ready).
  { destruct (PickReadyBlocks_cases st c index st HI Hpick)
      as (gi & ready & Hgi' & Hrd & [[_ Hnone]|Hfound]); [by exists gi, ready|].
    destruct Hfound as (row & l & pre & node & post & i & r & Hrow & Hidx
                        & Hl & _ & _ & _ & _ & _ & _ & _ & Heq).
    exfalso.
    assert (Hat' : idle_at st c index = Some [node]).
    { rewrite Heq at 1. unfold idle_at. cbn.
      rewrite list_lookup_insert_eq by (by eapply lookup_lt_Some). cbn.
      rewrite decide_True by lia.
      apply list_lookup_insert_eq. by eapply lookup_lt_Some. }
    congruence. }
  split_and!; [done..|].
  exists q, st2. split_and!; [done..|].
  destruct Hrest as [?|(Hq & st3 & Hpick2 & HI3 & Ht)]; [by left|].
  right. split; [done|].
  destruct (ExtendBlockPool_success _ _ _ _ _ _ Hext Hq)
    as (gi & ready & bs & pool & cb & Hgi0 & Hrd & Hbs & Hcb & Hnum & Hst2).
  assert (HK2 : g_buckets st2 = g_buckets st) by by rewrite Hst2.
  assert (Hat2 : idle_at st2 c index = Some []).
  { rewrite <- Hat. rewrite Hst2. unfold idle_at. cbn. by rewrite Hgi0. }
  destruct (pick_take_from_ready st2 c index st3 p st' HI2 Hat2 Hpick2 Ht)
    as [(_ & _ & _ & gi2 & ready2 & Hgi2 & Hrd2 & Hnone2)|[Hp Hf]]; [|done].
  exfalso.
  destruct (idle_at_ok st c index _ HI Hat) as (_ & Hidx & _).
  by eapply (extension_serves st _ c mem q st2 index).
Qed.

(** ** When a request fails, and when it extends the pool *)

Lemma dry_needs_extension st c index :
  Inv B st →
  idle_at st c index = Some [] ∧
  (∃ gi ready, g_info st = Some gi ∧ ready_list gi !! c = Some ready ∧
               none_matches st index ready)
  ↔ needs_extension st c index.
Proof.
  intros HI. unfold needs_extension. split.
  - intros [Hat (gi & ready & Hgi & Hrd & Hnone)]. split; [done|].
    exists gi, ready. split_and!; [done..|]. by apply none_matches_iff.
  - intros [Hat (gi & ready & Hgi & Hrd & Hnone)]. split; [done|].
    exists gi, ready. split_and!; [done..|]. by apply none_matches_iff.
Qed.

Lemma from_idle_not_dry st c index p st' :
  from_idle B st c index p st' → ¬ needs_extension st c index.
Proof.
  intros (gi & row & n & next & Hgi & Hrow & Hidx & Hl & _) [Hat _].
  destruct (idle_at_row st gi c row index [] Hgi Hrow Hat) as [_ Hl'].
  congruence.
Qed.

Lemma from_ready_not_dry st c index p st' :
  Inv B st → from_ready B st c index p st' → ¬ needs_extension st c index.
Proof.
  intros HI (gi & row & ready & pre & node & post & i & r & Hgi & Hrow & Hidx
             & Hl & Hrd & -> & Hpre & Hinst & Hc & Hsz & Hstart & Hlen & _)
         [_ (gi' & ready' & Hgi' & Hrd' & Hnone)].
  assert (gi' = gi) as -> by congruence.
  assert (ready' = pre ++ node :: post) as -> by congruence.
  destruct (Hnone node) as (r' & Hr' & Hne).
  { apply elem_of_app. right. by left. }
  destruct (extent_located st i r index _ r' HI Hinst Hidx Hstart Hr')
    as (_ & _ & Hb & _). done.
Qed.

Lemma from_ready_frame st c index p st' :
  from_ready B st c index p st' →
  g_regions st' = g_regions st ∧ g_region_num st' = g_region_num st ∧
  heap st' = heap st ∧ errno st' = errno st ∧ flags st' = flags st ∧
  g_buckets st' = g_buckets st ∧ g_max_regions st' = g_max_regions st ∧
  g_block_size st' = g_block_size st ∧ g_cb st' = g_cb st.
Proof.
  intros (gi & row & ready & pre & node & post & i & r & _ & _ & _ & _ & _
          & _ & _ & _ & _ & _ & _ & _ & _ & _ & ->). done.
Qed.

Lemma from_idle_frame st c index p st' :
  from_idle B st c index p st' →
  g_regions st' = g_regions st ∧ g_region_num st' = g_region_num st ∧
  heap st' = heap st ∧ errno st' = errno st ∧ flags st' = flags st ∧
  g_buckets st' = g_buckets st ∧ g_max_regions st' = g_max_regions st ∧
  g_block_size st' = g_block_size st ∧ g_cb st' = g_cb st.
Proof.
  intros (gi & row & n & next & _ & _ & _ & _ & _ & _ & ->). done.
Qed.



(** X6. AllocBlock adds a region only when it has to: the number of
    regions grows, by one, exactly when the call returns a block and the
    bucket drawn had no idle block and no ready extent; in every other
    case the region table is as it was. *)
Theorem AllocBlock_extends_when_dry st size c rnd mem p st' :
  reachable B st → mem_contract st mem →
  smallest_class st size c → size ≠ 0 → is_Some (g_info st) →
  AllocBlock st size rnd mem = Some (p, st') →
  ((p ≠ NULL ∧ needs_extension st c (wrap64 rnd mod g_buckets st)) →
   g_region_num st' = g_region_num st + 1) ∧
  (¬ (p ≠ NULL ∧ needs_extension st c (wrap64 rnd mod g_buckets st)) →
   g_region_num st' = g_region_num st ∧ g_regions st' = g_regions st).
Proof.
  intros HI%reachable_Inv Hmem Hclass Hnz [gi Hgi] Ha.
  rewrite (AllocBlock_class st gi size c rnd mem HI Hgi Hclass Hnz) in Ha.
  set (index := wrap64 rnd mod g_buckets st).
  destruct (AllocBlockFrom_paths st c rnd mem p st' HI Hmem Ha)
    as [[Hp Hf]|[[Hp Hf]|(Hat & Hnone & Hlt & q & st2 & Hext & HI2 & Hrest)]];
    fold index in Hf || fold index in Hat, Hnone, Hrest.
  - pose proof (from_idle_not_dry _ _ _ _ _ Hf) as Hno.
    destruct (from_idle_frame _ _ _ _ _ Hf) as (? & ? & _).
    split; [by intros [_ ?]|done].
  - pose proof (from_ready_not_dry _ _ _ _ _ HI Hf) as Hno.
    destruct (from_ready_frame _ _ _ _ _ Hf) as (? & ? & _).
    split; [by intros [_ ?]|done].
  - destruct Hrest as [(-> & -> & ->)|(Hq & Hp & Hf)].
    + split; [by intros [? _]|]. intros _.
      pose proof (inv_info _ _ HI) as Hinfo. rewrite Hgi in Hinfo.
      assert (Hcb : g_cb st ≠ None) by by destruct Hinfo as (? & _).
      destruct (increase_fits st HI Hcb) as [Hinc _].
      by destruct (ExtendBlockPool_null st _ c mem st2 Hmem Hext)
        as [[? _]|[(_ & _ & ->)|(_ & _ & bs & _ &
                                 [[_ ->]|(? & ? & _ & _ & _ & ->)])]];
        [lia|..].
    + destruct (from_ready_frame _ _ _ _ _ Hf) as (_ & Hn & _).
      destruct (ExtendBlockPool_success _ _ _ _ _ _ Hext Hq)
        as (? & ? & ? & ? & ? & _ & _ & _ & _ & _ & Hst2).
      rewrite Hst2 in Hn. simpl in Hn. split; [done|].
      intros Hno. exfalso. apply Hno. split; [done|].
      by apply dry_needs_extension.
Qed.

(** ** What a new region brings *)

(** X7. A successful ExtendBlockPool puts exactly g_buckets extents of
    the new region at the head of the ready list of its class and touches
    no other list: extent j is the j-th of the g_buckets equal parts of
    the region, [p + j * E, p + (j + 1) * E) with E = size / g_buckets,
    the parts cover the region exactly, and part j belongs to bucket
    j. *)
Theorem ExtendBlockPool_extents st m c mem p st' :
  reachable B st → mem_contract st mem →
  0 ≤ m → m * BYTES_IN_MB * g_buckets st < 2 ^ 64 →
  ExtendBlockPool st m c mem = Some (p, st') → p ≠ NULL →
  ∃ gi gi' ready r,
    g_info st = Some gi ∧ g_info st' = Some gi' ∧
    ready_list gi !! c = Some ready ∧
    installed st' (Z.to_nat (g_region_num st)) r ∧
    r_start r = p ∧ r_block_type r = c ∧
    r_size r = r_size r / g_buckets st * g_buckets st ∧
    ready_list gi' !! c
    = Some (reverse ((λ j, mkIdleNode (p + j * (r_size r / g_buckets st))
                                      (r_size r / g_buckets st))
                     <$> seqZ 0 (g_buckets st)) ++ ready) ∧
    idle_list gi' = idle_list gi ∧
    (∀ c', c' ≠ c → ready_list gi' !! c' = ready_list gi !! c') ∧
    (0 < r_size r → ∀ j, 0 ≤ j < g_buckets st →
       in_bucket st' j (mkIdleNode (p + j * (r_size r / g_buckets st))
                                   (r_size r / g_buckets st))).
Proof.
  intros HI%reachable_Inv Hmem Hm Hfits Hext Hp.
  destruct (ExtendBlockPool_success _ _ _ _ _ _ Hext Hp)
    as (gi & ready & bs & pool & cb & Hgi & Hrd & Hbs & Hcb & Hnum & Hst2).
  assert (Hc : (c < BLOCK_SIZE_COUNT)%nat).
  { rewrite <- (block_sizes_length st HI). by eapply lookup_lt_Some. }
  assert (HI2 : Inv B st').
  { by refine (ExtendBlockPool_Inv st m c mem p st' HI _ Hc Hmem Hm Hfits Hext). }
  pose proof (inv_num _ _ HI) as Hn. pose proof (inv_len _ _ HI) as Hlen.
  pose proof (inv_max _ _ HI) as Hmax. pose proof (inv_buckets _ _ HI) as HK.
  rewrite (buckets_wrap st HI) in Hst2.
  set (size := regular_size m bs (g_buckets st)) in *.
  set (rnew := mkRegion p size c (cb p size)) in *.
  assert (Hinst : installed st' (Z.to_nat (g_region_num st)) rnew).
  { rewrite Hst2. split; simpl; [lia|].
    apply list_lookup_insert_eq. unfold MAX_REGIONS in *. lia. }
  assert (HK2 : g_buckets st' = g_buckets st) by by rewrite Hst2.
  pose proof (inv_regions _ _ HI2 _ _ Hinst) as Hok.
  pose proof Hok as (Hq0 & Hsz0 & Hend & _).
  pose proof (region_size_extent st' rnew HI2 Hok) as HE. rewrite HK2 in HE.
  eexists gi, _, ready, rnew. split; [done|].
  split; [by rewrite Hst2|]. do 4 (split; [done|]).
  split; [exact HE|]. simpl.
  split.
  { rewrite list_lookup_insert_eq by (by eapply lookup_lt_Some).
    rewrite push_extents_eq, Z2Nat.id by lia. do 3 f_equal.
    apply list_fmap_ext. intros k j Hj.
    apply list_elem_of_lookup_2, elem_of_seqZ in Hj.
    by rewrite (extent_start_exact p size (g_buckets st) j) by (simpl in *; lia). }
  split; [done|]. split.
  { intros c' Hne. by rewrite list_lookup_insert_ne. }
  intros Hsz j Hj.
  assert (Hin : in_region rnew (p + j * (size / g_buckets st))).
  { unfold in_region. simpl in *. nia. }
  exists rnew. simpl. split.
  - by rewrite (GetRegion_in_region st' _ _ rnew HI2 Hinst Hin).
  - rewrite <- HK2. apply bucket_in_extent; [done..|]. rewrite HK2.
    simpl in *. nia.
Qed.

(** ** The first call *)

Lemma buckets_choice b : (if decide (b >= 1) then b else 1) = Z.max 1 b.
Proof. case_decide; lia. Qed.

Lemma regions_choice m :
  (if decide ((if decide (m < 1) then 1 else m) < MAX_REGIONS)
   then if decide (m < 1) then 1 else m
   else MAX_REGIONS)
  = Z.min MAX_REGIONS (Z.max 1 m).
Proof. unfold MAX_REGIONS. repeat case_decide; lia. Qed.

Lemma initial_choice m :
  - 2 ^ 31 ≤ m < 2 ^ 31 →
  wrap64 (if decide (m < 64) then 64 else m) = Z.max 64 m.
Proof. intros Hm. case_decide; rewrite wrap64_small; lia. Qed.

(** X8. A first InitBlockPool that returns a region leaves a pool with
    that region alone, of class 0 and of the regularised initial size,
    registered under the key the callback gave; g_buckets is the buckets
    flag when it is at least 1 and 1 otherwise, the cap on the regions is
    the flag brought between 1 and 16, the block sizes are B, 2B, 4B and
    8B, the backing memory is the only live block, g_buckets IdleNode
    objects are taken, every idle list is empty (GetGlobalLen is 0 for
    every class) and errno is untouched. *)
Theorem InitBlockPool_success fl e pool f info mem p st :
  flags_ok fl → mem_contract (boot fl e pool) mem →
  InitBlockPool B (boot fl e pool) (Some f) info mem = Some (p, st) →
  p ≠ NULL →
  let K := Z.max 1 (FLAGS_rdma_memory_pool_buckets fl) in
  let size :=
    Z.max 64 (FLAGS_rdma_memory_pool_initial_size_mb fl) * BYTES_IN_MB
      / (B * K) * B * K in
  GetRegionNum st = 1 ∧ g_buckets st = K ∧
  g_max_regions st
  = Z.min MAX_REGIONS (Z.max 1 (FLAGS_rdma_memory_pool_max_regions fl)) ∧
  g_regions st !! 0%nat = Some (mkRegion p size BLOCK_DEFAULT (f p size)) ∧
  f p size ≠ 0 ∧
  heap st = [(p, size)] ∧
  (node_pool st + Z.to_nat K = pool)%nat ∧
  errno st = e ∧
  (∀ c, (c < BLOCK_SIZE_COUNT)%nat →
     GetBlockSize st c = Some (class_size B c) ∧ GetGlobalLen st c = Some 0).
Proof.
  intros Hfl Hmem Hinit Hp K size.
  pose proof (boot_Inv fl e pool Hfl) as HI0.
  pose proof (InitBlockPool_Inv _ _ _ _ _ _ HI0 Hmem Hinit) as HI.
  pose proof Hfl as (Hf1 & Hf2 & Hf3 & Hf4 & Hf5 & Hf6).
  assert (HKw : wrap64 K = K) by (apply wrap64_small; subst K; lia).
  assert (Hsize : regular_size
                    (Z.max 64 (FLAGS_rdma_memory_pool_initial_size_mb fl)) B K
                  = size).
  { apply regular_size_eq; subst K; [unfold BYTES_IN_MB in *; nia|done|lia]. }
  revert Hinit. unfold InitBlockPool, boot.
  cbn [g_cb flags g_buckets g_max_regions g_regions g_region_num errno heap
       node_pool clamp_flags FLAGS_rdma_memory_pool_buckets
       FLAGS_rdma_memory_pool_max_regions
       FLAGS_rdma_memory_pool_initial_size_mb].
  destruct info; [|by intros [= <- <-]].
  rewrite buckets_choice, regions_choice, initial_choice by lia. fold K.
  intros Hext.
  pose proof (ExtendBlockPool_success_pool _ _ _ _ _ _ Hext Hp) as Hpool.
  destruct (ExtendBlockPool_success _ _ _ _ _ _ Hext Hp)
    as (gi & ready & bs & pool' & cb & Hgi & Hrd & Hbs & Hcb & Hnum & Hst).
  cbn [g_buckets g_region_num g_regions heap node_pool] in Hst, Hpool.
  rewrite HKw in Hst.
  injection Hbs as <-. injection Hcb as <-. injection Hgi as <-.
  cbn in Hrd. injection Hrd as <-.
  rewrite Hsize in Hst.
  assert (Hid : f p size ≠ 0).
  { assert (Hinst : installed st 0 (mkRegion p size BLOCK_DEFAULT (f p size))).
    { rewrite Hst. split; [simpl; lia|done]. }
    by destruct (inv_regions _ _ HI _ _ Hinst) as (_ & _ & _ & _ & ? & _). }
  split_and!; try (rewrite Hst; done); try done.
  - intros c Hc. split.
    + unfold GetBlockSize.
      rewrite (info_block_sizes st _ HI ltac:(by rewrite Hst)).
      by apply class_sizes_lookup_lt.
    + rewrite (GetGlobalLen_sum st _ c HI ltac:(by rewrite Hst) Hc).
      unfold idle_sum. cbn -[replicate sumZ].
      destruct c as [|[|[|[|c]]]]; [..|unfold BLOCK_SIZE_COUNT in Hc; lia];
        cbn -[replicate sumZ]; by rewrite sumZ_replicate_0.
Qed.

(** ** The outcomes of AllocBlock and DeallocBlock *)

Lemma AllocBlock_loop_cases st size rnd mem i sizes p st' :
  AllocBlock_loop st size rnd mem i sizes = Some (p, st') →
  (p = NULL ∧ st' = st) ∨ ∃ c, AllocBlockFrom st c rnd mem = Some (p, st').
Proof.
  revert i. induction sizes as [|bs sizes IH]; intros i; simpl.
  - intros [= <- <-]. by left.
  - case_decide; [|apply IH]. intros Ha. right. by exists i.
Qed.

Lemma AllocBlock_cases st size rnd mem p st' :
  AllocBlock st size rnd mem = Some (p, st') →
  (p = NULL ∧ (st' = st ∨ st' = set_errno EINVAL st)) ∨
  ∃ c, AllocBlockFrom st c rnd mem = Some (p, st').
Proof.
  unfold AllocBlock.
  destruct (g_block_size st !! _) as [last|]; simpl; [|done].
  case_decide.
  - intros [= <- <-]. left. split; [done|by right].
  - intros [[-> ->]|?]%AllocBlock_loop_cases; [left|by right].
    split; [done|by left].
Qed.

Lemma DeallocBlock_cases st buf res st' :
  Inv B st → DeallocBlock st buf = Some (res, st') →
  (res = -1 ∧ (st' = set_errno EINVAL st ∨ st' = set_errno ERANGE st)) ∨
  (res = 0 ∧ ∃ i r, installed st i r ∧ in_region r buf ∧
     ((node_pool st = 0%nat ∧ st' = st) ∨
      ∃ pool gi row next,
        node_pool st = S pool ∧ g_info st = Some gi ∧
        idle_list gi !! r_block_type r = Some row ∧
        0 ≤ bucket_of st r buf < g_buckets st ∧
        row !! Z.to_nat (bucket_of st r buf) = Some next ∧
        Inv B st' ∧
        st' = set_info
                (mkGlobalInfo
                   (<[r_block_type r :=
                        <[Z.to_nat (bucket_of st r buf) :=
                            mkIdleNode buf (class_size B (r_block_type r))
                            :: next]> row]>
                      (idle_list gi))
                   (ready_list gi))
                (set_node_pool pool st))).
Proof.
  intros HI Hd.
  destruct (decide (buf = NULL)) as [->|Hnz].
  { revert Hd. unfold DeallocBlock. rewrite decide_True by done.
    intros [= <- <-]. left. split; [done|by left]. }
  destruct (GetRegion st buf) as [[r|] st0] eqn:Hg.
  - assert (Hl : (GetRegion st buf).1 = Some r) by by rewrite Hg.
    destruct (located_in_region st buf r HI Hl) as (i & Hinst & Hin).
    pose proof (DeallocBlock_in_region st buf i r HI Hinst Hin) as Hd'.
    right. destruct (node_pool st) as [|pool] eqn:Hpool; simpl in Hd'.
    + rewrite Hd' in Hd. injection Hd as <- <-. split; [done|].
      exists i, r. split_and!; [done..|]. by left.
    + destruct Hd' as (gi & row & next & Hgi & Hrow & Hb & Hnext & Hd' & HI').
      rewrite Hd' in Hd. injection Hd as <- <-. split; [done|].
      exists i, r. do 2 (split; [done|]). right.
      exists pool, gi, row, next. by do 6 (split; [done|]).
  - revert Hd. unfold DeallocBlock. rewrite decide_False by done.
    rewrite Hg. intros [= <- <-]. left. split; [done|]. right.
    revert Hg. unfold GetRegion. rewrite decide_False by done.
    by intros [= _ <-].
Qed.

(** ** The live memory *)

Lemma region_blocks_frame st st' :
  g_regions st' = g_regions st → g_region_num st' = g_region_num st →
  region_blocks st' = region_blocks st.
Proof. intros Hr Hn. unfold region_blocks. by rewrite Hr, Hn. Qed.

Lemma region_blocks_extend st r :
  Inv B st → g_region_num st ≠ g_max_regions st →
  reverse ((λ r, (r_start r, r_size r))
           <$> take (Z.to_nat (g_region_num st + 1))
                 (<[Z.to_nat (g_region_num st) := r]> (g_regions st)))
  = (r_start r, r_size r) :: region_blocks st.
Proof.
  intros HI Hnum. unfold region_blocks.
  pose proof (inv_num _ _ HI) as Hn. pose proof (inv_len _ _ HI) as Hlen.
  pose proof (inv_max _ _ HI) as Hmax.
  replace (Z.to_nat (g_region_num st + 1))
    with (S (Z.to_nat (g_region_num st))) by lia.
  rewrite (take_S_r _ _ r)
    by (apply list_lookup_insert_eq; unfold MAX_REGIONS in *; lia).
  rewrite take_insert_ge by lia.
  by rewrite fmap_app, reverse_app.
Qed.

Lemma ExtendBlockPool_heap st m c mem p st' :
  Inv B st → mem_contract st mem →
  ExtendBlockPool st m c mem = Some (p, st') →
  heap st = region_blocks st → heap st' = region_blocks st'.
Proof.
  intros HI Hmem Hext Hh.
  destruct (decide (p = NULL)) as [->|Hp].
  - by destruct (ExtendBlockPool_null st m c mem st' Hmem Hext)
      as [[_ ->]|[(_ & _ & ->)|(_ & _ & bs & _ &
                                [[_ ->]|(? & ? & _ & _ & _ & ->)])]].
  - destruct (ExtendBlockPool_success _ _ _ _ _ _ Hext Hp)
      as (gi & ready & bs & pool & cb & Hgi & Hrd & Hbs & Hcb & Hnum & ->).
    unfold region_blocks at 1. simpl.
    rewrite (region_blocks_extend st _ HI Hnum). simpl. by rewrite Hh.
Qed.

Lemma AllocBlockFrom_heap st c rnd mem p st' :
  Inv B st → mem_contract st mem →
  AllocBlockFrom st c rnd mem = Some (p, st') →
  heap st = region_blocks st → heap st' = region_blocks st'.
Proof.
  intros HI Hmem Ha Hh.
  destruct (AllocBlockFrom_paths st c rnd mem p st' HI Hmem Ha)
    as [[_ Hf]|[[_ Hf]|(_ & _ & _ & q & st2 & Hext & HI2 & Hrest)]].
  - destruct (from_idle_frame _ _ _ _ _ Hf) as (Hr & Hn & -> & _).
    by rewrite (region_blocks_frame st st').
  - destruct (from_ready_frame _ _ _ _ _ Hf) as (Hr & Hn & -> & _).
    by rewrite (region_blocks_frame st st').
  - pose proof (ExtendBlockPool_heap _ _ _ _ _ _ HI Hmem Hext Hh) as Hh2.
    destruct Hrest as [(_ & _ & ->)|(_ & _ & Hf)]; [done|].
    destruct (from_ready_frame _ _ _ _ _ Hf) as (Hr & Hn & -> & _).
    by rewrite (region_blocks_frame st2 st').
Qed.

Lemma reachable_heap st : reachable B st → heap st = region_blocks st.
Proof.
  induction 1 as [fl e pool Hfl|st op res st' Hreach IH Henv Hrun]; [done|].
  pose proof (reachable_Inv st Hreach) as HI.
  destruct op as [cb info mem|size rnd mem|buf|c index|buf|buf]; simpl in *.
  - revert Hrun. unfold InitBlockPool.
    destruct cb as [f|]; [|by intros [= <- <-]].
    destruct (g_cb st) as [g|] eqn:Hcb; [by intros [= <- <-]|].
    destruct info; [|by intros [= <- <-]].
    destruct (init_state_Inv st f HI Hcb) as [_ HI1].
    intros Hext.
    by apply (ExtendBlockPool_heap _ _ _ _ _ _ HI1 Henv Hext).
  - destruct (AllocBlock_cases _ _ _ _ _ _ Hrun) as [[_ [->| ->]]|[c Ha]];
      [done..|].
    by eapply AllocBlockFrom_heap.
  - destruct (DeallocBlock_cases st buf res st' HI Hrun)
      as [[_ [->| ->]]|(_ & i & r & _ & _ & [[_ ->]|Hpush])]; [done..|].
    by destruct Hpush as (? & ? & ? & ? & _ & _ & _ & _ & _ & _ & ->).
  - destruct (PickReadyBlocks st c index) as [s|] eqn:Hp; simpl in Hrun; [|done].
    injection Hrun as <- <-.
    destruct (PickReadyBlocks_keeps _ _ _ _ Hp) as (Hr & Hn & _ & _ & -> & _).
    by rewrite (region_blocks_frame st s).
  - revert Hrun. unfold GetRegionId, GetRegion. case_decide; simpl.
    + by intros [= <- <-].
    + destruct (GetRegion_scan _ _ _); by intros [= <- <-].
  - revert Hrun. unfold GetBlockType, GetRegion. case_decide; simpl.
    + by intros [= <- <-].
    + destruct (GetRegion_scan _ _ _); by intros [= <- <-].
Qed.

(** X9. In every state that the calls reach, the live blocks that
    posix_memalign has given are the memory of the installed regions,
    one block a region and the latest first: an extension that fails
    frees what it took, and no call frees the memory of a region. *)
Theorem heap_is_regions st :
  reachable B st →
  heap st = region_blocks st ∧
  Z.of_nat (length (heap st)) = GetRegionNum st ∧
  ∀ b s, (b, s) ∈ heap st ↔
         ∃ i r, installed st i r ∧ b = r_start r ∧ s = r_size r.
Proof.
  intros Hreach. pose proof (reachable_Inv st Hreach) as HI.
  pose proof (reachable_heap st Hreach) as Hh.
  pose proof (inv_num _ _ HI) as Hn. pose proof (inv_len _ _ HI) as Hlen.
  pose proof (inv_max _ _ HI) as Hmax.
  split; [done|]. rewrite Hh. unfold region_blocks, GetRegionNum. split.
  - rewrite length_reverse, length_fmap, length_take.
    unfold MAX_REGIONS in *. lia.
  - intros b s. rewrite elem_of_reverse, list_elem_of_fmap. split.
    + intros (r & [= -> ->] & [i Hi]%list_elem_of_lookup_1).
      apply lookup_take_Some in Hi as [Hi Hlt].
      exists i, r. split; [split; [lia|done]|done].
    + intros (i & r & [Hi Hl] & -> & ->). exists r. split; [done|].
      apply (list_elem_of_lookup_2 _ i). apply lookup_take_Some.
      split; [done|lia].
Qed.

(** ** DestroyBlockPool *)

Lemma return_nodes_count l pool :
  Z.of_nat (return_nodes l pool) = Z.of_nat pool + sumZ (λ _, 1) l.
Proof.
  revert pool. induction l as [|n l IH]; intros pool; simpl; [lia|].
  rewrite IH. unfold return_object. lia.
Qed.

Lemma destroy_row_count n j row pool :
  (j + n ≤ length row)%nat →
  ∃ pool', destroy_row n j row pool = Some pool' ∧
           Z.of_nat pool'
           = Z.of_nat pool + sumZ (sumZ (λ _, 1)) (take n (drop j row)).
Proof.
  revert j pool. induction n as [|n IH]; intros j pool Hj; simpl.
  - exists pool. split; [done|lia].
  - destruct (lookup_lt_is_Some_2 row j) as [l Hl]; [lia|].
    rewrite Hl. simpl.
    destruct (IH (S j) (return_nodes l pool)) as (pool' & -> & Hc); [lia|].
    exists pool'. split; [done|].
    rewrite Hc, return_nodes_count, (drop_S row l j Hl). simpl. lia.
Qed.

Lemma destroy_lists_count n i K gi pool :
  (i + n ≤ length (idle_list gi))%nat → (i + n ≤ length (ready_list gi))%nat →
  (∀ c row, idle_list gi !! c = Some row → length row = K) →
  ∃ pool', destroy_lists n i K gi pool = Some pool' ∧
           Z.of_nat pool'
           = Z.of_nat pool
             + sumZ (sumZ (sumZ (λ _, 1))) (take n (drop i (idle_list gi)))
             + sumZ (sumZ (λ _, 1)) (take n (drop i (ready_list gi))).
Proof.
  intros Hi Hr Hrow. revert i pool Hi Hr.
  induction n as [|n IH]; intros i pool Hi Hr; simpl.
  - exists pool. split; [done|lia].
  - destruct (lookup_lt_is_Some_2 (idle_list gi) i) as [row Hl]; [lia|].
    destruct (lookup_lt_is_Some_2 (ready_list gi) i) as [ready Hrd]; [lia|].
    rewrite Hl. simpl.
    destruct (destroy_row_count K 0 row pool) as (pool1 & -> & Hc1).
    { rewrite (Hrow i row Hl). lia. }
    simpl. rewrite Hrd. simpl.
    destruct (IH (S i) (return_nodes ready pool1)) as (pool' & -> & Hc);
      [lia..|].
    exists pool'. split; [done|].
    rewrite Hc, return_nodes_count, Hc1.
    rewrite (drop_S _ row i Hl), (drop_S _ ready i Hrd). simpl.
    rewrite drop_0, firstn_all2 by (rewrite (Hrow i row Hl); lia). lia.
Qed.

Lemma free_last p s h :
  (∀ b, b ∈ h → b.1 ≠ p) → free p (h ++ [(p, s)]) = h.
Proof.
  induction h as [|b h IH]; intros Hne; simpl.
  - by rewrite decide_True.
  - rewrite decide_False by (apply Hne; by left).
    rewrite IH; [done|]. intros b' Hb'. apply Hne. by right.
Qed.

Lemma destroy_regions_all n i rs :
  (i + n ≤ length rs)%nat →
  (∀ j r, (i ≤ j < i + n)%nat → rs !! j = Some r → r_start r ≠ 0) →
  (∀ j k r r', (i ≤ j < k)%nat → (k < i + n)%nat →
     rs !! j = Some r → rs !! k = Some r' → r_start r ≠ r_start r') →
  ∃ rs',
    destroy_regions n i rs
      (reverse ((λ r, (r_start r, r_size r)) <$> take n (drop i rs)))
    = Some (rs', []) ∧
    length rs' = length rs ∧
    ∀ j r, rs' !! j = Some r →
      ((i ≤ j < i + n)%nat → r_start r = 0) ∧
      (¬ (i ≤ j < i + n)%nat → rs !! j = Some r).
Proof.
  revert i rs. induction n as [|n IH]; intros i rs Hlen Hnz Hdist; simpl.
  - exists rs. split_and!; [done..|]. intros j r Hj. split; [lia|done].
  - destruct (lookup_lt_is_Some_2 rs i) as [r Hr]; [lia|].
    rewrite Hr. simpl. rewrite decide_False by (apply (Hnz i); [lia|done]).
    rewrite (drop_S rs r i Hr). simpl. rewrite reverse_cons.
    rewrite free_last.
    2:{ intros b Hb. apply elem_of_reverse, list_elem_of_fmap in Hb
          as (r' & -> & Hr').
        apply list_elem_of_lookup_1 in Hr' as [k Hk].
        apply lookup_take_Some in Hk as [Hk Hkn].
        rewrite lookup_drop in Hk. simpl. symmetry.
        apply (Hdist i (S i + k)%nat r r'); [lia|lia|done|done]. }
    set (rs1 := <[i := mkRegion 0 (r_size r) (r_block_type r) (r_id r)]> rs).
    assert (Hdrop : drop (S i) rs = drop (S i) rs1).
    { subst rs1. by rewrite drop_insert_lt by lia. }
    rewrite Hdrop.
    destruct (IH (S i) rs1) as (rs' & Hd' & Hlen' & Hrs').
    + subst rs1. rewrite length_insert. lia.
    + intros j r' Hj Hl. subst rs1.
      rewrite list_lookup_insert_ne in Hl by lia. apply (Hnz j); [lia|done].
    + intros j k r1 r2 Hj Hk Hl1 Hl2. subst rs1.
      rewrite list_lookup_insert_ne in Hl1, Hl2 by lia.
      apply (Hdist j k); [lia|lia|done|done].
    + exists rs'. split; [exact Hd'|]. split.
      { rewrite Hlen'. subst rs1. by rewrite length_insert. }
      intros j r' Hl. destruct (Hrs' j r' Hl) as [Hin Hout].
      destruct (decide (j = i)) as [->|Hne].
      * split; [|lia]. intros _.
        assert (Hl1 : rs1 !! i = Some r') by (apply Hout; lia).
        subst rs1. rewrite list_lookup_insert_eq in Hl1 by lia.
        by injection Hl1 as <-.
      * split; [intros ?; apply Hin; lia|].
        intros Hno. assert (Hl1 : rs1 !! j = Some r') by (apply Hout; lia).
        subst rs1. by rewrite list_lookup_insert_ne in Hl1.
Qed.

(** The state that DestroyBlockPool leaves. *)
Lemma DestroyBlockPool_state st gi :
  Inv B st → heap st = region_blocks st → g_info st = Some gi →
  ∃ rs pool,
    DestroyBlockPool st
    = Some (mkState (flags st) (g_buckets st) (g_max_regions st) rs 0 None
              (g_block_size st) None (errno st) [] pool) ∧
    Z.of_nat pool = Z.of_nat (node_pool st) + nodes_count st ∧
    length rs = length (g_regions st) ∧
    ∀ j r, rs !! j = Some r → r_start r = 0.
Proof.
  intros HI Hheap Hgi. unfold nodes_count. rewrite Hgi.
  pose proof (inv_info _ _ HI) as Hinfo. rewrite Hgi in Hinfo.
  destruct Hinfo as (_ & _ & Hil & Hrow & Hrl & _).
  destruct (destroy_lists_count BLOCK_SIZE_COUNT 0 (Z.to_nat (g_buckets st)) gi
              (node_pool st)) as (pool & Hdl & Hpool); [lia|lia|done|].
  rewrite !drop_0, !firstn_all2 in Hpool by lia.
  pose proof (inv_num _ _ HI) as Hn. pose proof (inv_len _ _ HI) as Hlen.
  pose proof (inv_max _ _ HI) as Hmax.
  destruct (destroy_regions_all (Z.to_nat (g_region_num st)) 0 (g_regions st))
    as (rs & Hd & Hlen' & Hrs).
  - unfold MAX_REGIONS in *. lia.
  - intros j r Hj Hl.
    assert (Hinst : installed st j r) by (split; [lia|done]).
    destruct (inv_regions _ _ HI _ _ Hinst) as (? & _). lia.
  - intros j k r r' Hj Hk Hl Hl'.
    assert (Hinst : installed st j r) by (split; [lia|done]).
    assert (Hinst' : installed st k r') by (split; [lia|done]).
    pose proof (inv_disjoint _ _ HI j k r r' Hinst Hinst' ltac:(lia)) as Hdj.
    unfold footprint_disjoint in Hdj. lia.
  - rewrite drop_0 in Hd. fold (region_blocks st) in Hd. rewrite <- Hheap in Hd.
    exists rs, pool. split.
    { unfold DestroyBlockPool. rewrite Hgi.
      cbn -[destroy_lists destroy_regions]. rewrite Hdl.
      cbn -[destroy_regions]. by rewrite Hd. }
    split; [unfold nodes_sum; lia|]. split; [done|].
    intros j r Hl. destruct (Hrs j r Hl) as [Hin Hout].
    destruct (decide (j < Z.to_nat (g_region_num st))%nat); [apply Hin; lia|].
    apply (inv_unused _ _ HI j r); [apply Hout|]; lia.
Qed.

(** X10. DestroyBlockPool gives everything back: called on a pool whose
    GlobalInfo exists, it frees the memory of every region, so that no
    block of posix_memalign stays live, returns every IdleNode object of
    the idle and ready lists to the object pool, empties the region
    table and forgets the callback; the flags, g_buckets, g_max_regions,
    the block sizes and errno stay. Without a GlobalInfo the call has no
    defined behaviour. *)
Theorem DestroyBlockPool_releases st :
  reachable B st →
  (g_info st = None → DestroyBlockPool st = None) ∧
  (is_Some (g_info st) →
   ∃ st', DestroyBlockPool st = Some st' ∧
     heap st' = [] ∧
     Z.of_nat (node_pool st') = Z.of_nat (node_pool st) + nodes_count st ∧
     GetRegionNum st' = 0 ∧ g_cb st' = None ∧ g_info st' = None ∧
     (∀ r, r ∈ g_regions st' → r_start r = 0) ∧
     flags st' = flags st ∧ g_buckets st' = g_buckets st ∧
     g_max_regions st' = g_max_regions st ∧
     g_block_size st' = g_block_size st ∧ errno st' = errno st).
Proof.
  intros Hreach. split.
  - intros Hgi. unfold DestroyBlockPool. by rewrite Hgi.
  - intros [gi Hgi].
    destruct (DestroyBlockPool_state st gi (reachable_Inv st Hreach)
                (reachable_heap st Hreach) Hgi) as (rs & pool & -> & Hpool & _ & Hrs).
    eexists. split; [done|]. simpl. split_and!; try done.
    intros r [j Hj]%list_elem_of_lookup_1. by eapply Hrs.
Qed.

Lemma GetRegion_scan_cleared n rs addr :
  (∀ j r, rs !! j = Some r → r_start r = 0) → GetRegion_scan n rs addr = None.
Proof.
  intros Hrs. destruct n as [|n], rs as [|r rs]; simpl; try done.
  by rewrite decide_True by (by apply (Hrs 0%nat)).
Qed.

(** X11. After DestroyBlockPool no pointer belongs to the pool:
    GetRegionId is 0 and GetBlockType is -1 for every pointer, and
    DeallocBlock returns -1, with errno EINVAL for NULL and ERANGE
    otherwise, and changes nothing else. The block sizes are still set, so
    an AllocBlock of a size between 1 and 8B passes the size check and
    reads the deleted GlobalInfo, as does a second DestroyBlockPool:
    neither has a defined behaviour. *)
Theorem after_DestroyBlockPool st st' p :
  reachable B st → DestroyBlockPool st = Some st' →
  (GetRegionId st' p).1 = 0 ∧ (GetBlockType st' p).1 = -1 ∧
  DeallocBlock st' p
  = Some (-1, set_errno (if decide (p = NULL) then EINVAL else ERANGE) st') ∧
  (∀ size rnd mem, 0 < size ≤ B * 8 → AllocBlock st' size rnd mem = None) ∧
  DestroyBlockPool st' = None.
Proof.
  intros Hreach Hd. pose proof (reachable_Inv st Hreach) as HI.
  destruct (g_info st) as [gi|] eqn:Hgi.
  2:{ revert Hd. unfold DestroyBlockPool. by rewrite Hgi. }
  destruct (DestroyBlockPool_state st gi HI (reachable_heap st Hreach) Hgi)
    as (rs & pool & Hd' & Hpool & _ & Hrs).
  rewrite Hd' in Hd. injection Hd as <-.
  assert (Hg : ∀ q, q ≠ NULL →
            GetRegion (mkState (flags st) (g_buckets st) (g_max_regions st) rs 0
                         None (g_block_size st) None (errno st) [] pool) q
            = (None, mkState (flags st) (g_buckets st) (g_max_regions st) rs 0
                       None (g_block_size st) None (errno st) [] pool)).
  { intros q Hq. unfold GetRegion. rewrite decide_False by done. simpl.
    by rewrite GetRegion_scan_cleared. }
  split_and!.
  - unfold GetRegionId. destruct (decide (p = NULL)) as [->|Hp]; [done|].
    by rewrite Hg.
  - unfold GetBlockType. destruct (decide (p = NULL)) as [->|Hp]; [done|].
    by rewrite Hg.
  - unfold DeallocBlock. case_decide; [done|]. by rewrite Hg.
  - intros size rnd mem Hsize.
    match goal with |- AllocBlock ?s _ _ _ = _ => set (s' := s) end.
    assert (Hnone : ∀ c, AllocBlockFrom s' c rnd mem = None).
    { intros c. unfold AllocBlockFrom. case_decide; [done|]. by unfold idle_at. }
    destruct (AllocBlock s' size rnd mem) as [[q s'']|] eqn:Ha; [|done].
    exfalso. revert Ha. unfold AllocBlock.
    change (g_block_size s') with (g_block_size st).
    rewrite (info_block_sizes st gi HI Hgi). simpl.
    rewrite decide_False by lia. rewrite !Hnone.
    repeat case_decide; try done. lia.
  - done.
Qed.

(** X12. InitBlockPool can be called again after DestroyBlockPool, and
    the flags may change in between, but the globals are not reset: the
    cap on the regions is the smaller of the former cap and the new flag
    (at least 1), so it never rises, and g_buckets keeps its former value
    when the new flag is below 1. A call that returns a region leaves that
    region alone in the table and its memory as the only live block. *)
Theorem InitBlockPool_after_Destroy st st1 fl f mem p st2 :
  reachable B st → DestroyBlockPool st = Some st1 →
  InitBlockPool B (set_flags fl st1) (Some f) true mem = Some (p, st2) →
  p ≠ NULL →
  GetRegionNum st2 = 1 ∧
  g_max_regions st2
  = Z.min (g_max_regions st) (Z.max 1 (FLAGS_rdma_memory_pool_max_regions fl)) ∧
  g_buckets st2
  = (if decide (FLAGS_rdma_memory_pool_buckets fl >= 1)
     then FLAGS_rdma_memory_pool_buckets fl else g_buckets st) ∧
  ∃ size, g_regions st2 !! 0%nat = Some (mkRegion p size BLOCK_DEFAULT (f p size)) ∧
          heap st2 = [(p, size)].
Proof.
  intros Hreach Hd Hinit Hp. pose proof (reachable_Inv st Hreach) as HI.
  destruct (g_info st) as [gi|] eqn:Hgi.
  2:{ revert Hd. unfold DestroyBlockPool. by rewrite Hgi. }
  destruct (DestroyBlockPool_state st gi HI (reachable_heap st Hreach) Hgi)
    as (rs & pool & Hd' & Hpool & Hlen & Hrs).
  rewrite Hd' in Hd. injection Hd as <-.
  revert Hinit. unfold InitBlockPool, set_flags.
  cbn [g_cb flags g_buckets g_max_regions g_regions g_region_num errno heap
       node_pool g_block_size g_info clamp_flags FLAGS_rdma_memory_pool_buckets
       FLAGS_rdma_memory_pool_max_regions
       FLAGS_rdma_memory_pool_initial_size_mb].
  intros Hext.
  destruct (ExtendBlockPool_success _ _ _ _ _ _ Hext Hp)
    as (gi' & ready & bs & pool' & cb & Hgi' & Hrd & Hbs & Hcb & Hnum & ->).
  injection Hcb as <-.
  cbn. split_and!; try done.
  - repeat case_decide; lia.
  - eexists. split; [|done].
    apply list_lookup_insert_eq. rewrite Hlen, (inv_len _ _ HI).
    unfold MAX_REGIONS. lia.
Qed.

(** ** Bytes and their owners *)

Lemma covers_range a start len : 0 ≤ covers a start len ≤ 1.
Proof. unfold covers. case_decide; lia. Qed.

Lemma covers_split a start len cs :
  0 ≤ cs ≤ len →
  covers a start len = covers a start cs + covers a (start + cs) (len - cs).
Proof. intros H. unfold covers. repeat case_decide; lia. Qed.

Lemma covers_empty a start : covers a start 0 = 0.
Proof. unfold covers. case_decide; lia. Qed.

Lemma sumZ_reverse {A} (f : A → Z) l : sumZ f (reverse l) = sumZ f l.
Proof.
  induction l as [|x l IH]; [done|].
  rewrite reverse_cons, sumZ_app. simpl. lia.
Qed.

Lemma sumZ_fmap {A C} (f : C → Z) (g : A → C) l :
  sumZ f (g <$> l) = sumZ (λ x, f (g x)) l.
Proof. induction l as [|x l IH]; simpl; [done|]. f_equal. exact IH. Qed.

Lemma sumZ_zero {A} (f : A → Z) l : (∀ x, x ∈ l → f x = 0) → sumZ f l = 0.
Proof.
  induction l as [|x l IH]; intros Hf; simpl; [done|].
  rewrite (Hf x) by (by left). rewrite IH; [done|].
  intros y Hy. apply Hf. by right.
Qed.

(** The extents of the buckets tile the region. *)
Lemma covers_extents a p E n i :
  0 ≤ E → 0 ≤ i →
  sumZ (λ j, covers a (p + j * E) E) (seqZ i (Z.of_nat n))
  = covers a (p + i * E) (Z.of_nat n * E).
Proof.
  intros HE. revert i. induction n as [|n IH]; intros i Hi.
  - simpl. by rewrite covers_empty.
  - rewrite (seqZ_cons i (Z.of_nat (S n))) by lia.
    replace (Z.pred (Z.of_nat (S n))) with (Z.of_nat n) by lia.
    simpl. rewrite IH by lia.
    rewrite (covers_split a (p + i * E) (Z.of_nat (S n) * E) E) by nia.
    do 2 f_equal; lia.
Qed.

Lemma sumZ_le_1 {A} (f : A → Z) l :
  (∀ x, x ∈ l → 0 ≤ f x ≤ 1) →
  (∀ i j x y, (i < j)%nat → l !! i = Some x → l !! j = Some y →
     f x = 1 → f y = 1 → False) →
  0 ≤ sumZ f l ≤ 1.
Proof.
  induction l as [|x l IH]; intros Hr Hd; simpl; [lia|].
  pose proof (Hr x ltac:(by left)).
  destruct (decide (f x = 1)) as [H1|H1].
  - rewrite (sumZ_zero f l); [lia|].
    intros y [j Hj]%list_elem_of_lookup_1.
    pose proof (Hr y ltac:(right; by eapply list_elem_of_lookup_2)).
    destruct (decide (f y = 1)) as [Hy|Hy]; [|lia].
    exfalso. apply (Hd 0%nat (S j) x y); [lia|done..].
  - assert (0 ≤ sumZ f l ≤ 1); [|lia].
    apply IH.
    + intros y Hy. apply Hr. by right.
    + intros i j y z Hij Hi Hj. apply (Hd (S i) (S j)); [lia|done..].
Qed.

Lemma region_cover_range st a : Inv B st → 0 ≤ region_cover a st ≤ 1.
Proof.
  intros HI. unfold region_cover. apply sumZ_le_1.
  - intros r _. apply covers_range.
  - intros i j r r' Hij Hi Hj.
    apply lookup_take_Some in Hi as [Hi Hilt].
    apply lookup_take_Some in Hj as [Hj Hjlt].
    assert (Hinst : installed st i r) by (split; [lia|done]).
    assert (Hinst' : installed st j r') by (split; [lia|done]).
    pose proof (inv_disjoint _ _ HI i j r r' Hinst Hinst' ltac:(lia)) as Hd.
    unfold covers, footprint_disjoint in *. repeat case_decide; lia.
Qed.

Lemma region_cover_in st a i r :
  Inv B st → installed st i r → in_region r a → region_cover a st = 1.
Proof.
  intros HI [Hi Hl] Hin.
  pose proof (region_cover_range st a HI) as Hr.
  assert (covers a (r_start r) (r_size r)
          ≤ sumZ (λ r, covers a (r_start r) (r_size r))
              (take (Z.to_nat (g_region_num st)) (g_regions st))).
  { apply (sumZ_elem_of_le (λ r, covers a (r_start r) (r_size r))).
    - intros y _. apply covers_range.
    - apply (list_elem_of_lookup_2 _ i). apply lookup_take_Some.
      split; [done|lia]. }
  unfold region_cover in *. unfold covers, in_region in *.
  rewrite decide_True in H by done. lia.
Qed.

Lemma region_cover_frame st st' a :
  g_regions st' = g_regions st → g_region_num st' = g_region_num st →
  region_cover a st' = region_cover a st.
Proof. intros Hr Hn. unfold region_cover. by rewrite Hr, Hn. Qed.

Lemma region_cover_extend st a r :
  Inv B st → g_region_num st ≠ g_max_regions st →
  sumZ (λ r, covers a (r_start r) (r_size r))
    (take (Z.to_nat (g_region_num st + 1))
       (<[Z.to_nat (g_region_num st) := r]> (g_regions st)))
  = region_cover a st + covers a (r_start r) (r_size r).
Proof.
  intros HI Hnum. unfold region_cover.
  pose proof (inv_num _ _ HI) as Hn. pose proof (inv_len _ _ HI) as Hlen.
  pose proof (inv_max _ _ HI) as Hmax.
  replace (Z.to_nat (g_region_num st + 1))
    with (S (Z.to_nat (g_region_num st))) by lia.
  rewrite (take_S_r _ _ r)
    by (apply list_lookup_insert_eq; unfold MAX_REGIONS in *; lia).
  rewrite take_insert_ge by lia.
  rewrite sumZ_app. simpl. lia.
Qed.

(** ** The pool of a client that gives back what it was given *)

Lemma sumZ_one {A} (l : list A) : sumZ (λ _, 1) l = Z.of_nat (length l).
Proof. induction l as [|x l IH]; simpl; lia. Qed.

Lemma aligned_frame st st' addr :
  (∀ i r, installed st i r → installed st' i r) →
  aligned B st addr → aligned B st' addr.
Proof. intros Hm (i & r & Hinst & Hin & Hmod). exists i, r. eauto. Qed.

Lemma installed_frame st st' i r :
  g_regions st' = g_regions st → g_region_num st' = g_region_num st →
  installed st i r → installed st' i r.
Proof. intros Hr Hn [Hi Hl]. split; [by rewrite Hn|by rewrite Hr]. Qed.

Lemma block_len_in st i r p :
  Inv B st → installed st i r → in_region r p →
  block_len st p = class_size B (r_block_type r).
Proof.
  intros HI Hinst Hin. unfold block_len.
  rewrite (GetRegion_in_region st p i r HI Hinst Hin). simpl.
  destruct (installed_info st i r HI Hinst) as (gi & Hgi & _).
  rewrite (info_block_sizes st gi HI Hgi).
  destruct (inv_regions _ _ HI _ _ Hinst) as (_ & _ & _ & Hc & _).
  by rewrite (class_sizes_lookup_lt _ Hc).
Qed.

Lemma client_inv_errno pool st out e :
  client_inv B pool st out → client_inv B pool (set_errno e st) out.
Proof. intros [H1 H2 H3 H4]. by split. Qed.

Lemma carve_part (f : IdleNode → Z) c n next :
  sumZ f (carve B c n next) = sumZ f (carve B c n []) + sumZ f next.
Proof. unfold carve. case_decide; simpl; lia. Qed.

Lemma carve_count c n pool :
  Z.of_nat (carve_pool B c n pool) + sumZ (λ _, 1) (carve B c n [])
  = Z.of_nat pool + 1.
Proof. unfold carve, carve_pool. case_decide; simpl; lia. Qed.

Lemma carve_covers a c n :
  class_size B c ≤ n_len n →
  covers a (n_start n) (class_size B c) + sumZ (node_covers a) (carve B c n [])
  = node_covers a n.
Proof.
  intros Hge. pose proof (class_size_pos c). unfold carve, node_covers.
  case_decide; simpl.
  - rewrite (covers_split a (n_start n) (n_len n) (class_size B c)) by lia. lia.
  - replace (n_len n) with (class_size B c) by lia. lia.
Qed.

(** A block taken from a node whose start is a whole number of blocks
    from the start of its region, and that lies in the region, leaves
    such a node. *)
Lemma carve_aligned st c n next n0 i r :
  Inv B st → installed st i r → r_block_type r = c →
  in_region r (n_start n) →
  (n_start n - r_start r) mod class_size B c = 0 →
  n_start n + n_len n ≤ r_start r + r_size r →
  (∀ n1, n1 ∈ next → aligned B st (n_start n1)) →
  n0 ∈ carve B c n next → aligned B st (n_start n0).
Proof.
  intros HI Hinst Hc Hin Hmod Hend Hnext. unfold carve.
  pose proof (class_size_pos c) as Hcs.
  case_decide; [|apply Hnext].
  intros [->|?]%elem_of_cons; [|by apply Hnext].
  exists i, r. simpl. split; [done|]. split.
  - unfold in_region in *. lia.
  - rewrite Hc.
    replace (n_start n + class_size B c - r_start r)
      with (n_start n - r_start r + 1 * class_size B c) by lia.
    by rewrite Z.mod_add by lia.
Qed.

Lemma client_inv_from_idle pool st out c index p st' :
  Inv B st → Inv B st' → from_idle B st c index p st' →
  client_inv B pool st out →
  client_inv B pool st' ((p, block_len st' p) :: out).
Proof.
  intros HI HI' Hf [Hnodes Hown Hidle Hout].
  pose proof (from_idle_frame _ _ _ _ _ Hf) as (Hrs & Hnum & _).
  destruct Hf as (gi & row & n & next & Hgi & Hrow & Hidx & Hl & Hp & Hge & Hst').
  pose proof (inv_info _ _ HI) as Hinfo. rewrite Hgi in Hinfo.
  destruct Hinfo as (_ & _ & _ & _ & _ & Hnodes_ok & _).
  destruct (Hnodes_ok c _ row _ n Hrow Hl ltac:(by left))
    as (i & r & Hinst & Hc & Hin & _ & _ & Hext).
  destruct (Hidle gi c _ row _ n Hgi Hrow Hl ltac:(by left))
    as (i' & r' & Hinst' & Hin' & Hmod).
  destruct (installed_unique st _ i' i r' r HI Hinst' Hinst Hin' Hin) as [-> ->].
  rewrite Hc in Hmod.
  pose proof (installed_frame st st' i r Hrs Hnum Hinst) as Hinst2.
  assert (Hbl : block_len st' p = class_size B c).
  { rewrite <- Hc. apply (block_len_in st' i r p HI' Hinst2). by rewrite Hp. }
  assert (Hmono : ∀ j r0, installed st j r0 → installed st' j r0).
  { intros j r0. by apply installed_frame. }
  assert (Hend : class_size B c < n_len n →
                 n_start n + n_len n ≤ r_start r + r_size r).
  { intros Hlt. destruct (Hext Hlt) as [_ Hhi].
    pose proof (inv_regions _ _ HI _ _ Hinst) as Hok.
    pose proof (inv_buckets _ _ HI) as HK.
    pose proof (region_size_extent st r HI Hok) as HE.
    pose proof Hok as (? & ? & _).
    assert (0 ≤ r_size r / g_buckets st) by (apply Z.div_pos; lia).
    rewrite Z2Nat.id in Hhi by lia. nia. }
  rewrite Hbl. split.
  - unfold nodes_count in *. rewrite Hgi in Hnodes. rewrite Hst'. simpl.
    rewrite (nodes_sum_idle _ gi c row _ (n :: next)) by done.
    rewrite carve_part. pose proof (carve_count c n (node_pool st)).
    simpl. lia.
  - intros a. specialize (Hown a).
    unfold free_cover in *. rewrite Hgi in Hown.
    rewrite (region_cover_frame st st' a Hrs Hnum).
    rewrite Hst'. simpl.
    rewrite (nodes_sum_idle _ gi c row _ (n :: next)) by done.
    rewrite carve_part. pose proof (carve_covers a c n Hge).
    unfold out_cover in *. simpl. rewrite Hp. lia.
  - intros gi' c0 b0 row0 l0 n0 Hgi' Hrow0 Hl0 Hn0.
    rewrite Hst' in Hgi'. injection Hgi' as <-. simpl in Hrow0.
    apply (aligned_frame st st' _ Hmono).
    destruct (decide (c0 = c)) as [->|Hnc].
    + rewrite list_lookup_insert_eq in Hrow0 by (by eapply lookup_lt_Some).
      injection Hrow0 as <-.
      destruct (decide (b0 = Z.to_nat index)) as [->|Hnb].
      * rewrite list_lookup_insert_eq in Hl0 by (by eapply lookup_lt_Some).
        injection Hl0 as <-.
        destruct (decide (class_size B c < n_len n)) as [Hlt|Hnlt].
        -- apply (carve_aligned st c n next n0 i r); try done; [by apply Hend|].
           intros n1 Hn1. apply (Hidle gi c _ row _ n1 Hgi Hrow Hl). by right.
        -- unfold carve in Hn0. rewrite decide_False in Hn0 by done.
           apply (Hidle gi c _ row _ n0 Hgi Hrow Hl). by right.
      * rewrite list_lookup_insert_ne in Hl0 by done.
        by apply (Hidle gi c b0 row l0 n0).
    + rewrite list_lookup_insert_ne in Hrow0 by done.
      by apply (Hidle gi c0 b0 row0 l0 n0).
  - intros q len [[= -> ->]|Hq]%elem_of_cons.
    + exists i, r. rewrite Hc, Hp. by split_and!.
    + destruct (Hout q len Hq) as (j & r0 & Hj & ?). exists j, r0.
      split; [by apply Hmono|done].
Qed.

Lemma client_inv_from_ready pool st out c index p st' :
  Inv B st → Inv B st' → from_ready B st c index p st' →
  client_inv B pool st out →
  client_inv B pool st' ((p, block_len st' p) :: out).
Proof.
  intros HI HI' Hf [Hnodes Hown Hidle Hout].
  pose proof (from_ready_frame _ _ _ _ _ Hf) as (Hrs & Hnum & _).
  destruct Hf as (gi & row & ready & pre & node & post & i & r & Hgi & Hrow
                  & Hidx & Hl & Hrd & Hready & _ & Hinst & Hc & Hsz & Hstart
                  & Hlen & Hp & Hge & Hst').
  pose proof (inv_regions _ _ HI _ _ Hinst) as Hok.
  pose proof (inv_buckets _ _ HI) as HK.
  pose proof (region_size_extent st r HI Hok) as HE.
  destruct (extent_multiple st r HI Hok) as (k & Hk & HEk).
  pose proof Hok as (Hs0 & _).
  pose proof (class_size_pos c) as Hcs.
  set (E := r_size r / g_buckets st) in *.
  assert (HE0 : 0 < E) by nia.
  assert (Hin : in_region r (n_start node)).
  { unfold in_region. nia. }
  assert (Hmod : (n_start node - r_start r) mod class_size B c = 0).
  { rewrite Hstart, HEk, Hc.
    replace (r_start r + index * (k * class_size B c) - r_start r)
      with (index * k * class_size B c) by lia.
    by apply Z_mod_mult. }
  assert (Hend : n_start node + n_len node ≤ r_start r + r_size r) by nia.
  pose proof (installed_frame st st' i r Hrs Hnum Hinst) as Hinst2.
  assert (Hbl : block_len st' p = class_size B c).
  { rewrite <- Hc. apply (block_len_in st' i r p HI' Hinst2). by rewrite Hp. }
  assert (Hmono : ∀ j r0, installed st j r0 → installed st' j r0).
  { intros j r0. by apply installed_frame. }
  rewrite Hbl. split.
  - unfold nodes_count in *. rewrite Hgi in Hnodes. rewrite Hst'. simpl.
    rewrite (nodes_sum_pick _ gi c row _ [] _ ready) by done.
    rewrite Hready, !sumZ_app. pose proof (carve_count c node (node_pool st)).
    simpl. lia.
  - intros a. specialize (Hown a).
    unfold free_cover in *. rewrite Hgi in Hown.
    rewrite (region_cover_frame st st' a Hrs Hnum).
    rewrite Hst'. simpl.
    rewrite (nodes_sum_pick _ gi c row _ [] _ ready) by done.
    rewrite Hready, !sumZ_app. pose proof (carve_covers a c node Hge).
    unfold out_cover in *. simpl. rewrite Hp. lia.
  - intros gi' c0 b0 row0 l0 n0 Hgi' Hrow0 Hl0 Hn0.
    rewrite Hst' in Hgi'. injection Hgi' as <-. simpl in Hrow0.
    apply (aligned_frame st st' _ Hmono).
    destruct (decide (c0 = c)) as [->|Hnc].
    + rewrite list_lookup_insert_eq in Hrow0 by (by eapply lookup_lt_Some).
      injection Hrow0 as <-.
      destruct (decide (b0 = Z.to_nat index)) as [->|Hnb].
      * rewrite list_lookup_insert_eq in Hl0 by (by eapply lookup_lt_Some).
        injection Hl0 as <-.
        apply (carve_aligned st c node [] n0 i r); try done.
        intros n1 Hn1. by apply elem_of_nil in Hn1.
      * rewrite list_lookup_insert_ne in Hl0 by done.
        by apply (Hidle gi c b0 row l0 n0).
    + rewrite list_lookup_insert_ne in Hrow0 by done.
      by apply (Hidle gi c0 b0 row0 l0 n0).
  - intros q len [[= -> ->]|Hq]%elem_of_cons.
    + exists i, r. rewrite Hc, Hp. by split_and!.
    + destruct (Hout q len Hq) as (j & r0 & Hj & ?). exists j, r0.
      split; [by apply Hmono|done].
Qed.

Lemma client_inv_extend pool st out m c mem p st' :
  Inv B st → Inv B st' → mem_contract st mem →
  ExtendBlockPool st m c mem = Some (p, st') →
  client_inv B pool st out → client_inv B pool st' out.
Proof.
  intros HI HI' Hmem Hext Hci.
  destruct (decide (p = NULL)) as [->|Hp].
  { destruct (ExtendBlockPool_null st m c mem st' Hmem Hext)
      as [[_ ->]|[(_ & _ & ->)|(_ & _ & bs & _ &
                                [[_ ->]|(? & ? & _ & _ & _ & ->)])]];
      [by apply client_inv_errno..|done]. }
  destruct Hci as [Hnodes Hown Hidle Hout].
  pose proof (ExtendBlockPool_success_pool _ _ _ _ _ _ Hext Hp) as Hpool.
  destruct (ExtendBlockPool_success _ _ _ _ _ _ Hext Hp)
    as (gi & ready & bs & pool' & cb & Hgi & Hrd & Hbs & Hcb & Hnum & Hst').
  pose proof (inv_num _ _ HI) as Hn. pose proof (inv_len _ _ HI) as Hlen.
  pose proof (inv_max _ _ HI) as Hmax. pose proof (inv_buckets _ _ HI) as HK.
  rewrite (buckets_wrap st HI) in Hst'.
  set (size := regular_size m bs (g_buckets st)) in *.
  set (rnew := mkRegion p size c (cb p size)) in *.
  assert (Hinst : installed st' (Z.to_nat (g_region_num st)) rnew).
  { rewrite Hst'. split; simpl; [lia|].
    apply list_lookup_insert_eq. unfold MAX_REGIONS in *. lia. }
  assert (HK2 : g_buckets st' = g_buckets st) by by rewrite Hst'.
  pose proof (inv_regions _ _ HI' _ _ Hinst) as Hok.
  pose proof Hok as (Hq0 & Hsz0 & Hend & _).
  pose proof (region_size_extent st' rnew HI' Hok) as HE. rewrite HK2 in HE.
  simpl in Hq0, Hsz0, Hend, HE.
  set (E := size / g_buckets st) in *.
  assert (HE0 : 0 ≤ E) by nia.
  assert (Hpush : push_extents (Z.to_nat (g_buckets st)) 0 p size
                    (g_buckets st) ready
                  = reverse ((λ j, mkIdleNode (p + j * E) E)
                             <$> seqZ 0 (g_buckets st)) ++ ready).
  { rewrite push_extents_eq, Z2Nat.id by lia. do 2 f_equal.
    apply list_fmap_ext. intros k j Hj.
    apply list_elem_of_lookup_2, elem_of_seqZ in Hj.
    by rewrite (extent_start_exact p size (g_buckets st) j) by lia. }
  rewrite Hpush in Hst'.
  assert (Hmono : ∀ j r0, installed st j r0 → installed st' j r0).
  { intros j r0 [Hj Hl]. rewrite Hst'. split; simpl; [lia|].
    rewrite list_lookup_insert_ne by lia. done. }
  split.
  - unfold nodes_count in *. rewrite Hgi in Hnodes. rewrite Hst'. simpl.
    rewrite (nodes_sum_ready _ gi c ready) by done.
    rewrite sumZ_app, sumZ_reverse, sumZ_fmap.
    change (sumZ _ (seqZ 0 (g_buckets st)))
      with (sumZ (λ _ : Z, 1) (seqZ 0 (g_buckets st))).
    rewrite (sumZ_one (seqZ 0 (g_buckets st))), length_seqZ.
    rewrite Hst' in Hpool. simpl in Hpool. lia.
  - intros a. specialize (Hown a).
    unfold free_cover in *. rewrite Hgi in Hown.
    rewrite Hst'. simpl. unfold region_cover. simpl.
    rewrite (region_cover_extend st a rnew HI Hnum). simpl.
    rewrite (nodes_sum_ready _ gi c ready) by done.
    rewrite sumZ_app, sumZ_reverse, sumZ_fmap. unfold node_covers in *. simpl.
    pose proof (covers_extents a p E (Z.to_nat (g_buckets st)) 0 HE0
                  ltac:(lia)) as Ht.
    rewrite Z2Nat.id in Ht by lia. rewrite Ht.
    replace (p + 0 * E) with p by lia.
    replace (g_buckets st * E) with size by lia. lia.
  - intros gi' c0 b0 row0 l0 n0 Hgi' Hrow0 Hl0 Hn0.
    rewrite Hst' in Hgi'. injection Hgi' as <-. simpl in Hrow0.
    apply (aligned_frame st st' _ Hmono).
    by apply (Hidle gi c0 b0 row0 l0 n0).
  - intros q len Hq.
    destruct (Hout q len Hq) as (j & r0 & Hj & ?). exists j, r0.
    split; [by apply Hmono|done].
Qed.

Lemma client_inv_dealloc pool st out1 buf len out2 res st' :
  Inv B st → DeallocBlock st buf = Some (res, st') →
  client_inv B pool st (out1 ++ (buf, len) :: out2) →
  client_inv B pool st'
    (if decide (node_pool st = 0%nat) then out1 ++ (buf, len) :: out2
     else out1 ++ out2).
Proof.
  intros HI Hd Hci.
  destruct (DeallocBlock_cases st buf res st' HI Hd)
    as [[-> [->| ->]]|(_ & i & r & Hinst & Hin & [[Hz ->]|Hpush])].
  - exfalso. destruct Hci as [_ _ _ Hout].
    destruct (Hout buf len) as (j & r & Hj & Hin & _).
    { apply elem_of_app. right. by left. }
    pose proof (DeallocBlock_in_region st buf j r HI Hj Hin) as Hd'.
    destruct (get_object (node_pool st)).
    + destruct Hd' as (? & ? & ? & _ & _ & _ & _ & Hd' & _).
      rewrite Hd' in Hd. by injection Hd.
    + rewrite Hd' in Hd. by injection Hd.
  - exfalso. destruct Hci as [_ _ _ Hout].
    destruct (Hout buf len) as (j & r & Hj & Hin & _).
    { apply elem_of_app. right. by left. }
    pose proof (DeallocBlock_in_region st buf j r HI Hj Hin) as Hd'.
    destruct (get_object (node_pool st)).
    + destruct Hd' as (? & ? & ? & _ & _ & _ & _ & Hd' & _).
      rewrite Hd' in Hd. by injection Hd.
    + rewrite Hd' in Hd. by injection Hd.
  - by rewrite decide_True.
  - destruct Hpush as (pool' & gi & row & next & Hnp & Hgi & Hrow & Hb & Hnext
                       & HI' & Hst').
    rewrite decide_False by lia.
    destruct Hci as [Hnodes Hown Hidle Hout].
    destruct (Hout buf len) as (j & r' & Hj & Hin' & Hmod & Hlen).
    { apply elem_of_app. right. by left. }
    destruct (installed_unique st _ j i r' r HI Hj Hinst Hin' Hin) as [-> ->].
    assert (Hmono : ∀ j r0, installed st j r0 → installed st' j r0).
    { intros j r0. apply installed_frame; by rewrite Hst'. }
    split.
    + unfold nodes_count in *. rewrite Hgi in Hnodes. rewrite Hst'. simpl.
      rewrite (nodes_sum_idle _ gi _ row _ next) by done. simpl. lia.
    + intros a. specialize (Hown a).
      unfold free_cover in *. rewrite Hgi in Hown.
      rewrite (region_cover_frame st st' a) by (by rewrite Hst').
      rewrite Hst'. simpl.
      rewrite (nodes_sum_idle _ gi _ row _ next) by done.
      unfold out_cover in *. rewrite sumZ_app in Hown |- *. simpl in *.
      unfold node_covers in *. simpl in *. rewrite Hlen in Hown. lia.
    + intros gi' c0 b0 row0 l0 n0 Hgi' Hrow0 Hl0 Hn0.
      rewrite Hst' in Hgi'. injection Hgi' as <-. simpl in Hrow0.
      apply (aligned_frame st st' _ Hmono).
      destruct (decide (c0 = r_block_type r)) as [->|Hnc].
      * rewrite list_lookup_insert_eq in Hrow0 by (by eapply lookup_lt_Some).
        injection Hrow0 as <-.
        destruct (decide (b0 = Z.to_nat (bucket_of st r buf))) as [->|Hnb].
        -- rewrite list_lookup_insert_eq in Hl0 by (by eapply lookup_lt_Some).
           injection Hl0 as <-.
           apply elem_of_cons in Hn0 as [->|Hn0]; [by exists i, r|].
           by apply (Hidle gi (r_block_type r)
                       (Z.to_nat (bucket_of st r buf)) row next n0).
        -- rewrite list_lookup_insert_ne in Hl0 by done.
           by apply (Hidle gi (r_block_type r) b0 row l0 n0).
      * rewrite list_lookup_insert_ne in Hrow0 by done.
        by apply (Hidle gi c0 b0 row0 l0 n0).
    + intros q len' Hq.
      destruct (Hout q len') as (j & r0 & Hj0 & ?).
      { apply elem_of_app in Hq as [Hq|Hq]; apply elem_of_app;
          [by left|right; by right]. }
      exists j, r0. split; [by apply Hmono|done].
Qed.

Lemma client_reachable pool st out : client B pool st out → reachable B st.
Proof.
  induction 1 as [fl e Hfl
                 |st out cb info mem p st' _ IH Hmem Hinit
                 |st out size rnd mem p st' _ IH Hmem Ha
                 |st out1 buf len out2 res st' _ IH Hd
                 |st out buf st' _ IH Hd
                 |st out buf _ IH
                 |st out buf _ IH].
  - by apply reach_boot.
  - by apply (reach_step B st (OpInit cb info mem) p).
  - by apply (reach_step B st (OpAlloc size rnd mem) p).
  - by apply (reach_step B st (OpDealloc buf) res).
  - by apply (reach_step B st (OpDealloc buf) (-1)).
  - apply (reach_step B st (OpGetRegionId buf) (GetRegionId st buf).1);
      [done..|]. simpl. by destruct (GetRegionId st buf).
  - apply (reach_step B st (OpGetBlockType buf) (GetBlockType st buf).1);
      [done..|]. simpl. by destruct (GetBlockType st buf).
Qed.

Lemma nodes_sum_fresh (f : IdleNode → Z) n k :
  nodes_sum f (mkGlobalInfo (replicate n (replicate k [])) (replicate n [])) = 0.
Proof.
  unfold nodes_sum. simpl.
  assert (H1 : sumZ (sumZ (sumZ f)) (replicate n (replicate k [])) = 0).
  { apply sumZ_zero. intros row [-> _]%elem_of_replicate. apply sumZ_zero.
    by intros l [-> _]%elem_of_replicate. }
  assert (H2 : sumZ (sumZ f) (replicate n []) = 0).
  { apply sumZ_zero. by intros l [-> _]%elem_of_replicate. }
  lia.
Qed.

Lemma query_state st buf :
  (GetRegionId st buf).2 = (GetBlockType st buf).2 ∧
  ((GetRegionId st buf).2 = st ∨ (GetRegionId st buf).2 = set_errno EINVAL st).
Proof.
  unfold GetRegionId, GetBlockType, GetRegion. case_decide; simpl.
  - split; [done|by right].
  - destruct (GetRegion_scan _ _ _); simpl; split; done || by left.
Qed.

Lemma client_holds pool st out :
  client B pool st out → client_inv B pool st out.
Proof.
  induction 1 as [fl e Hfl
                 |st out cb info mem p st' Hcl IH Hmem Hinit
                 |st out size rnd mem p st' Hcl IH Hmem Ha
                 |st out1 buf len out2 res st' Hcl IH Hd
                 |st out buf st' Hcl IH Hd
                 |st out buf Hcl IH
                 |st out buf Hcl IH].
  - split.
    + unfold nodes_count. simpl. lia.
    + intros a. reflexivity.
    + by intros gi c b row l n [=].
    + intros q len Hq. by apply elem_of_nil in Hq.
  - pose proof (reachable_Inv st (client_reachable _ _ _ Hcl)) as HI.
    pose proof (InitBlockPool_Inv _ _ _ _ _ _ HI Hmem Hinit) as HI'.
    revert Hinit. unfold InitBlockPool.
    destruct cb as [f|]; [|intros [= <- <-]; by apply client_inv_errno].
    destruct (g_cb st) as [g|] eqn:Hcb;
      [intros [= <- <-]; by apply client_inv_errno|].
    pose proof (no_callback_no_info st HI Hcb) as Hgi.
    destruct info.
    + destruct (init_state_Inv st f HI Hcb) as [_ HI1].
      intros Hext.
      refine (client_inv_extend pool _ out _ _ mem p st' HI1 HI' Hmem Hext _).
      destruct IH as [Hnodes Hown Hidle Hout].
      unfold nodes_count, free_cover in *. rewrite Hgi in Hnodes, Hown.
      split.
      * cbn -[replicate nodes_sum]. by rewrite nodes_sum_fresh.
      * intros a. cbn -[replicate nodes_sum]. rewrite nodes_sum_fresh.
        apply (Hown a).
      * intros gi c b row l n Hgi' Hrow Hl Hn. injection Hgi' as <-.
        apply list_elem_of_lookup_2, list_elem_of_In in Hrow. simpl in Hrow.
        destruct Hrow as [<-|[<-|[<-|[<-|[]]]]];
          apply lookup_replicate in Hl as [-> _]; by apply elem_of_nil in Hn.
      * exact Hout.
    + intros [= <- <-]. destruct IH as [Hnodes Hown Hidle Hout].
      by split.
  - pose proof (reachable_Inv st (client_reachable _ _ _ Hcl)) as HI.
    pose proof (AllocBlock_Inv _ _ _ _ _ _ HI Hmem Ha) as HI'.
    destruct (AllocBlock_cases _ _ _ _ _ _ Ha) as [[-> [->| ->]]|[c Hc]].
    + by rewrite decide_True.
    + rewrite decide_True by done. by apply client_inv_errno.
    + destruct (AllocBlockFrom_paths st c rnd mem p st' HI Hmem Hc)
        as [[Hp Hf]|[[Hp Hf]|(_ & _ & _ & q & st2 & Hext & HI2 & Hrest)]].
      * rewrite decide_False by done.
        exact (client_inv_from_idle pool st out c _ p st' HI HI' Hf IH).
      * rewrite decide_False by done.
        exact (client_inv_from_ready pool st out c _ p st' HI HI' Hf IH).
      * pose proof (client_inv_extend pool st out _ c mem q st2 HI HI2 Hmem
                      Hext IH) as IH2.
        destruct Hrest as [(_ & -> & ->)|(_ & Hp & Hf)].
        -- by rewrite decide_True.
        -- rewrite decide_False by done.
           exact (client_inv_from_ready pool st2 out c _ p st' HI2 HI' Hf IH2).
  - pose proof (reachable_Inv st (client_reachable _ _ _ Hcl)) as HI.
    by eapply client_inv_dealloc.
  - pose proof (reachable_Inv st (client_reachable _ _ _ Hcl)) as HI.
    destruct (DeallocBlock_cases st buf (-1) st' HI Hd)
      as [[_ [->| ->]]|[? _]]; [by apply client_inv_errno..|done].
  - destruct (query_state st buf) as [_ [->| ->]];
      [done|by apply client_inv_errno].
  - destruct (query_state st buf) as [<- [->| ->]];
      [done|by apply client_inv_errno].
Qed.

Lemma nodes_sum_nonneg (f : IdleNode → Z) gi :
  (∀ n, 0 ≤ f n) → 0 ≤ nodes_sum f gi.
Proof.
  intros Hf. unfold nodes_sum.
  assert (Hl : ∀ l, 0 ≤ sumZ f l) by (intros l; by apply sumZ_nonneg).
  assert (Hr : ∀ row, 0 ≤ sumZ (sumZ f) row) by (intros r; by apply sumZ_nonneg).
  pose proof (sumZ_nonneg (sumZ (sumZ f)) (idle_list gi) ltac:(done)).
  pose proof (Hr (ready_list gi)). lia.
Qed.

Lemma sumZ_nonzero {A} (f : A → Z) l :
  sumZ f l ≠ 0 → ∃ x, x ∈ l ∧ f x ≠ 0.
Proof.
  induction l as [|x l IH]; simpl; [done|]. intros Hne.
  destruct (decide (f x = 0)) as [Hx|Hx].
  - destruct IH as (y & Hy & Hfy); [lia|]. exists y. split; [by right|done].
  - exists x. split; [by left|done].
Qed.

Lemma free_cover_nonneg a st : 0 ≤ free_cover a st.
Proof.
  unfold free_cover. destruct (g_info st); [|done].
  apply nodes_sum_nonneg. intros n. apply covers_range.
Qed.

Lemma out_cover_elem a out q len :
  (q, len) ∈ out → covers a q len ≤ out_cover a out.
Proof.
  intros Hq. unfold out_cover.
  apply (sumZ_elem_of_le (λ b, covers a b.1 b.2) out (q, len)); [|done].
  intros y _. apply covers_range.
Qed.

(** X13. For a client that gives back only what it was given, every byte
    has at most one owner: a byte of an installed region lies in exactly
    one node of the idle and ready lists or in exactly one block that is
    out of the pool, never in both and never in two of either; a byte
    outside the regions lies in none. No block is handed out twice, and,
    but for the blocks that DeallocBlock fails to take back, none is
    lost. *)
Theorem every_byte_has_one_owner pool st out a :
  client B pool st out →
  free_cover a st + out_cover a out = region_cover a st ∧
  0 ≤ free_cover a st ∧ 0 ≤ out_cover a out ∧
  0 ≤ region_cover a st ≤ 1 ∧
  (region_cover a st = 1 ↔ ∃ i r, installed st i r ∧ in_region r a).
Proof.
  intros Hcl. pose proof (client_holds pool st out Hcl) as Hci.
  pose proof (reachable_Inv st (client_reachable _ _ _ Hcl)) as HI.
  split; [apply (cinv_own _ _ _ _ Hci)|].
  split; [apply free_cover_nonneg|].
  split.
  { unfold out_cover. apply sumZ_nonneg. intros y _. apply covers_range. }
  split; [by apply region_cover_range|].
  split.
  - intros H1. unfold region_cover in H1.
    destruct (sumZ_nonzero _ _ ltac:(by rewrite H1)) as (r & Hr & Hne).
    apply list_elem_of_lookup_1 in Hr as [i Hi].
    apply lookup_take_Some in Hi as [Hi Hlt].
    exists i, r. split; [split; [lia|done]|].
    unfold covers in Hne. by case_decide.
  - intros (i & r & Hinst & Hin). by eapply region_cover_in.
Qed.

(** X14. For such a client, a block that AllocBlock returns starts a
    whole number of blocks of its class from the start of its region,
    lies in that region with its full length, and shares no byte with a
    block that is out of the pool. *)
Theorem AllocBlock_fresh_block pool st out size rnd mem p st' :
  client B pool st out → mem_contract st mem →
  AllocBlock st size rnd mem = Some (p, st') → p ≠ NULL →
  ∃ i r,
    installed st' i r ∧ in_region r p ∧
    block_len st' p = class_size B (r_block_type r) ∧
    (p - r_start r) mod class_size B (r_block_type r) = 0 ∧
    p + class_size B (r_block_type r) ≤ r_start r + r_size r ∧
    ∀ q len, (q, len) ∈ out →
      p + class_size B (r_block_type r) ≤ q ∨ q + len ≤ p.
Proof.
  intros Hcl Hmem Ha Hp.
  pose proof (client_alloc B pool st out size rnd mem p st' Hcl Hmem Ha) as Hcl'.
  rewrite decide_False in Hcl' by done.
  pose proof (client_holds _ _ _ Hcl') as [_ Hown _ Hout].
  pose proof (reachable_Inv st' (client_reachable _ _ _ Hcl')) as HI'.
  destruct (Hout p (block_len st' p) ltac:(by left))
    as (i & r & Hinst & Hin & Hmod & Hlen).
  exists i, r. do 4 (split; [done|]).
  pose proof (class_size_pos (r_block_type r)) as Hcs.
  set (cs := class_size B (r_block_type r)) in *.
  split.
  - destruct (inv_regions _ _ HI' _ _ Hinst)
      as (_ & _ & _ & _ & _ & (pb & Hpb & Hsize) & _).
    pose proof (inv_buckets _ _ HI') as HK. fold cs in Hsize.
    apply Z.mod_divide in Hmod as [m Hm]; [|lia].
    unfold in_region in Hin.
    assert (m < pb * g_buckets st') by nia.
    nia.
  - intros q len Hq.
    destruct (Hout q len ltac:(by right)) as (j & r' & _ & _ & _ & Hlen').
    pose proof (class_size_pos (r_block_type r')) as Hcs'.
    destruct (decide (p + cs ≤ q ∨ q + len ≤ p)) as [|Hov]; [done|].
    exfalso. specialize (Hown (Z.max p q)).
    pose proof (free_cover_nonneg (Z.max p q) st').
    pose proof (region_cover_range st' (Z.max p q) HI').
    pose proof (out_cover_elem (Z.max p q) out q len Hq) as Hq1.
    unfold out_cover in Hown at 1. simpl in Hown.
    fold (out_cover (Z.max p q) out) in Hown.
    rewrite Hlen in Hown. unfold covers in Hown, Hq1.
    rewrite decide_True in Hown by lia.
    rewrite decide_True in Hq1 by lia. lia.
Qed.

(** X15. For such a client no IdleNode object is lost: the objects that
    are not in the object pool are the nodes of the idle and ready lists,
    and DestroyBlockPool brings the object pool back to what the process
    started with. *)
Theorem IdleNode_objects_conserved pool st out :
  client B pool st out →
  Z.of_nat (node_pool st) + nodes_count st = Z.of_nat pool ∧
  ∀ st', DestroyBlockPool st = Some st' → node_pool st' = pool.
Proof.
  intros Hcl. pose proof (client_holds pool st out Hcl) as [Hnodes _ _ _].
  pose proof (client_reachable _ _ _ Hcl) as Hreach.
  split; [done|]. intros st' Hd.
  destruct (g_info st) as [gi|] eqn:Hgi.
  2:{ revert Hd. unfold DestroyBlockPool. by rewrite Hgi. }
  destruct (DestroyBlockPool_state st gi (reachable_Inv st Hreach)
              (reachable_heap st Hreach) Hgi) as (rs & pool' & Hd' & Hpool & _).
  rewrite Hd' in Hd. injection Hd as <-. simpl. lia.
Qed.

(** ** Which block a request gets *)

Lemma carve_len c n :
  class_size B c ≤ n_len n →
  sumZ n_len (carve B c n []) = n_len n - class_size B c.
Proof. intros Hge. unfold carve. case_decide; simpl; lia. Qed.

Lemma wrap64_sub a b : wrap64 (wrap64 a - b) = wrap64 (a - b).
Proof. unfold wrap64. by rewrite Zminus_mod_idemp_l. Qed.

Lemma from_ready_block s c index p s' :
  Inv B s → Inv B s' → from_ready B s c index p s' →
  ∃ i r gi,
    installed s' i r ∧ r_block_type r = c ∧ in_region r p ∧
    bucket_of s' r p = index ∧
    p = r_start r + index * (r_size r / g_buckets s) ∧
    idle_at s c index = Some [] ∧ g_info s = Some gi ∧
    GetGlobalLen s' c
    = Some (wrap64 (idle_sum n_len gi c + r_size r / g_buckets s
                    - class_size B c)).
Proof.
  intros HI HI' Hf.
  pose proof (from_ready_frame _ _ _ _ _ Hf) as (Hrs & Hnum & _ & _ & _ & HK' & _).
  destruct Hf as (gi & row & ready & pre & node & post & i & r & Hgi & Hrow
                  & Hidx & Hl & Hrd & Hready & _ & Hinst & Hc & Hsz & Hstart
                  & Hlen & Hp & Hge & Hst').
  pose proof (inv_regions _ _ HI _ _ Hinst) as Hok.
  pose proof (inv_buckets _ _ HI) as HK.
  pose proof (region_size_extent s r HI Hok) as HE.
  pose proof (class_size_pos c) as Hcs.
  set (E := r_size r / g_buckets s) in *.
  assert (HE0 : 0 < E) by lia.
  assert (Hc4 : (c < BLOCK_SIZE_COUNT)%nat).
  { rewrite <- Hc. by destruct Hok as (_ & _ & _ & ? & _). }
  exists i, r, gi. split; [by apply (installed_frame s s')|].
  split; [done|]. split.
  { unfold in_region. rewrite Hp, Hstart. nia. }
  split.
  { unfold bucket_of. rewrite HK'. apply (bucket_in_extent s r p index HI Hok).
    fold E. rewrite Hp, Hstart. lia. }
  split; [by rewrite Hp|]. split.
  { unfold idle_at. rewrite Hgi. simpl. rewrite Hrow. simpl.
    by rewrite decide_True by lia. }
  split; [done|].
  rewrite (GetGlobalLen_sum s' _ c HI' ltac:(by rewrite Hst') Hc4).
  unfold idle_sum. simpl.
  rewrite list_lookup_insert_eq by (by eapply lookup_lt_Some).
  rewrite Hrow. simpl.
  rewrite (sumZ_insert _ row _ []) by done. simpl.
  rewrite carve_len by done. do 2 f_equal. lia.
Qed.

(** X17. A block that AllocBlock returns belongs to the bucket that the
    call drew. When the idle list of the bucket is not empty the block is
    the start of its head, and GetGlobalLen of the class falls by the
    block size; when it is empty the block is the start of the extent of
    the bucket in a region of the class, the rest of the extent becomes
    the idle list, and GetGlobalLen of the class rises by the length of
    the extent less the block size. *)
Theorem AllocBlock_from_bucket st size c rnd mem p st' :
  reachable B st → mem_contract st mem →
  smallest_class st size c → size ≠ 0 → is_Some (g_info st) →
  AllocBlock st size rnd mem = Some (p, st') → p ≠ NULL →
  ∃ i r l len,
    installed st' i r ∧ r_block_type r = c ∧ in_region r p ∧
    bucket_of st' r p = wrap64 rnd mod g_buckets st ∧
    idle_at st c (wrap64 rnd mod g_buckets st) = Some l ∧
    GetGlobalLen st c = Some len ∧
    match l with
    | n :: _ =>
        p = n_start n ∧
        GetGlobalLen st' c = Some (wrap64 (len - class_size B c))
    | [] =>
        p = r_start r
            + wrap64 rnd mod g_buckets st * (r_size r / g_buckets st) ∧
        GetGlobalLen st' c
        = Some (wrap64 (len + r_size r / g_buckets st - class_size B c))
    end.
Proof.
  intros HI%reachable_Inv Hmem Hclass Hnz [gi Hgi] Ha Hp.
  pose proof (AllocBlock_Inv _ _ _ _ _ _ HI Hmem Ha) as HI'.
  rewrite (AllocBlock_class st gi size c rnd mem HI Hgi Hclass Hnz) in Ha.
  set (index := wrap64 rnd mod g_buckets st).
  assert (Hc4 : (c < BLOCK_SIZE_COUNT)%nat).
  { destruct Hclass as [(bs & Hbs & _) _].
    rewrite <- (block_sizes_length st HI). by eapply lookup_lt_Some. }
  pose proof (GetGlobalLen_sum st gi c HI Hgi Hc4) as Hlen.
  destruct (AllocBlockFrom_paths st c rnd mem p st' HI Hmem Ha)
    as [[_ Hf]|[[_ Hf]|(Hat & _ & _ & q & st2 & Hext & HI2 & Hrest)]];
    fold index in Hf || fold index in Hat, Hrest.
  - pose proof (from_idle_frame _ _ _ _ _ Hf)
      as (Hrs & Hnum & _ & _ & _ & HK' & _).
    destruct Hf as (gi0 & row & n & next & Hgi0 & Hrow & Hidx & Hl & Hpn & Hge
                    & Hst').
    assert (gi0 = gi) as -> by congruence.
    pose proof (inv_info _ _ HI) as Hinfo. rewrite Hgi in Hinfo.
    destruct Hinfo as (_ & _ & _ & _ & _ & Hnodes_ok & _).
    destruct (Hnodes_ok c _ row _ n Hrow Hl ltac:(by left))
      as (i & r & Hinst & Hc & Hin & Hb & _).
    exists i, r, (n :: next), (wrap64 (idle_sum n_len gi c)).
    split; [by apply (installed_frame st st')|]. split; [done|].
    split; [by rewrite Hpn|]. split.
    { unfold bucket_of in *. rewrite HK', Hpn, Hb. lia. }
    split.
    { unfold idle_at. rewrite Hgi. simpl. rewrite Hrow. simpl.
      by rewrite decide_True by lia. }
    split; [done|]. split; [done|].
    rewrite (GetGlobalLen_sum st' _ c HI' ltac:(by rewrite Hst') Hc4).
    rewrite (idle_sum_idle _ gi c row _ (n :: next)) by done.
    rewrite decide_True by done. rewrite carve_part, carve_len by done.
    rewrite wrap64_sub. simpl. do 2 f_equal. lia.
  - destruct (from_ready_block st c index p st' HI HI' Hf)
      as (i & r & gi0 & Hinst & Hc & Hin & Hb & Hpr & Hat & Hgi0 & Hlen').
    assert (gi0 = gi) as -> by congruence.
    exists i, r, [], (wrap64 (idle_sum n_len gi c)).
    do 6 (split; [done|]). split; [done|].
    rewrite Hlen'. f_equal. unfold wrap64.
    rewrite <- Zminus_mod_idemp_l, <- (Zplus_mod_idemp_l (idle_sum n_len gi c)).
    by rewrite Zminus_mod_idemp_l.
  - destruct Hrest as [(_ & -> & _)|(Hq & _ & Hf)]; [done|].
    destruct (from_ready_block st2 c index p st' HI2 HI' Hf)
      as (i & r & gi2 & Hinst & Hc & Hin & Hb & Hpr & _ & Hgi2 & Hlen').
    destruct (ExtendBlockPool_success _ _ _ _ _ _ Hext Hq)
      as (gi0 & ready & bs & pool & cb & Hgi0 & _ & _ & _ & _ & Hst2).
    assert (gi0 = gi) as -> by congruence.
    assert (HK2 : g_buckets st2 = g_buckets st) by by rewrite Hst2.
    assert (Hsum : idle_sum n_len gi2 c = idle_sum n_len gi c).
    { rewrite Hst2 in Hgi2. by injection Hgi2 as <-. }
    rewrite HK2, Hsum in *.
    exists i, r, [], (wrap64 (idle_sum n_len gi c)).
    do 6 (split; [done|]). split; [done|].
    rewrite Hlen'. f_equal. unfold wrap64.
    rewrite <- Zminus_mod_idemp_l, <- (Zplus_mod_idemp_l (idle_sum n_len gi c)).
    by rewrite Zminus_mod_idemp_l.
Qed.

(** ** When a request succeeds *)

Lemma ExtendBlockPool_succeeds st gi m c mem cb base :
  Inv B st → g_info st = Some gi → (c < BLOCK_SIZE_COUNT)%nat → 64 ≤ m →
  g_region_num st ≠ g_max_regions st →
  mem (regular_size m (class_size B c) (g_buckets st)) = Some base →
  g_cb st = Some cb →
  cb base (regular_size m (class_size B c) (g_buckets st)) ≠ 0 →
  (Z.to_nat (g_buckets st) ≤ node_pool st)%nat →
  ∃ st', ExtendBlockPool st m c mem = Some (base, st').
Proof.
  intros HI Hgi Hc Hm Hnum Hmem Hcb Hid Hpool.
  pose proof (inv_info _ _ HI) as Hinfo. rewrite Hgi in Hinfo.
  destruct Hinfo as (_ & Hbs & _ & _ & Hrl & _).
  pose proof (inv_buckets _ _ HI) as HK.
  pose proof (inv_num _ _ HI) as Hn. pose proof (inv_max _ _ HI) as Hmax.
  pose proof (class_size_pos c) as Hcs.
  destruct (lookup_lt_is_Some_2 (ready_list gi) c) as [ready Hrd];
    [by rewrite Hrl|].
  unfold ExtendBlockPool.
  rewrite decide_False by lia. rewrite decide_False by done.
  rewrite Hbs, (class_sizes_lookup_lt c Hc). simpl.
  rewrite (buckets_wrap st HI). rewrite decide_False by lia.
  rewrite Hmem, Hcb. simpl. rewrite decide_False by done.
  rewrite acquire_nodes_enough by done.
  rewrite Hgi. simpl. rewrite Hrd. simpl.
  rewrite decide_True by lia. by eexists.
Qed.

(** X18. A request of a valid size succeeds whenever the environment
    lets the pool grow: in a pool whose regions have room for blocks,
    that is under its cap on the regions, with g_buckets IdleNode objects
    at hand, a posix_memalign that gives the memory of a new region and a
    callback that registers it, AllocBlock returns a block. *)
Theorem AllocBlock_succeeds st size c rnd mem cb base :
  reachable B st → roomy B st → mem_contract st mem →
  smallest_class st size c → size ≠ 0 → is_Some (g_info st) →
  g_cb st = Some cb →
  g_region_num st < g_max_regions st →
  (Z.to_nat (g_buckets st) ≤ node_pool st)%nat →
  mem (regular_size (FLAGS_rdma_memory_pool_increase_size_mb (flags st))
         (class_size B c) (g_buckets st)) = Some base →
  cb base (regular_size (FLAGS_rdma_memory_pool_increase_size_mb (flags st))
             (class_size B c) (g_buckets st)) ≠ 0 →
  ∃ p st', AllocBlock st size rnd mem = Some (p, st') ∧ p ≠ NULL.
Proof.
  intros HI%reachable_Inv Hroomy Hmem Hclass Hnz [gi Hgi] Hcb Hnum Hpool
         Hbase Hid.
  rewrite (AllocBlock_class st gi size c rnd mem HI Hgi Hclass Hnz).
  assert (Hc4 : (c < BLOCK_SIZE_COUNT)%nat).
  { destruct Hclass as [(bs & Hbs & _) _].
    rewrite <- (block_sizes_length st HI). by eapply lookup_lt_Some. }
  destruct (AllocBlockFrom_total st c rnd mem HI Hmem ltac:(by eexists)
              Hroomy Hc4) as [[p st'] Ha].
  exists p, st'. split; [done|]. intros ->.
  destruct (AllocBlockFrom_paths st c rnd mem NULL st' HI Hmem Ha)
    as [[? _]|[[? _]|(_ & _ & _ & q & st2 & Hext & _ & Hrest)]]; [done..|].
  destruct Hrest as [(-> & _)|(_ & ? & _)]; [|done].
  destruct (increase_fits st HI ltac:(by rewrite Hcb)) as [Hinc _].
  destruct (ExtendBlockPool_succeeds st gi _ c mem cb base HI Hgi Hc4 Hinc
              ltac:(lia) Hbase Hcb Hid Hpool) as [st3 Hext'].
  rewrite Hext' in Hext. injection Hext as Hb _.
  destruct (Hmem _ _ Hbase) as [? _]. unfold NULL in Hb. lia.
Qed.

(** ** What stays *)

Lemma ExtendBlockPool_installed st m c mem p st' i r :
  Inv B st → mem_contract st mem →
  ExtendBlockPool st m c mem = Some (p, st') →
  installed st i r → installed st' i r.
Proof.
  intros HI Hmem Hext [Hi Hl].
  destruct (decide (p = NULL)) as [->|Hp].
  - by destruct (ExtendBlockPool_null st m c mem st' Hmem Hext)
      as [[_ ->]|[(_ & _ & ->)|(_ & _ & bs & _ &
                                [[_ ->]|(? & ? & _ & _ & _ & ->)])]].
  - destruct (ExtendBlockPool_success _ _ _ _ _ _ Hext Hp)
      as (gi & ready & bs & pool & cb & _ & _ & _ & _ & _ & ->).
    split; simpl; [lia|]. rewrite list_lookup_insert_ne by lia. done.
Qed.

Lemma run_op_installed st op res st' i r :
  Inv B st → env_ok st op → run_op B st op = Some (res, st') →
  installed st i r → installed st' i r.
Proof.
  intros HI Henv Hrun Hinst.
  destruct op as [cb info mem|size rnd mem|buf|c index|buf|buf]; simpl in *.
  - revert Hrun. unfold InitBlockPool.
    destruct cb as [f|]; [|by intros [= <- <-]].
    destruct (g_cb st) as [g|] eqn:Hcb; [by intros [= <- <-]|].
    exfalso. pose proof (no_callback_no_info st HI Hcb) as Hgi.
    pose proof (inv_info _ _ HI) as Hinfo. rewrite Hgi in Hinfo.
    destruct Hinfo as [_ Hnum]. destruct Hinst as [Hi _]. lia.
  - destruct (AllocBlock_cases _ _ _ _ _ _ Hrun) as [[_ [->| ->]]|[c Ha]];
      [done..|].
    destruct (AllocBlockFrom_paths st c rnd mem res st' HI Henv Ha)
      as [[_ Hf]|[[_ Hf]|(_ & _ & _ & q & st2 & Hext & HI2 & Hrest)]].
    + destruct (from_idle_frame _ _ _ _ _ Hf) as (Hr & Hn & _).
      by apply (installed_frame st st').
    + destruct (from_ready_frame _ _ _ _ _ Hf) as (Hr & Hn & _).
      by apply (installed_frame st st').
    + pose proof (ExtendBlockPool_installed _ _ _ _ _ _ i r HI Henv Hext Hinst)
        as Hinst2.
      destruct Hrest as [(_ & _ & ->)|(_ & _ & Hf)]; [done|].
      destruct (from_ready_frame _ _ _ _ _ Hf) as (Hr & Hn & _).
      by apply (installed_frame st2 st').
  - destruct (DeallocBlock_cases st buf res st' HI Hrun)
      as [[_ [->| ->]]|(_ & j & r' & _ & _ & [[_ ->]|Hpush])]; [done..|].
    by destruct Hpush as (? & ? & ? & ? & _ & _ & _ & _ & _ & _ & ->).
  - destruct (PickReadyBlocks st c index) as [s|] eqn:Hp; simpl in Hrun; [|done].
    injection Hrun as <- <-.
    destruct (PickReadyBlocks_keeps _ _ _ _ Hp) as (Hr & Hn & _).
    by apply (installed_frame st s).
  - injection Hrun as Hq. destruct (query_state st buf) as [_ Hs].
    rewrite Hq in Hs. simpl in Hs. by destruct Hs as [->| ->].
  - injection Hrun as Hq. destruct (query_state st buf) as [Heq Hs].
    rewrite Heq, Hq in Hs. simpl in Hs. by destruct Hs as [->| ->].
Qed.

(** X19. A region, once installed, stays: no later call removes it, moves
    it or changes its class or its key, so GetRegionId and GetBlockType of
    a pointer into the region give the same key and the same class after
    any further calls. *)
Theorem region_stays st ops st' i r p :
  reachable B st → run_ops B st ops st' → installed st i r →
  installed st' i r ∧
  (in_region r p →
   GetRegionId st' p = (r_id r, st') ∧
   GetBlockType st' p = (Z.of_nat (r_block_type r), st')).
Proof.
  intros Hreach Hrun Hinst.
  assert (Hinst' : installed st' i r).
  { pose proof (reachable_Inv st Hreach) as HI. clear Hreach.
    induction Hrun as [st|st op res st1 ops st2 Henv Hop _ IH]; [done|].
    apply IH; [by eapply run_op_installed|by eapply run_op_Inv]. }
  split; [done|]. intros Hin.
  pose proof (reachable_Inv st' (run_ops_reachable _ _ _ Hrun Hreach)) as HI'.
  unfold GetRegionId, GetBlockType.
  by rewrite (GetRegion_in_region st' p i r HI' Hinst' Hin).
Qed.

(** X20. In every state that the calls reach, every node of
    ready_list[c] is one whole bucket extent of an installed region of
    class c: it starts at start + j * (size / g_buckets) for a bucket j,
    its length is size / g_buckets, and, in a region that is not empty, it
    belongs to bucket j. *)
Theorem ready_extent_invariant st gi c l n :
  reachable B st →
  g_info st = Some gi → ready_list gi !! c = Some l → n ∈ l →
  ∃ i r j,
    installed st i r ∧ r_block_type r = c ∧ 0 ≤ j < g_buckets st ∧
    n_start n = r_start r + j * (r_size r / g_buckets st) ∧
    n_len n = r_size r / g_buckets st ∧
    (0 < r_size r → in_bucket st j n).
Proof.
  intros HI%reachable_Inv Hgi Hl Hn.
  pose proof (inv_info _ _ HI) as Hinfo. rewrite Hgi in Hinfo.
  destruct Hinfo as (_ & _ & _ & _ & _ & _ & Hready).
  destruct (Hready c l n Hl Hn) as (i & r & j & Hinst & Hc & Hj & Hstart & Hlen).
  exists i, r, j. do 5 (split; [done|]). intros Hsz.
  pose proof (inv_regions _ _ HI _ _ Hinst) as Hok.
  pose proof (inv_buckets _ _ HI) as HK.
  pose proof (region_size_extent st r HI Hok) as HE.
  set (E := r_size r / g_buckets st) in *.
  assert (Hin : in_region r (n_start n)).
  { unfold in_region. nia. }
  exists r. split.
  - by rewrite (GetRegion_in_region st _ i r HI Hinst Hin).
  - apply bucket_in_extent; [done..|]. fold E. nia.
Qed.

(** X21. errno is written on failure only: an InitBlockPool or an
    AllocBlock that returns a block and a DeallocBlock that returns 0
    leave errno as it was, and GetRegionId and GetBlockType change the
    state, by setting errno to EINVAL, only for NULL. *)
Theorem errno_on_failure_only st :
  reachable B st →
  (∀ cb info mem p st',
     InitBlockPool B st cb info mem = Some (p, st') → p ≠ NULL →
     errno st' = errno st) ∧
  (∀ size rnd mem p st',
     mem_contract st mem → AllocBlock st size rnd mem = Some (p, st') →
     p ≠ NULL → errno st' = errno st) ∧
  (∀ buf st', DeallocBlock st buf = Some (0, st') → errno st' = errno st) ∧
  (∀ buf, buf ≠ NULL →
     (GetRegionId st buf).2 = st ∧ (GetBlockType st buf).2 = st) ∧
  (GetRegionId st NULL).2 = set_errno EINVAL st ∧
  (GetBlockType st NULL).2 = set_errno EINVAL st.
Proof.
  intros HI%reachable_Inv. split_and!.
  - intros cb info mem p st'. unfold InitBlockPool.
    destruct cb as [f|]; [|by intros [= <- <-]].
    destruct (g_cb st) as [g|]; [by intros [= <- <-]|].
    destruct info; [|by intros [= <- <-]].
    intros Hext Hp.
    by destruct (ExtendBlockPool_success _ _ _ _ _ _ Hext Hp)
      as (? & ? & ? & ? & ? & _ & _ & _ & _ & _ & ->).
  - intros size rnd mem p st' Hmem Ha Hp.
    destruct (AllocBlock_cases _ _ _ _ _ _ Ha) as [[? _]|[c Hc]]; [done|].
    destruct (AllocBlockFrom_paths st c rnd mem p st' HI Hmem Hc)
      as [[_ Hf]|[[_ Hf]|(_ & _ & _ & q & st2 & Hext & HI2 & Hrest)]].
    + by destruct (from_idle_frame _ _ _ _ _ Hf) as (_ & _ & _ & ? & _).
    + by destruct (from_ready_frame _ _ _ _ _ Hf) as (_ & _ & _ & ? & _).
    + destruct Hrest as [(_ & ? & _)|(Hq & _ & Hf)]; [done|].
      destruct (from_ready_frame _ _ _ _ _ Hf) as (_ & _ & _ & -> & _).
      by destruct (ExtendBlockPool_success _ _ _ _ _ _ Hext Hq)
        as (? & ? & ? & ? & ? & _ & _ & _ & _ & _ & ->).
  - intros buf st' Hd.
    destruct (DeallocBlock_cases st buf 0 st' HI Hd)
      as [[? _]|(_ & i & r & _ & _ & [[_ ->]|Hpush])]; [done..|].
    by destruct Hpush as (? & ? & ? & ? & _ & _ & _ & _ & _ & _ & ->).
  - intros buf Hbuf. unfold GetRegionId, GetBlockType, GetRegion.
    rewrite decide_False by done. by destruct (GetRegion_scan _ _ _).
  - done.
  - done.
Qed.

End Invariants.

(** * The scenarios *)

Lemma test_memalign_contract st i :
  0 ≤ i < 2 ^ 30 →
  (∀ b s, (b, s) ∈ heap st → b + Z.max 1 s ≤ 2 ^ 32 + i * 2 ^ 27) →
  mem_contract st (test_memalign i).
Proof.
  intros Hi Hheap sz base. unfold test_memalign.
  case_decide; [|done]. intros [= <-]. split_and!; [lia|lia|].
  intros b s Hin. right. by apply Hheap.
Qed.

Lemma test_flags_ok : flags_ok test_flags.
Proof. unfold flags_ok. simpl. unfold BYTES_IN_MB. lia. Qed.

Lemma test_state1_reachable : reachable 8192 test_state1.
Proof.
  apply (reach_step 8192 test_boot test_op1 (2 ^ 32)).
  - apply reach_boot, test_flags_ok.
  - apply test_memalign_contract; [lia|].
    intros b s Hin. by apply elem_of_nil in Hin.
  - by vm_compute.
Qed.

Lemma test_state2_reachable : reachable 8192 test_state2.
Proof.
  apply (reach_step 8192 test_state1 test_op2 (2 ^ 32 + 2 ^ 24)).
  - apply test_state1_reachable.
  - apply test_memalign_contract; [lia|].
    intros b s Hin. change (heap test_state1) with [(2 ^ 32, 2 ^ 26)] in Hin.
    apply list_elem_of_singleton in Hin as [= -> ->]. lia.
  - by vm_compute.
Qed.

Lemma test_state3_reachable : reachable 8192 test_state3.
Proof.
  apply (reach_step 8192 test_state2 test_op3 0).
  - apply test_state2_reachable.
  - done.
  - by vm_compute.
Qed.

Lemma test_state_exhausted_reachable : reachable 8192 test_state_exhausted.
Proof.
  apply (reach_step 8192 (boot test_flags 0 4) test_op1 (2 ^ 32)).
  - apply reach_boot, test_flags_ok.
  - apply test_memalign_contract; [lia|].
    intros b s Hin. by apply elem_of_nil in Hin.
  - by vm_compute.
Qed.

Lemma test_flags_spacious : spacious 8192 test_flags.
Proof. unfold spacious. simpl. unfold BYTES_IN_MB. lia. Qed.

Lemma test_state1_roomy : roomy 8192 test_state1.
Proof.
  apply (run_op_roomy 8192 ltac:(lia) ltac:(lia) test_boot test_op1 (2 ^ 32)).
  - apply boot_Inv, test_flags_ok.
  - apply test_memalign_contract; [lia|].
    intros b s Hin. by apply elem_of_nil in Hin.
  - apply (boot_roomy 8192 test_flags 0 8), test_flags_spacious.
  - by vm_compute.
Qed.

Lemma test_memalign1_contract : mem_contract test_state1 (test_memalign 1).
Proof.
  apply test_memalign_contract; [lia|].
  intros b s Hin. change (heap test_state1) with [(2 ^ 32, 2 ^ 26)] in Hin.
  apply list_elem_of_singleton in Hin as [= -> ->]. lia.
Qed.

Lemma test_state1_class3 : smallest_class test_state1 65534 3.
Proof.
  split; [exists 65536; split; [done|lia]|]. intros c' bs' Hc' Hl.
  destruct c' as [|[|[|c']]]; [..|lia]; injection Hl as <-; lia.
Qed.



(** ** Instances of the claims *)

Lemma bucket_shard_invariant_witness :
  let n := mkIdleNode (2 ^ 32 + 2 ^ 24 + 8192) (2 ^ 24 - 8192) in
  reachable 8192 test_state2 ∧
  ∃ r, (GetRegion test_state2 (n_start n)).1 = Some r ∧
       in_region r (n_start n) ∧
       (n_start n - r_start r) * g_buckets test_state2 / r_size r = 1 ∧
       g_block_size test_state2 !! 0%nat = Some 8192 ∧
       ∃ k, 0 < k ∧ n_len n = k * 8192.
Proof.
  intros n. split; [apply test_state2_reachable|].
  destruct (g_info test_state2) as [gi|] eqn:Hgi; [|by vm_compute in Hgi].
  apply (bucket_shard_invariant 8192 ltac:(lia) ltac:(lia) test_state2 gi
           0%nat 1%nat [[]; [n]; []; []] [n] n).
  - apply test_state2_reachable.
  - done.
  - vm_compute in Hgi. by injection Hgi as <-.
  - done.
  - by left.
Defined.



Lemma GetRegionId_spec_witness :
  reachable 8192 test_state1 ∧
  GetRegionId test_state1 NULL = (0, set_errno EINVAL test_state1) ∧
  (∀ i r, installed test_state1 i r → in_region r (2 ^ 32 + 5) →
     GetRegionId test_state1 (2 ^ 32 + 5) = (r_id r, test_state1) ∧
     r_id r ≠ 0 ∧
     ∀ j r', installed test_state1 j r' → in_region r' (2 ^ 32 + 5) →
             j = i ∧ r' = r) ∧
  ((∀ i r, installed test_state1 i r → ¬ in_region r (2 ^ 32 + 5)) →
   (GetRegionId test_state1 (2 ^ 32 + 5)).1 = 0).
Proof.
  split; [apply test_state1_reachable|].
  apply (GetRegionId_spec 8192 ltac:(lia) ltac:(lia) test_state1 (2 ^ 32 + 5)
           test_state1_reachable).
Defined.

Lemma ExtendBlockPool_failure_atomic_witness :
  (node_pool test_state3 < Z.to_nat (g_buckets test_state3))%nat ∧
  ExtendBlockPool test_state3 64 1 (test_memalign 2) = Some (NULL, test_state3).
Proof.
  split; [vm_compute; lia|].
  apply (ExtendBlockPool_failure_atomic test_state3 64 1 (test_memalign 2)
           16384 DummyCallback (2 ^ 32 + 2 * 2 ^ 27)).
  - lia.
  - by vm_compute.
  - by vm_compute.
  - done.
  - by vm_compute.
  - by vm_compute.
  - by vm_compute.
  - right. vm_compute. lia.
Defined.

Lemma region_size_regularised_witness :
  ExtendBlockPool test_state1 64 1 (test_memalign 1)
  = Some (2 ^ 32 + 2 ^ 27, test_state_extended) ∧
  ∃ r, installed test_state_extended 1 r ∧
       r_size r = 64 * 2 ^ 20 / (16384 * 4) * 16384 * 4.
Proof.
  assert (Hext : ExtendBlockPool test_state1 64 1 (test_memalign 1)
                 = Some (2 ^ 32 + 2 ^ 27, test_state_extended))
    by by vm_compute.
  split; [exact Hext|].
  destruct (region_size_regularised 8192 ltac:(lia) ltac:(lia) test_state1 64
              1%nat (test_memalign 1) (2 ^ 32 + 2 ^ 27) test_state_extended
              test_state1_reachable ltac:(by vm_compute) Hext ltac:(by vm_compute))
    as (_ & r & Hinst & _ & _ & _ & Hsize & _).
  exists r. split; [exact Hinst|exact Hsize].
Defined.

Lemma region_count_bounded_witness :
  reachable 8192 test_state1 ∧
  g_region_num test_state1 ≤ g_max_regions test_state1 ∧
  g_max_regions test_state1 ≤ MAX_REGIONS.
Proof.
  split; [apply test_state1_reachable|].
  destruct (region_count_bounded 8192 ltac:(lia) ltac:(lia) test_state1
              test_state1_reachable) as (H1 & H2 & _).
  split; [exact H1|exact H2].
Defined.

Lemma PickReadyBlocks_spec_witness :
  let n3 := mkIdleNode (2 ^ 32 + 3 * 2 ^ 24) (2 ^ 24) in
  let n2 := mkIdleNode (2 ^ 32 + 2 * 2 ^ 24) (2 ^ 24) in
  let n1 := mkIdleNode (2 ^ 32 + 2 ^ 24) (2 ^ 24) in
  let n0 := mkIdleNode (2 ^ 32) (2 ^ 24) in
  let ready := [n3; n2; n1; n0] in
  let row := [[]; []; []; []] in
  let gi := mkGlobalInfo [row; row; row; row] [ready; []; []; []] in
  g_info test_state1 = Some gi ∧
  ((∃ pre node post,
      ready = pre ++ node :: post ∧
      (∀ n, n ∈ pre → not_in_bucket test_state1 1 n) ∧
      in_bucket test_state1 1 node ∧
      PickReadyBlocks test_state1 0 1
      = Some (set_info
                (mkGlobalInfo
                   (<[0%nat := <[Z.to_nat 1 := [node]]> row]> (idle_list gi))
                   (<[0%nat := pre ++ post]> (ready_list gi)))
                test_state1)) ∨
   ((∀ n, n ∈ ready → not_in_bucket test_state1 1 n) ∧
    PickReadyBlocks test_state1 0 1 = Some test_state1)).
Proof.
  intros n3 n2 n1 n0 ready row gi.
  assert (Hgi : g_info test_state1 = Some gi) by by vm_compute.
  split; [exact Hgi|].
  apply (PickReadyBlocks_spec 8192 ltac:(lia) ltac:(lia) test_state1 0%nat 1
           gi ready row test_state1_reachable Hgi).
  - done.
  - done.
  - lia.
  - done.
  - intros n Hn.
    repeat (apply elem_of_cons in Hn as [->|Hn]);
      [vm_compute; eauto..|by apply elem_of_nil in Hn].
Defined.

Lemma DeallocBlock_spec_witness :
  reachable 8192 test_state2 ∧ node_pool test_state2 ≠ 0%nat ∧
  ∃ res st',
    DeallocBlock test_state2 (2 ^ 32 + 2 ^ 24) = Some (res, st') ∧
    (res = -1 ↔
     2 ^ 32 + 2 ^ 24 = NULL ∨
     ∀ i r, installed test_state2 i r → ¬ in_region r (2 ^ 32 + 2 ^ 24)).
Proof.
  assert (Hpool : node_pool test_state2 ≠ 0%nat) by by vm_compute.
  split; [apply test_state2_reachable|]. split; [exact Hpool|].
  destruct (DeallocBlock_spec 8192 ltac:(lia) ltac:(lia) test_state2
              (2 ^ 32 + 2 ^ 24) test_state2_reachable Hpool)
    as (res & st' & Heq & Hiff & _).
  exists res, st'. split; [exact Heq|exact Hiff].
Defined.

Lemma DeallocBlock_pool_exhausted_witness :
  let r := mkRegion (2 ^ 32) (2 ^ 26) 0 1 in
  reachable 8192 test_state_exhausted ∧
  installed test_state_exhausted 0 r ∧ in_region r (2 ^ 32 + 8192) ∧
  node_pool test_state_exhausted = 0%nat ∧
  DeallocBlock test_state_exhausted (2 ^ 32 + 8192)
  = Some (0, test_state_exhausted).
Proof.
  intros r.
  assert (Hinst : installed test_state_exhausted 0 r).
  { split; [by vm_compute|by vm_compute]. }
  assert (Hin : in_region r (2 ^ 32 + 8192)).
  { unfold in_region. simpl. lia. }
  assert (Hpool : node_pool test_state_exhausted = 0%nat) by by vm_compute.
  split; [apply test_state_exhausted_reachable|].
  do 3 (split; [done|]).
  apply (DeallocBlock_pool_exhausted 8192 ltac:(lia) ltac:(lia)
           test_state_exhausted (2 ^ 32 + 8192) 0%nat r
           test_state_exhausted_reachable Hinst Hin Hpool).
Defined.

(** * The test "extend" *)

(** C10, as the specification words it, fails: with B = 8192, one
    bucket and 64 MB regions, InitBlockPool followed by 4096 successful
    AllocBlock(8192) calls, all of class 0, leaves GetRegionNum() at 1,
    not at 5: the first region alone holds 8192 blocks of class 0. *)
Lemma extend_class0_counterexample :
  extend_scenario 8192 = Some 1 ∧ extend_scenario 8192 ≠ Some 5.
Proof. split; [by vm_compute|]. by vm_compute. Qed.

(** The unit test itself: requests of 65534 bytes end with 5 regions. *)
Example extend_scenario_class3 : extend_scenario 65534 = Some 5.
Proof. by vm_compute. Qed.

(** * The test "extend", for every environment *)

Lemma idle_at_lookup st gi c row index :
  g_info st = Some gi → idle_list gi !! c = Some row → 0 ≤ index →
  idle_at st c index = row !! Z.to_nat index.
Proof.
  intros Hgi Hrow Hidx. unfold idle_at. rewrite Hgi. simpl. rewrite Hrow. simpl.
  by rewrite decide_True.
Qed.

Lemma set_idle_eq st gi c row index l :
  g_info st = Some gi → idle_list gi !! c = Some row →
  set_idle st c index l
  = Some (set_info
            (mkGlobalInfo (<[c := <[Z.to_nat index := l]> row]> (idle_list gi))
                          (ready_list gi))
            st).
Proof. intros Hgi Hrow. unfold set_idle. rewrite Hgi. simpl. by rewrite Hrow. Qed.

Lemma extend_progress_init e pool cb info mem p st :
  InitBlockPool 8192 (boot extend_flags e pool) cb info mem = Some (p, st) →
  p ≠ NULL → extend_progress 0 st.
Proof.
  unfold InitBlockPool.
  destruct cb as [f|]; [|by intros [= <- <-]].
  cbn -[replicate ExtendBlockPool wrap64].
  destruct info; [|by intros [= <- <-]].
  intros Hext Hp.
  destruct (ExtendBlockPool_success _ _ _ _ _ _ Hext Hp)
    as (gi & ready & bs & pool' & cb & Hgi & Hrd & Hbs & Hcb & Hnum & ->).
  cbn -[replicate wrap64] in Hgi. injection Hgi as <-.
  unfold extend_progress.
  split; [by vm_compute|]. split; [by vm_compute|]. split; [by vm_compute|].
  split; [by vm_compute|].
  eexists _, [], 0, 0. split_and!; try done. left. by split_and!.
Qed.

Lemma take_block_nil st gi c row index :
  g_info st = Some gi → idle_list gi !! c = Some row → 0 ≤ index →
  row !! Z.to_nat index = Some [] →
  take_block st c index = Some (NULL, st).
Proof.
  intros Hgi Hrow Hidx Hl. unfold take_block.
  rewrite (idle_at_lookup st gi c row index) by done. by rewrite Hl.
Qed.

Lemma take_block_cons st gi c row index n next bs p st' :
  g_info st = Some gi → idle_list gi !! c = Some row → 0 ≤ index →
  row !! Z.to_nat index = Some (n :: next) →
  g_block_size st !! c = Some bs →
  take_block st c index = Some (p, st') →
  p = n_start n ∧
  ((n_len n > bs ∧
    st' = set_info
            (mkGlobalInfo
               (<[c := <[Z.to_nat index :=
                           mkIdleNode (wrap64 (n_start n + bs)) (n_len n - bs)
                           :: next]> row]> (idle_list gi))
               (ready_list gi))
            st) ∨
   (n_len n = bs ∧
    st' = set_node_pool (return_object (node_pool st))
            (set_info
               (mkGlobalInfo
                  (<[c := <[Z.to_nat index := next]> row]> (idle_list gi))
                  (ready_list gi))
               st))).
Proof.
  intros Hgi Hrow Hidx Hl Hbs. unfold take_block.
  rewrite (idle_at_lookup st gi c row index) by done. rewrite Hl. simpl.
  rewrite Hbs. simpl. rewrite !(set_idle_eq st gi c row) by done. simpl.
  case_decide; [intros [= <- <-]; split; [done|by left]|].
  case_decide; [|done]. intros [= <- <-]. split; [done|by right].
Qed.

Lemma pick_scan_singleton st index n res :
  pick_scan st index [n] = Some res → res = Some (n, []) ∨ res = None.
Proof.
  simpl. destruct (GetRegion st (n_start n)).1 as [r|]; [|done].
  case_decide; [done|]. case_decide; intros [= <-]; [by left|by right].
Qed.

Lemma extend_progress_step n st size rnd mem p st' :
  extend_progress n st → n < 4096 → 32768 < size ≤ 65536 →
  AllocBlock st size rnd mem = Some (p, st') → p ≠ NULL →
  extend_progress (n + 1) st'.
Proof.
  intros (HK & Hmax & Hbs & Hinc & gi & l & q & r & Hgi & Hidle & Hready
          & Hn & Hq & Hr & Hcase) Hlt Hsize Ha Hp.
  assert (Hil : (3 < length (idle_list gi))%nat) by by eapply lookup_lt_Some.
  assert (Hrl : (3 < length (ready_list gi))%nat) by by eapply lookup_lt_Some.
  assert (Hbs3 : g_block_size st !! 3%nat = Some 65536) by by rewrite Hbs.
  revert Ha. unfold AllocBlock. rewrite Hbs. simpl.
  rewrite decide_False by lia.
  rewrite !(decide_False (P := size ≤ _)) by lia.
  rewrite decide_True by lia.
  unfold AllocBlockFrom. rewrite HK. change (wrap64 1) with 1.
  rewrite decide_False by lia. rewrite Z.mod_1_r.
  rewrite (idle_at_lookup st gi 3 [l] 0 Hgi Hidle) by lia. simpl.
  destruct Hcase as [(-> & -> & Hnum) | (Hrpos & (a & len & -> & Hlen) & Hnum)].
  - assert (Hpick : PickReadyBlocks st 3 0 = Some st).
    { unfold PickReadyBlocks. rewrite Hgi. simpl. by rewrite Hready. }
    rewrite Hpick. simpl.
    rewrite (idle_at_lookup st gi 3 [[]] 0 Hgi Hidle) by lia. simpl.
    rewrite Hinc. change (wrap64 64) with 64.
    destruct (ExtendBlockPool st 64 3 mem) as [[base st2]|] eqn:Hext; simpl;
      [|done].
    case_decide as Hbase; [by intros [= <- <-]|].
    destruct (ExtendBlockPool_success _ _ _ _ _ _ Hext Hbase)
      as (gi' & ready & bs & pool' & cb & Hgi' & Hrd' & Hbs' & Hcb & Hnum' & ->).
    rewrite Hgi in Hgi'. injection Hgi' as <-.
    rewrite Hready in Hrd'. injection Hrd' as <-.
    rewrite Hbs3 in Hbs'. injection Hbs' as <-.
    rewrite HK. change (wrap64 1) with 1. change (Z.to_nat 1) with 1%nat.
    change (regular_size 64 65536 1) with 67108864.
    cbn [push_extents]. change (67108864 / 1) with 67108864.
    set (node0 := mkIdleNode _ _).
    match goal with |- PickReadyBlocks ?s _ _ ≫= _ = _ → _ => set (st2 := s) end.
    set (gi2 := mkGlobalInfo (idle_list gi) (<[3%nat := [node0]]> (ready_list gi))).
    assert (Hgi2 : g_info st2 = Some gi2) by done.
    assert (Hrd2 : ready_list gi2 !! 3%nat = Some [node0])
      by by apply list_lookup_insert_eq.
    unfold PickReadyBlocks. rewrite Hgi2. cbn [mbind option_bind]. rewrite Hrd2.
    cbn [mbind option_bind].
    destruct (pick_scan st2 0 [node0]) as [res|] eqn:Hps; [|done].
    cbn [mbind option_bind].
    destruct (pick_scan_singleton _ _ _ _ Hps) as [-> | ->].
    2:{ cbn [mbind option_bind]. rewrite (take_block_nil st2 gi2 3 [[]] 0) by (done || lia).
        by intros [= <- <-]. }
    change (idle_list gi2) with (idle_list gi).
    rewrite Hidle. cbn [mbind option_bind].
    rewrite decide_True by (simpl; lia). cbn [mbind option_bind].
    match goal with |- take_block ?s _ _ = _ → _ => set (st3 := s) end.
    intros Ht.
    eapply (take_block_cons st3 _ 3 [[node0]] 0 node0 [] 65536) in Ht
      as [-> [[_ ->] | [Hbad _]]];
      [| |done|by apply list_lookup_insert_eq|lia|done|done].
    + split_and!; try done.
      eexists _, _, q, 1. split; [done|]. split.
      { simpl. apply list_lookup_insert_eq. by rewrite length_insert. }
      split.
      { simpl. apply list_lookup_insert_eq. by rewrite length_insert. }
      split; [lia|]. split; [lia|]. split; [lia|].
      right. split; [lia|]. split; [|simpl; lia].
      eexists _, _. split; [done|]. simpl. lia.
    + simpl in Hbad. lia.
  - intros Ht.
    eapply (take_block_cons st gi 3 [[mkIdleNode a len]] 0 _ [] 65536) in Ht
      as [-> [[Hgt ->] | [Heq ->]]]; [| |done|done|lia|done|done].
    + simpl in Hgt. split_and!; try done.
      eexists _, _, q, (r + 1). split; [done|]. split.
      { simpl. by apply list_lookup_insert_eq. }
      split; [done|].
      split; [lia|]. split; [lia|]. split; [lia|].
      right. split; [lia|]. split; [|done].
      eexists _, _. split; [done|]. simpl. lia.
    + simpl in Heq. split_and!; try done.
      eexists _, _, (q + 1), 0. split; [done|]. split.
      { simpl. by apply list_lookup_insert_eq. }
      split; [done|].
      split; [lia|]. split; [lia|]. split; [lia|].
      left. split_and!; [done|done|simpl; lia].
Qed.

Lemma extend_progress_run size envs n st st' :
  extend_progress n st → n + Z.of_nat (length envs) ≤ 4096 →
  32768 < size ≤ 65536 →
  alloc_all size envs st = Some st' →
  extend_progress (n + Z.of_nat (length envs)) st'.
Proof.
  revert n st. induction envs as [|[rnd mem] envs IH]; intros n st Hprog Hn Hsize.
  - simpl. intros [= <-]. by rewrite Z.add_0_r.
  - simpl in Hn |- *.
    destruct (AllocBlock st size rnd mem) as [[p st1]|] eqn:Ha; [|done].
    case_decide as Hp; [done|]. intros Hrest.
    replace (n + Z.of_nat (S (length envs)))
      with (n + 1 + Z.of_nat (length envs)) by lia.
    apply (IH (n + 1) st1); [|lia|done|done].
    eapply extend_progress_step; [done|lia|done|done|done].
Qed.

(** C10, amended: with B = 8192, one bucket, regions of 64 MB and at
    most 16 regions, whatever posix_memalign, the callback, the object
    pool and fast_rand do, once InitBlockPool has succeeded and 4096
    AllocBlock calls of class 3 (more than 4B and at most 8B bytes, as
    the 65534 of the unit test) have each returned a block,
    GetRegionNum() is 5: the first region is of class 0, and a region of
    class 3 holds 1024 blocks. *)
Theorem extend_class3_reaches_five e pool cb info mem0 size envs p0 st0 st' :
  InitBlockPool 8192 (boot extend_flags e pool) cb info mem0 = Some (p0, st0) →
  p0 ≠ NULL →
  4 * 8192 < size ≤ 8 * 8192 → length envs = Z.to_nat 4096 →
  alloc_all size envs st0 = Some st' →
  GetRegionNum st' = 5.
Proof.
  intros Hinit Hp0 Hsize Hlen Hrun.
  pose proof (extend_progress_init _ _ _ _ _ _ _ Hinit Hp0) as Hprog.
  apply (extend_progress_run size envs 0 st0 st' Hprog) in Hrun; [|lia..].
  destruct Hrun as (_ & _ & _ & _ & gi & l & q & r & _ & _ & _ & Hn & Hq & Hr
                    & Hcase).
  unfold GetRegionNum.
  destruct Hcase as [(_ & _ & ->) | (? & _ & ->)]; lia.
Qed.

Lemma extend_class3_reaches_five_witness :
  InitBlockPool 8192 (boot extend_flags 0 8) (Some DummyCallback) true
    (test_memalign 0) = Some (2 ^ 32, extend_init) ∧
  alloc_all 65534 (test_envs (Z.to_nat 4096)) extend_init = Some extend_final ∧
  GetRegionNum extend_final = 5.
Proof.
  assert (Hinit : InitBlockPool 8192 (boot extend_flags 0 8) (Some DummyCallback)
                    true (test_memalign 0) = Some (2 ^ 32, extend_init))
    by by vm_compute.
  assert (Hrun : alloc_all 65534 (test_envs (Z.to_nat 4096)) extend_init
                 = Some extend_final) by by vm_compute.
  split; [exact Hinit|]. split; [exact Hrun|].
  apply (extend_class3_reaches_five 0 8%nat (Some DummyCallback) true
           (test_memalign 0) 65534 (test_envs (Z.to_nat 4096)) (2 ^ 32)
           extend_init extend_final Hinit).
  - by vm_compute.
  - lia.
  - by vm_compute.
  - exact Hrun.
Defined.

(** * Instances of the further properties *)

Lemma test_memalign2_contract : mem_contract test_state2 (test_memalign 2).
Proof.
  apply test_memalign_contract; [lia|].
  intros b s Hin. change (heap test_state2) with [(2 ^ 32, 2 ^ 26)] in Hin.
  apply list_elem_of_singleton in Hin as [= -> ->]. lia.
Qed.

Lemma test_state2_class0 : smallest_class test_state2 8192 0.
Proof.
  split; [exists 8192; split; [done|lia]|]. intros c' bs' Hc'. lia.
Qed.

Lemma test_state2_client :
  client 8192 8 test_state2 [(2 ^ 32 + 2 ^ 24, 8192)].
Proof.
  apply (client_alloc 8192 8 test_state1 [] 8192 1 (test_memalign 1)
           (2 ^ 32 + 2 ^ 24) test_state2).
  - apply (client_init 8192 8 test_boot [] (Some DummyCallback) true
             (test_memalign 0) (2 ^ 32) test_state1).
    + apply (client_boot 8192 8 test_flags 0), test_flags_ok.
    + apply test_memalign_contract; [lia|].
      intros b s Hin. by apply elem_of_nil in Hin.
    + by vm_compute.
  - apply test_memalign1_contract.
  - by vm_compute.
Qed.

Lemma DeallocBlock_AllocBlock_round_trip_witness :
  reachable 8192 test_state2 ∧
  ∃ st1, DeallocBlock test_state2 (2 ^ 32 + 2 ^ 24) = Some (0, st1) ∧
         AllocBlock st1 8192 1 (test_memalign 2)
         = Some (2 ^ 32 + 2 ^ 24, test_state2).
Proof.
  split; [apply test_state2_reachable|].
  apply (DeallocBlock_AllocBlock_round_trip 8192 ltac:(lia) ltac:(lia)
           test_state2 (2 ^ 32 + 2 ^ 24) 0%nat (mkRegion (2 ^ 32) (2 ^ 26) 0 1)
           8192 1 (test_memalign 2)).
  - apply test_state2_reachable.
  - split; [by vm_compute|done].
  - unfold in_region. simpl. lia.
  - by vm_compute.
  - apply test_state2_class0.
  - lia.
  - by vm_compute.
Defined.

Lemma double_free_double_allocation_witness :
  (2 ≤ node_pool test_state2)%nat ∧
  ∃ st1 st2,
    DeallocBlock test_state2 (2 ^ 32 + 2 ^ 24) = Some (0, st1) ∧
    DeallocBlock st1 (2 ^ 32 + 2 ^ 24) = Some (0, st2) ∧
    AllocBlock st2 8192 1 (test_memalign 2) = Some (2 ^ 32 + 2 ^ 24, st1) ∧
    AllocBlock st1 8192 5 (test_memalign 3)
    = Some (2 ^ 32 + 2 ^ 24, test_state2).
Proof.
  split; [vm_compute; lia|].
  apply (double_free_double_allocation 8192 ltac:(lia) ltac:(lia)
           test_state2 (2 ^ 32 + 2 ^ 24) 0%nat (mkRegion (2 ^ 32) (2 ^ 26) 0 1)
           8192 1 5 (test_memalign 2) (test_memalign 3)).
  - apply test_state2_reachable.
  - split; [by vm_compute|done].
  - unfold in_region. simpl. lia.
  - vm_compute. lia.
  - apply test_state2_class0.
  - lia.
  - by vm_compute.
  - by vm_compute.
Defined.

Lemma GetBlockType_GetRegionId_witness :
  reachable 8192 test_state1 ∧
  ((GetBlockType test_state1 (2 ^ 32 + 5)).1 = -1
   ↔ (GetRegionId test_state1 (2 ^ 32 + 5)).1 = 0) ∧
  (GetBlockType test_state1 (2 ^ 32 + 5)).2
  = (GetRegionId test_state1 (2 ^ 32 + 5)).2 ∧
  ((GetBlockType test_state1 (2 ^ 32 + 5)).1 ≠ -1 →
   ∃ i r, installed test_state1 i r ∧ in_region r (2 ^ 32 + 5) ∧
          GetBlockType test_state1 (2 ^ 32 + 5)
          = (Z.of_nat (r_block_type r), test_state1) ∧
          GetRegionId test_state1 (2 ^ 32 + 5) = (r_id r, test_state1) ∧
          0 ≤ (GetBlockType test_state1 (2 ^ 32 + 5)).1
            < Z.of_nat BLOCK_SIZE_COUNT).
Proof.
  split; [apply test_state1_reachable|].
  apply (GetBlockType_GetRegionId 8192 ltac:(lia) ltac:(lia) test_state1
           (2 ^ 32 + 5) test_state1_reachable).
Defined.

Lemma InitBlockPool_once_witness :
  InitBlockPool 8192 test_boot (Some DummyCallback) true no_memalign
  = Some (NULL, test_state_failed_init) ∧
  run_ops 8192 test_state_failed_init [test_op2; test_op4] test_state_late2 ∧
  g_region_num test_state_late2 = 1 ∧
  InitBlockPool 8192 test_state_late2 (Some DummyCallback) true
    (test_memalign 2)
  = Some (NULL, set_errno EINVAL test_state_late2).
Proof.
  assert (Hinit : InitBlockPool 8192 test_boot (Some DummyCallback) true
                    no_memalign = Some (NULL, test_state_failed_init))
    by by vm_compute.
  assert (Hrun : run_ops 8192 test_state_failed_init [test_op2; test_op4]
                   test_state_late2).
  { apply (run_ops_cons 8192 test_state_failed_init test_op2
             (2 ^ 32 + 2 ^ 27 + 2 ^ 24) test_state_late1).
    - apply test_memalign_contract; [lia|].
      intros b s Hin. by apply elem_of_nil in Hin.
    - by vm_compute.
    - apply (run_ops_cons 8192 test_state_late1 test_op4 0 test_state_late2);
        [done|by vm_compute|apply run_ops_nil]. }
  split; [exact Hinit|]. split; [exact Hrun|]. split; [done|].
  apply (InitBlockPool_once 8192 ltac:(lia) ltac:(lia) test_boot DummyCallback
           true no_memalign NULL test_state_failed_init [test_op2; test_op4]
           test_state_late2 (Some DummyCallback) true (test_memalign 2)).
  - apply reach_boot, test_flags_ok.
  - intros sz base Hm. discriminate Hm.
  - exact Hinit.
  - exact Hrun.
Defined.

Lemma DeallocBlock_GetGlobalLen_witness :
  reachable 8192 test_state2 ∧
  ∃ st' len,
    DeallocBlock test_state2 (2 ^ 32 + 2 ^ 24) = Some (0, st') ∧
    GetGlobalLen test_state2 0 = Some len ∧
    GetGlobalLen st' 0 = Some (wrap64 (len + 8192)) ∧
    ∀ c, c ≠ 0%nat → GetGlobalLen st' c = GetGlobalLen test_state2 c.
Proof.
  split; [apply test_state2_reachable|].
  apply (DeallocBlock_GetGlobalLen 8192 ltac:(lia) ltac:(lia) test_state2
           (2 ^ 32 + 2 ^ 24) 0%nat (mkRegion (2 ^ 32) (2 ^ 26) 0 1)).
  - apply test_state2_reachable.
  - split; [by vm_compute|done].
  - unfold in_region. simpl. lia.
  - by vm_compute.
Defined.

Lemma AllocBlock_extends_when_dry_witness :
  AllocBlock test_state1 65534 1 (test_memalign 1)
  = Some (2 ^ 32 + 2 ^ 27 + 2 ^ 24, test_state_class3) ∧
  ((2 ^ 32 + 2 ^ 27 + 2 ^ 24 ≠ NULL ∧
    needs_extension test_state1 3 (wrap64 1 mod g_buckets test_state1)) →
   g_region_num test_state_class3 = g_region_num test_state1 + 1) ∧
  (¬ (2 ^ 32 + 2 ^ 27 + 2 ^ 24 ≠ NULL ∧
      needs_extension test_state1 3 (wrap64 1 mod g_buckets test_state1)) →
   g_region_num test_state_class3 = g_region_num test_state1 ∧
   g_regions test_state_class3 = g_regions test_state1).
Proof.
  assert (Ha : AllocBlock test_state1 65534 1 (test_memalign 1)
               = Some (2 ^ 32 + 2 ^ 27 + 2 ^ 24, test_state_class3))
    by by vm_compute.
  split; [exact Ha|].
  apply (AllocBlock_extends_when_dry 8192 ltac:(lia) ltac:(lia) test_state1
           65534 3%nat 1 (test_memalign 1) (2 ^ 32 + 2 ^ 27 + 2 ^ 24)
           test_state_class3 test_state1_reachable test_memalign1_contract
           test_state1_class3).
  - lia.
  - vm_compute. eauto.
  - exact Ha.
Defined.

Lemma ExtendBlockPool_extents_witness :
  ExtendBlockPool test_state1 64 1 (test_memalign 1)
  = Some (2 ^ 32 + 2 ^ 27, test_state_extended) ∧
  ∃ gi gi' ready r,
    g_info test_state1 = Some gi ∧ g_info test_state_extended = Some gi' ∧
    ready_list gi !! 1%nat = Some ready ∧
    installed test_state_extended (Z.to_nat (g_region_num test_state1)) r ∧
    r_start r = 2 ^ 32 + 2 ^ 27 ∧ r_block_type r = 1%nat ∧
    r_size r = r_size r / g_buckets test_state1 * g_buckets test_state1 ∧
    ready_list gi' !! 1%nat
    = Some (reverse ((λ j, mkIdleNode
                             (2 ^ 32 + 2 ^ 27
                              + j * (r_size r / g_buckets test_state1))
                             (r_size r / g_buckets test_state1))
                     <$> seqZ 0 (g_buckets test_state1)) ++ ready) ∧
    idle_list gi' = idle_list gi ∧
    (∀ c', c' ≠ 1%nat → ready_list gi' !! c' = ready_list gi !! c') ∧
    (0 < r_size r → ∀ j, 0 ≤ j < g_buckets test_state1 →
       in_bucket test_state_extended j
         (mkIdleNode (2 ^ 32 + 2 ^ 27 + j * (r_size r / g_buckets test_state1))
                     (r_size r / g_buckets test_state1))).
Proof.
  assert (Hext : ExtendBlockPool test_state1 64 1 (test_memalign 1)
                 = Some (2 ^ 32 + 2 ^ 27, test_state_extended))
    by by vm_compute.
  split; [exact Hext|].
  apply (ExtendBlockPool_extents 8192 ltac:(lia) ltac:(lia) test_state1 64
           1%nat (test_memalign 1) (2 ^ 32 + 2 ^ 27) test_state_extended
           test_state1_reachable test_memalign1_contract).
  - lia.
  - vm_compute. reflexivity.
  - exact Hext.
  - unfold NULL. lia.
Defined.

Lemma InitBlockPool_success_witness :
  InitBlockPool 8192 (boot test_flags 0 8) (Some DummyCallback) true
    (test_memalign 0) = Some (2 ^ 32, test_state1) ∧
  GetRegionNum test_state1 = 1 ∧ g_buckets test_state1 = 4 ∧
  g_max_regions test_state1 = 16 ∧
  g_regions test_state1 !! 0%nat = Some (mkRegion (2 ^ 32) (2 ^ 26) 0 1) ∧
  heap test_state1 = [(2 ^ 32, 2 ^ 26)] ∧
  node_pool test_state1 = 4%nat ∧
  GetGlobalLen test_state1 0 = Some 0.
Proof.
  assert (Hinit : InitBlockPool 8192 (boot test_flags 0 8) (Some DummyCallback)
                    true (test_memalign 0) = Some (2 ^ 32, test_state1))
    by by vm_compute.
  split; [exact Hinit|].
  destruct (InitBlockPool_success 8192 ltac:(lia) ltac:(lia) test_flags 0 8
              DummyCallback true (test_memalign 0) (2 ^ 32) test_state1
              test_flags_ok)
    as (H1 & H2 & H3 & H4 & _ & H5 & H6 & _ & H7).
  - apply test_memalign_contract; [lia|].
    intros b s Hin. by apply elem_of_nil in Hin.
  - exact Hinit.
  - unfold NULL. lia.
  - destruct (H7 0%nat ltac:(unfold BLOCK_SIZE_COUNT; lia)) as [_ H8].
    split; [exact H1|]. split; [exact H2|]. split; [exact H3|].
    split; [exact H4|]. split; [exact H5|]. split; [|exact H8].
    revert H6. vm_compute. lia.
Defined.

Lemma heap_is_regions_witness :
  reachable 8192 test_state_class3 ∧
  heap test_state_class3 = region_blocks test_state_class3 ∧
  Z.of_nat (length (heap test_state_class3)) = GetRegionNum test_state_class3 ∧
  ∀ b s, (b, s) ∈ heap test_state_class3 ↔
         ∃ i r, installed test_state_class3 i r ∧
                b = r_start r ∧ s = r_size r.
Proof.
  assert (Hreach : reachable 8192 test_state_class3).
  { apply (reach_step 8192 test_state1 (OpAlloc 65534 1 (test_memalign 1))
             (2 ^ 32 + 2 ^ 27 + 2 ^ 24)).
    - apply test_state1_reachable.
    - apply test_memalign1_contract.
    - by vm_compute. }
  split; [exact Hreach|].
  apply (heap_is_regions 8192 ltac:(lia) ltac:(lia) test_state_class3 Hreach).
Defined.
Lemma DestroyBlockPool_releases_witness :
  reachable 8192 test_state3 ∧
  DestroyBlockPool test_state3 = Some test_state_destroyed ∧
  heap test_state_destroyed = [] ∧ node_pool test_state_destroyed = 8%nat ∧
  GetRegionNum test_state_destroyed = 0 ∧
  ∀ r, r ∈ g_regions test_state_destroyed → r_start r = 0.
Proof.
  assert (Hd : DestroyBlockPool test_state3 = Some test_state_destroyed)
    by by vm_compute.
  split; [apply test_state3_reachable|]. split; [exact Hd|].
  destruct (DestroyBlockPool_releases 8192 ltac:(lia) ltac:(lia) test_state3
              test_state3_reachable) as [_ Hrel].
  destruct Hrel as (st' & Hd' & Hheap & _ & Hnum & _ & _ & Hrs & _).
  { vm_compute. eauto. }
  rewrite Hd in Hd'. injection Hd' as <-.
  split; [exact Hheap|]. split; [by vm_compute|].
  split; [exact Hnum|exact Hrs].
Defined.

Lemma after_DestroyBlockPool_witness :
  DestroyBlockPool test_state3 = Some test_state_destroyed ∧
  (GetRegionId test_state_destroyed (2 ^ 32 + 5)).1 = 0 ∧
  (GetBlockType test_state_destroyed (2 ^ 32 + 5)).1 = -1 ∧
  DeallocBlock test_state_destroyed (2 ^ 32 + 5)
  = Some (-1, set_errno
                (if decide (2 ^ 32 + 5 = NULL) then EINVAL else ERANGE)
                test_state_destroyed) ∧
  (∀ size rnd mem, 0 < size ≤ 8192 * 8 →
     AllocBlock test_state_destroyed size rnd mem = None) ∧
  DestroyBlockPool test_state_destroyed = None.
Proof.
  assert (Hd : DestroyBlockPool test_state3 = Some test_state_destroyed)
    by by vm_compute.
  split; [exact Hd|].
  apply (after_DestroyBlockPool 8192 ltac:(lia) ltac:(lia) test_state3
           test_state_destroyed (2 ^ 32 + 5) test_state3_reachable Hd).
Defined.

Lemma InitBlockPool_after_Destroy_witness :
  FLAGS_rdma_memory_pool_max_regions test_flags_again = 32 ∧
  FLAGS_rdma_memory_pool_buckets test_flags_again = 0 ∧
  InitBlockPool 8192 (set_flags test_flags_again test_state_destroyed)
    (Some DummyCallback) true (test_memalign 0)
  = Some (2 ^ 32, test_state_again) ∧
  GetRegionNum test_state_again = 1 ∧
  g_max_regions test_state_again = 16 ∧ g_buckets test_state_again = 4.
Proof.
  assert (Hd : DestroyBlockPool test_state3 = Some test_state_destroyed)
    by by vm_compute.
  assert (Hinit : InitBlockPool 8192
                    (set_flags test_flags_again test_state_destroyed)
                    (Some DummyCallback) true (test_memalign 0)
                  = Some (2 ^ 32, test_state_again)) by by vm_compute.
  split; [done|]. split; [done|]. split; [exact Hinit|].
  destruct (InitBlockPool_after_Destroy 8192 ltac:(lia) ltac:(lia) test_state3
              test_state_destroyed test_flags_again DummyCallback
              (test_memalign 0) (2 ^ 32) test_state_again
              test_state3_reachable Hd Hinit) as (H1 & H2 & H3 & _).
  - unfold NULL. lia.
  - split; [exact H1|]. split; [|exact H3]. rewrite H2. by vm_compute.
Defined.

Lemma every_byte_has_one_owner_witness :
  let a := 2 ^ 32 + 2 ^ 24 + 5 in
  client 8192 8 test_state2 [(2 ^ 32 + 2 ^ 24, 8192)] ∧
  free_cover a test_state2 + out_cover a [(2 ^ 32 + 2 ^ 24, 8192)]
  = region_cover a test_state2 ∧
  0 ≤ free_cover a test_state2 ∧ 0 ≤ out_cover a [(2 ^ 32 + 2 ^ 24, 8192)] ∧
  0 ≤ region_cover a test_state2 ≤ 1 ∧
  (region_cover a test_state2 = 1
   ↔ ∃ i r, installed test_state2 i r ∧ in_region r a).
Proof.
  intros a. split; [apply test_state2_client|].
  apply (every_byte_has_one_owner 8192 ltac:(lia) ltac:(lia) 8 test_state2
           [(2 ^ 32 + 2 ^ 24, 8192)] a test_state2_client).
Defined.

Lemma AllocBlock_fresh_block_witness :
  client 8192 8 test_state2 [(2 ^ 32 + 2 ^ 24, 8192)] ∧
  AllocBlock test_state2 8192 1 (test_memalign 2)
  = Some (2 ^ 32 + 2 ^ 24 + 8192, test_state_two_blocks) ∧
  ∃ i r,
    installed test_state_two_blocks i r ∧
    in_region r (2 ^ 32 + 2 ^ 24 + 8192) ∧
    block_len test_state_two_blocks (2 ^ 32 + 2 ^ 24 + 8192)
    = class_size 8192 (r_block_type r) ∧
    (2 ^ 32 + 2 ^ 24 + 8192 - r_start r) mod class_size 8192 (r_block_type r)
    = 0 ∧
    2 ^ 32 + 2 ^ 24 + 8192 + class_size 8192 (r_block_type r)
    ≤ r_start r + r_size r ∧
    ∀ q len, (q, len) ∈ [(2 ^ 32 + 2 ^ 24, 8192)] →
      2 ^ 32 + 2 ^ 24 + 8192 + class_size 8192 (r_block_type r) ≤ q
      ∨ q + len ≤ 2 ^ 32 + 2 ^ 24 + 8192.
Proof.
  assert (Ha : AllocBlock test_state2 8192 1 (test_memalign 2)
               = Some (2 ^ 32 + 2 ^ 24 + 8192, test_state_two_blocks))
    by by vm_compute.
  split; [apply test_state2_client|]. split; [exact Ha|].
  apply (AllocBlock_fresh_block 8192 ltac:(lia) ltac:(lia) 8 test_state2
           [(2 ^ 32 + 2 ^ 24, 8192)] 8192 1 (test_memalign 2)
           (2 ^ 32 + 2 ^ 24 + 8192) test_state_two_blocks test_state2_client
           test_memalign2_contract Ha).
  unfold NULL. lia.
Defined.

Lemma IdleNode_objects_conserved_witness :
  client 8192 8 test_state2 [(2 ^ 32 + 2 ^ 24, 8192)] ∧
  Z.of_nat (node_pool test_state2) + nodes_count test_state2 = Z.of_nat 8 ∧
  ∀ st', DestroyBlockPool test_state2 = Some st' → node_pool st' = 8%nat.
Proof.
  split; [apply test_state2_client|].
  apply (IdleNode_objects_conserved 8192 ltac:(lia) ltac:(lia) 8 test_state2
           [(2 ^ 32 + 2 ^ 24, 8192)] test_state2_client).
Defined.

Lemma AllocBlock_from_bucket_witness :
  AllocBlock test_state1 8192 1 (test_memalign 1)
  = Some (2 ^ 32 + 2 ^ 24, test_state2) ∧
  ∃ i r l len,
    installed test_state2 i r ∧ r_block_type r = 0%nat ∧
    in_region r (2 ^ 32 + 2 ^ 24) ∧
    bucket_of test_state2 r (2 ^ 32 + 2 ^ 24)
    = wrap64 1 mod g_buckets test_state1 ∧
    idle_at test_state1 0 (wrap64 1 mod g_buckets test_state1) = Some l ∧
    GetGlobalLen test_state1 0 = Some len ∧
    match l with
    | n :: _ =>
        2 ^ 32 + 2 ^ 24 = n_start n ∧
        GetGlobalLen test_state2 0 = Some (wrap64 (len - class_size 8192 0))
    | [] =>
        2 ^ 32 + 2 ^ 24
        = r_start r + wrap64 1 mod g_buckets test_state1
                      * (r_size r / g_buckets test_state1) ∧
        GetGlobalLen test_state2 0
        = Some (wrap64 (len + r_size r / g_buckets test_state1
                        - class_size 8192 0))
    end.
Proof.
  assert (Ha : AllocBlock test_state1 8192 1 (test_memalign 1)
               = Some (2 ^ 32 + 2 ^ 24, test_state2)) by by vm_compute.
  split; [exact Ha|].
  apply (AllocBlock_from_bucket 8192 ltac:(lia) ltac:(lia) test_state1 8192
           0%nat 1 (test_memalign 1) (2 ^ 32 + 2 ^ 24) test_state2
           test_state1_reachable test_memalign1_contract).
  - split; [exists 8192; split; [done|lia]|]. intros c' bs' Hc'. lia.
  - lia.
  - vm_compute. eauto.
  - exact Ha.
  - unfold NULL. lia.
Defined.

Lemma AllocBlock_succeeds_witness :
  roomy 8192 test_state1 ∧
  g_region_num test_state1 < g_max_regions test_state1 ∧
  (Z.to_nat (g_buckets test_state1) ≤ node_pool test_state1)%nat ∧
  ∃ p st', AllocBlock test_state1 65534 1 (test_memalign 1) = Some (p, st') ∧
           p ≠ NULL.
Proof.
  split; [apply test_state1_roomy|]. split; [by vm_compute|].
  split; [vm_compute; lia|].
  apply (AllocBlock_succeeds 8192 ltac:(lia) ltac:(lia) test_state1 65534
           3%nat 1 (test_memalign 1) DummyCallback (2 ^ 32 + 2 ^ 27)
           test_state1_reachable test_state1_roomy test_memalign1_contract
           test_state1_class3).
  - lia.
  - vm_compute. eauto.
  - done.
  - by vm_compute.
  - vm_compute. lia.
  - by vm_compute.
  - unfold DummyCallback. lia.
Defined.

Lemma region_stays_witness :
  let r := mkRegion (2 ^ 32) (2 ^ 26) 0 1 in
  run_ops 8192 test_state1 [test_op2; test_op3] test_state3 ∧
  installed test_state1 0 r ∧
  installed test_state3 0 r ∧
  (in_region r (2 ^ 32 + 5) →
   GetRegionId test_state3 (2 ^ 32 + 5) = (r_id r, test_state3) ∧
   GetBlockType test_state3 (2 ^ 32 + 5)
   = (Z.of_nat (r_block_type r), test_state3)).
Proof.
  intros r.
  assert (Hrun : run_ops 8192 test_state1 [test_op2; test_op3] test_state3).
  { apply (run_ops_cons 8192 test_state1 test_op2 (2 ^ 32 + 2 ^ 24) test_state2).
    - apply test_memalign1_contract.
    - by vm_compute.
    - apply (run_ops_cons 8192 test_state2 test_op3 0 test_state3).
      + done.
      + by vm_compute.
      + apply run_ops_nil. }
  assert (Hinst : installed test_state1 0 r) by (split; [by vm_compute|done]).
  split; [exact Hrun|]. split; [exact Hinst|].
  apply (region_stays 8192 ltac:(lia) ltac:(lia) test_state1
           [test_op2; test_op3] test_state3 0%nat r (2 ^ 32 + 5)
           test_state1_reachable Hrun Hinst).
Defined.

Lemma ready_extent_invariant_witness :
  let n := mkIdleNode (2 ^ 32 + 2 ^ 24) (2 ^ 24) in
  reachable 8192 test_state1 ∧
  ∃ i r j,
    installed test_state1 i r ∧ r_block_type r = 0%nat ∧
    0 ≤ j < g_buckets test_state1 ∧
    n_start n = r_start r + j * (r_size r / g_buckets test_state1) ∧
    n_len n = r_size r / g_buckets test_state1 ∧
    (0 < r_size r → in_bucket test_state1 j n).
Proof.
  intros n. split; [apply test_state1_reachable|].
  destruct (g_info test_state1) as [gi|] eqn:Hgi; [|by vm_compute in Hgi].
  apply (ready_extent_invariant 8192 ltac:(lia) ltac:(lia) test_state1 gi
           0%nat
           [mkIdleNode (2 ^ 32 + 3 * 2 ^ 24) (2 ^ 24);
            mkIdleNode (2 ^ 32 + 2 * 2 ^ 24) (2 ^ 24); n;
            mkIdleNode (2 ^ 32) (2 ^ 24)] n).
  - apply test_state1_reachable.
  - done.
  - vm_compute in Hgi. by injection Hgi as <-.
  - right. right. by left.
Defined.

Lemma errno_on_failure_only_witness :
  reachable 8192 test_state1 ∧
  AllocBlock test_state1 8192 1 (test_memalign 1)
  = Some (2 ^ 32 + 2 ^ 24, test_state2) ∧
  errno test_state2 = errno test_state1.
Proof.
  assert (Ha : AllocBlock test_state1 8192 1 (test_memalign 1)
               = Some (2 ^ 32 + 2 ^ 24, test_state2)) by by vm_compute.
  split; [apply test_state1_reachable|]. split; [exact Ha|].
  destruct (errno_on_failure_only 8192 ltac:(lia) ltac:(lia) test_state1
              test_state1_reachable) as (_ & Halloc & _).
  apply (Halloc 8192 1 (test_memalign 1) (2 ^ 32 + 2 ^ 24) test_state2
           test_memalign1_contract Ha).
  unfold NULL. lia.
Defined.
